(** * catalog-commit-api: the recipe upsert handlers

    A shallow embedding of the two serverless handlers of the repository:

    - the batch handler (header comment: "Supports single { recipe } or bulk
      { recipes: [...] } payloads"), module [Batch];
    - the single-recipe handler [api/save-recipe.js], module [Single].

    Both read a JSON array from a file of a GitHub repository, upsert the
    submitted recipe(s) by id, sort by name and commit the file back.

    Modelling conventions.

    - A JavaScript string is a [string] whose characters are the code units
      U+0000..U+00FF (Latin-1); [toLowerCase] and [trim] are exact there.
    - JSON values are the inductive [value]; an object is the list of its
      own properties in enumeration order.  Numbers are kept abstract (class
      [Host]): the handlers only test them for truthiness, compare them with
      [===] and convert them to strings.
    - Every JavaScript exception raised inside the handlers' [try] block is
      caught by the single [catch] and answered with 500 "server-error"; it is
      the constructor [Throw] of [exc].
    - The remote store is seen through the requests issued to it (the trace of
      [store_op]) and through the answers it gives ([store]).  The file
      content travels as the JSON array itself: the base64 and JSON text
      encodings are left out. *)

From Stdlib Require Import String Ascii List ZArith Bool Arith Lia Permutation.
From Stdlib Require Import DecimalString Sorted Relations_1 OrderedTypeEx.
Import ListNotations.
Local Open Scope string_scope.
Local Open Scope list_scope.

(** ** Exceptions *)

Inductive exc (A : Type) : Type :=
| Ok (a : A)
| Throw.

Arguments Ok {A} a.
Arguments Throw {A}.

Definition bind {A B : Type} (m : exc A) (k : A -> exc B) : exc B :=
  match m with
  | Ok a => k a
  | Throw => Throw
  end.

Declare Scope exc_scope.
Delimit Scope exc_scope with exc.
Notation "x <- m ;; k" := (bind m (fun x => k))
  (at level 61, m at next level, right associativity) : exc_scope.
Local Open Scope exc_scope.

(** [Array.prototype.map] with a callback that may throw: the elements are
    visited in order and the first exception aborts the loop. *)
Fixpoint map_exc {A B : Type} (f : A -> exc B) (l : list A) : exc (list B) :=
  match l with
  | [] => Ok []
  | x :: r =>
      y <- f x ;;
      ys <- map_exc f r ;;
      Ok (y :: ys)
  end.

(** ** Strings *)

Definition code (c : ascii) : nat := nat_of_ascii c.

Definition between (lo hi n : nat) : bool := ((lo <=? n) && (n <=? hi))%nat.

(** [String.prototype.toLowerCase] on one Latin-1 code unit: A-Z, and the
    accented capitals U+00C0..U+00DE except the multiplication sign U+00D7. *)
Definition lower_char (c : ascii) : ascii :=
  let n := code c in
  if between 65 90 n || (between 192 222 n && negb (n =? 215)%nat)
  then ascii_of_nat (n + 32)
  else c.

Fixpoint toLowerCase (s : string) : string :=
  match s with
  | EmptyString => EmptyString
  | String c r => String (lower_char c) (toLowerCase r)
  end.

(** The class [[a-z0-9]] of the regular expression in [slug]. *)
Definition is_alnum (c : ascii) : bool :=
  let n := code c in between 97 122 n || between 48 57 n.

(** White space and line terminators removed by [String.prototype.trim]:
    TAB, LF, VT, FF, CR, SP and NBSP. *)
Definition is_space (c : ascii) : bool :=
  let n := code c in between 9 13 n || (n =? 32)%nat || (n =? 160)%nat.

Fixpoint trimStart (s : string) : string :=
  match s with
  | EmptyString => EmptyString
  | String c r => if is_space c then trimStart r else s
  end.

Fixpoint trimEnd (s : string) : string :=
  match s with
  | EmptyString => EmptyString
  | String c r =>
      match trimEnd r with
      | EmptyString => if is_space c then EmptyString else String c EmptyString
      | r' => String c r'
      end
  end.

Definition trim (s : string) : string := trimEnd (trimStart s).

(** [.replace(/[^a-z0-9]+/g, "-")]: every maximal run of characters outside
    [[a-z0-9]] becomes one hyphen.  [in_run] tells that the previous
    character already belongs to the run being replaced. *)
Fixpoint replace_runs (in_run : bool) (s : string) : string :=
  match s with
  | EmptyString => EmptyString
  | String c r =>
      if is_alnum c then String c (replace_runs false r)
      else if in_run then replace_runs true r
      else String "-" (replace_runs true r)
  end.

Definition is_hyphen (c : ascii) : bool := (code c =? 45)%nat.

(** The alternative [^-] of [/(^-|-$)/g]: a hyphen at index 0. *)
Definition strip_first_hyphen (s : string) : string :=
  match s with
  | String c r => if is_hyphen c then r else s
  | EmptyString => EmptyString
  end.

(** The alternative [-$]: a hyphen at the last index. *)
Fixpoint strip_last_hyphen (s : string) : string :=
  match s with
  | EmptyString => EmptyString
  | String c EmptyString => if is_hyphen c then EmptyString else s
  | String c r => String c (strip_last_hyphen r)
  end.

(** [.replace(/(^-|-$)/g, "")].  Matches do not overlap and are found from
    left to right: the first alternative can only match at index 0, the
    second one only at the last index of what is left. *)
Definition strip_edge_hyphens (s : string) : string :=
  strip_last_hyphen (strip_first_hyphen s).

(** Decimal rendering of a count or of an array index. *)
Definition nat_to_string (n : nat) : string :=
  NilEmpty.string_of_uint (Nat.to_uint n).

(** ** JavaScript values *)

(** What the embedding takes from the JavaScript engine without looking
    inside: the IEEE numbers of JSON with their truthiness ([0] is falsy),
    strict equality and [String(n)], and the collation of
    [String.prototype.localeCompare]. *)
Class Host : Type := {
  num : Type;
  num_truthy : num -> bool;
  num_eqb : num -> num -> bool;
  num_to_string : num -> string;
  localeCompare : string -> string -> Z
}.

Section Values.
Context {H : Host}.

#[warnings="-register-all"] Inductive value : Type :=
| VUndef
| VNull
| VBool (b : bool)
| VNum (n : num)
| VStr (s : string)
| VArr (l : list value)
| VObj (kvs : list (string * value)).

Definition props : Type := list (string * value).

Fixpoint lookup (k : string) (kvs : props) : option value :=
  match kvs with
  | [] => None
  | (k', v) :: r => if String.eqb k k' then Some v else lookup k r
  end.

Definition has_key (k : string) (kvs : props) : bool :=
  match lookup k kvs with Some _ => true | None => false end.

(** Defining a data property: an existing key keeps its place and takes the
    new value, a new key goes last.  (JavaScript enumerates integer-like
    keys first; the order of the keys is not read by the handlers.) *)
Fixpoint set_prop (k : string) (v : value) (kvs : props) : props :=
  match kvs with
  | [] => [(k, v)]
  | (k', v') :: r =>
      if String.eqb k k' then (k, v) :: r else (k', v') :: set_prop k v r
  end.

(** ToBoolean. *)
Definition truthy (v : value) : bool :=
  match v with
  | VUndef | VNull => false
  | VBool b => b
  | VNum n => num_truthy n
  | VStr s => negb (String.eqb s "")
  | VArr _ | VObj _ => true
  end.

(** [a || b] *)
Definition or_else (a b : value) : value := if truthy a then a else b.

Definition is_array (v : value) : bool :=
  match v with VArr _ => true | _ => false end.

(** [a === b].  Arrays and objects compare by identity; the operands the
    handlers compare are nodes of distinct JSON trees (the request body and
    the stored file, or two elements of the request's array), so two of
    them are never the same object. *)
Definition strict_eq (a b : value) : bool :=
  match a, b with
  | VUndef, VUndef => true
  | VNull, VNull => true
  | VBool x, VBool y => Bool.eqb x y
  | VNum x, VNum y => num_eqb x y
  | VStr x, VStr y => String.eqb x y
  | _, _ => false
  end.

(** [v.k] for the property names written in the source ([id], [name],
    [base], ..., [password], [recipes]): none of them is an index, [length]
    or a property of a built-in prototype, so only an object can have one.
    [prop] is the access on a value known not to be [null] or [undefined]. *)
Definition prop (k : string) (v : value) : value :=
  match v with
  | VObj kvs => match lookup k kvs with Some x => x | None => VUndef end
  | _ => VUndef
  end.

(** [v.k] in general: a TypeError on [null] and [undefined]. *)
Definition get_field (k : string) (v : value) : exc value :=
  match v with
  | VUndef | VNull => Throw
  | _ => Ok (prop k v)
  end.

(** [p[i]] on an array. *)
Definition index (i : nat) (l : list value) : value := nth i l VUndef.

(** [String(v)] (ToString).  An array joins its elements with commas,
    [null] and [undefined] elements giving the empty string.  A JSON object
    gives "[object Object]" through [Object.prototype.toString], unless it
    has an own property [toString]: its value is not callable, [valueOf]
    yields no primitive either, and the conversion raises a TypeError. *)
Fixpoint to_string (v : value) : exc string :=
  match v with
  | VUndef => Ok "undefined"
  | VNull => Ok "null"
  | VBool b => Ok (if b then "true" else "false")
  | VNum n => Ok (num_to_string n)
  | VStr s => Ok s
  | VArr l =>
      (fix join (first : bool) (l : list value) : exc string :=
         match l with
         | [] => Ok ""
         | x :: r =>
             sx <- match x with
                   | VUndef | VNull => Ok ""
                   | _ => to_string x
                   end ;;
             sr <- join false r ;;
             Ok ((if first then "" else ",") ++ sx ++ sr)%string
         end) true l
  | VObj kvs => if has_key "toString" kvs then Throw else Ok "[object Object]"
  end.

Fixpoint string_chars (s : string) : list value :=
  match s with
  | EmptyString => []
  | String c r => VStr (String c EmptyString) :: string_chars r
  end.

Fixpoint indexed (i : nat) (l : list value) : props :=
  match l with
  | [] => []
  | x :: r => (nat_to_string i, x) :: indexed (S i) r
  end.

(** The own enumerable properties copied by a spread [...v] in an object
    literal. *)
Definition own_props (v : value) : props :=
  match v with
  | VObj kvs => kvs
  | VArr l => indexed 0 l
  | VStr s => indexed 0 (string_chars s)
  | _ => []
  end.

(** [{ ...a, ...b }]: a fresh object receives the properties of [a], then
    those of [b]. *)
Definition spread2 (a b : value) : value :=
  VObj (fold_left (fun o kv => set_prop (fst kv) (snd kv) o)
                  (own_props a ++ own_props b) []).

(** [list.findIndex(pred)]: [None] stands for the result [-1]. *)
Fixpoint findIndex (pred : value -> exc bool) (l : list value)
  : exc (option nat) :=
  match l with
  | [] => Ok None
  | x :: r =>
      b <- pred x ;;
      if b then Ok (Some 0)
      else (i <- findIndex pred r ;; Ok (option_map S i))
  end.

(** [list[idx] = v] for an index inside the list. *)
Fixpoint replace_at (i : nat) (v : value) (l : list value) : list value :=
  match l, i with
  | [], _ => []
  | _ :: r, O => v :: r
  | x :: r, S j => x :: replace_at j v r
  end.

(** The comparator [(a, b) => (a.name || "").localeCompare(b.name || "")].
    The method exists on strings only: for any other truthy [a.name] the
    call raises a TypeError. *)
Definition compare_names (a b : value) : exc Z :=
  an <- get_field "name" a ;;
  bn <- get_field "name" b ;;
  match or_else an (VStr "") with
  | VStr sa =>
      sb <- to_string (or_else bn (VStr "")) ;;
      Ok (localeCompare sa sb)
  | _ => Throw
  end.

(** [Array.prototype.sort] is stable; which pairs it hands to the
    comparator is left to the engine.  The model inserts the elements one
    by one, each behind the elements that do not compare greater; like
    every engine it does not call the comparator on fewer than two
    elements, and it returns a permutation. *)
Fixpoint sort_insert (x : value) (sorted : list value) : exc (list value) :=
  match sorted with
  | [] => Ok [x]
  | y :: r =>
      c <- compare_names x y ;;
      if (c <? 0)%Z then Ok (x :: sorted)
      else (r' <- sort_insert x r ;; Ok (y :: r'))
  end.

Definition sort_by_name (l : list value) : exc (list value) :=
  fold_left (fun acc x => sorted <- acc ;; sort_insert x sorted) l (Ok []).

(** ** The world around a handler *)

(** [process.env]: an unset variable is [undefined]. *)
Record environment : Type := {
  ADMIN_PASSWORD : option string;
  ALLOWED_ORIGIN : option string;
  GH_OWNER : option string;
  GH_REPO : option string;
  GH_FILE : option string;
  GH_BRANCH : option string;
  GH_TOKEN : option string
}.

(** [process.env.X || d] *)
Definition env_or (x : option string) (d : string) : string :=
  match x with
  | Some s => if String.eqb s "" then d else s
  | None => d
  end.

(** [!process.env.X] *)
Definition env_missing (x : option string) : bool :=
  String.eqb (env_or x "") "".

Record request : Type := {
  method : string;
  origin : option string;   (* req.headers.origin *)
  body : value              (* req.body, [VUndef] when there is none *)
}.

(** The JSON document sent with [res.status(..).json(..)], or nothing for
    [res.status(..).end()]. *)
Inductive payload : Type :=
| NoBody
| Error (code : string) (detail : option string)
| Saved (count : nat) (ids : list value)   (* { ok: true, count, ids } *)
| SavedOne (id : string).                  (* { ok: true, id } *)

Record response : Type := {
  status : Z;
  allow_origin : string;   (* Access-Control-Allow-Origin *)
  sent : payload
}.

(** The answer of the store to the read of the file: status 200 with the
    blob's [sha] and its content, of which the model keeps what
    [JSON.parse] makes of it ([None] when it raises); status 404; or any
    other status, with the text of the answer.  The store always answers:
    a [fetch] that fails on the network is left out. *)
Inductive fetched : Type :=
| Found (sha : string) (parsed : option value)
| NotFound
| ReadError (text : string).

Record store : Type := {
  on_get : fetched;
  put_status : Z;
  put_text : string
}.

(** The JSON body of the commit request; [commit_sha] is absent when the
    property [sha] is not put in the object. *)
Record put_body : Type := {
  message : string;
  content : list value;
  branch : string;
  commit_sha : option string
}.

(** The requests made to the store, in the order they are issued. *)
Inductive store_op : Type :=
| GET (owner repo path ref : string)
| PUT (owner repo path : string) (b : put_body).

Definition is_put (o : store_op) : bool :=
  match o with PUT _ _ _ _ => true | GET _ _ _ _ => false end.

Definition is_get (o : store_op) : bool := negb (is_put o).

(** [!password || password !== process.env.ADMIN_PASSWORD], negated. *)
Definition authorized (password : value) (secret : option string) : bool :=
  truthy password &&
  match secret with
  | Some s => strict_eq password (VStr s)
  | None => strict_eq password VUndef
  end.

(** [req.body || {}] *)
Definition request_body (req : request) : value :=
  or_else (body req) (VObj []).

(** The [password] taken from the body by destructuring. *)
Definition supplied_password (req : request) : value :=
  prop "password" (request_body req).

(** [!owner || !repo || !token] *)
Definition github_config_missing (e : environment) : bool :=
  env_missing (GH_OWNER e) || env_missing (GH_REPO e) || env_missing (GH_TOKEN e).

(** [sha ? { sha } : {}] *)
Definition sha_property (sha : option string) : option string :=
  match sha with
  | Some s => if String.eqb s "" then None else Some s
  | None => None
  end.

End Values.

Arguments value : clear implicits.
Arguments value {H}.

(** ** The batch handler *)

Module Batch.
Section Handler.
Context {H : Host}.

(** The method chain of [slug] on the string [String(s || "")]. *)
Definition slug_chain (str : string) : string :=
  strip_edge_hyphens (replace_runs false (trim (toLowerCase str))).

(** [[
    const slug = (s) => String(s || "")
      .toLowerCase().trim()
      .replace(/[^a-z0-9]+/g, "-")
      .replace(/(^-|-$)/g, "");
    ]] *)
Definition slug (s : value) : exc string :=
  str <- to_string (or_else s (VStr "")) ;;
  Ok (slug_chain str).

(** The callback of [r.ingredients.map]. *)
Definition normalize_ingredient (p : value) : exc value :=
  match p with
  | VArr l =>
      Ok (VArr [or_else (index 0 l) (VStr ""); or_else (index 1 l) (VStr "")])
  | VObj _ =>
      Ok (VArr [or_else (prop "amount" p) (VStr "");
                or_else (prop "item" p) (VStr "")])
  | _ =>
      str <- to_string (or_else p (VStr "")) ;;
      Ok (VArr [VStr ""; VStr str])
  end.

(** The callback of [(r.base || []).map]. *)
Definition lower_string (b : value) : exc value :=
  str <- to_string b ;;
  Ok (VStr (toLowerCase str)).

(** [x.map(f)] on a value that need not be an array: anything else has no
    callable [map]. *)
Definition map_value (f : value -> exc value) (x : value) : exc value :=
  match x with
  | VArr l => l' <- map_exc f l ;; Ok (VArr l')
  | _ => Throw
  end.

(** [Array.isArray(x) ? x : (x ? [x] : [])] *)
Definition as_array (x : value) : value :=
  if is_array x then x else if truthy x then VArr [x] else VArr [].

Definition normalize (r : value) : exc value :=
  rprofile <- get_field "profile" r ;;
  let profileArr := as_array rprofile in
  ringredients <- get_field "ingredients" r ;;
  ingredientsArr <- (if is_array ringredients
                     then map_value normalize_ingredient ringredients
                     else Ok (VArr [])) ;;
  rid <- get_field "id" r ;;
  id <- (if truthy rid then Ok rid
         else (s <- slug (prop "name" r) ;; Ok (VStr s))) ;;
  base <- map_value lower_string (or_else (prop "base" r) (VArr [])) ;;
  Ok (VObj [("id", id);
            ("name", prop "name" r);
            ("base", base);
            ("profile", profileArr);
            ("sweetness", or_else (prop "sweetness" r) (VStr "balanced"));
            ("ingredients", ingredientsArr);
            ("method", or_else (prop "method" r) (VStr ""));
            ("glass", or_else (prop "glass" r) (VStr ""));
            ("garnish", or_else (prop "garnish" r) (VStr ""));
            ("tags", as_array (prop "tags" r))]).

(** [const findId = (x) => (x.id || slug(x.name || ""))] *)
Definition findId (x : value) : exc value :=
  xid <- get_field "id" x ;;
  if truthy xid then Ok xid
  else (s <- slug (or_else (prop "name" x) (VStr "")) ;; Ok (VStr s)).

(** The variables the loop updates. *)
Record loop_state : Type := {
  list_ : list value;
  upserted : nat;
  upsertIds : list value
}.

(** One turn of [for (const raw of incoming)] past the [continue]. *)
Definition upsert (raw : value) (st : loop_state) : exc loop_state :=
  n <- normalize raw ;;
  idx <- findIndex (fun x => fid <- findId x ;; Ok (strict_eq fid (prop "id" n)))
                   (list_ st) ;;
  Ok {| list_ := match idx with
                 | Some i =>
                     replace_at i (spread2 (nth i (list_ st) VUndef) n) (list_ st)
                 | None => list_ st ++ [n]
                 end;
        upserted := S (upserted st);
        upsertIds := upsertIds st ++ [prop "id" n] |}.

(** [!raw || !raw.name], negated. *)
Definition usable (raw : value) : bool :=
  truthy raw && truthy (prop "name" raw).

Fixpoint upsert_loop (incoming : list value) (st : loop_state)
  : exc loop_state :=
  match incoming with
  | [] => Ok st
  | raw :: rest =>
      if usable raw
      then (st' <- upsert raw st ;; upsert_loop rest st')
      else upsert_loop rest st
  end.

(** [incoming[0]?.name] *)
Definition first_name (incoming : list value) : value :=
  match incoming with
  | [] | VUndef :: _ | VNull :: _ => VUndef
  | x :: _ => prop "name" x
  end.

Definition commit_message (incoming : list value) (n : nat) : exc string :=
  if (n =? 1)%nat
  then (nm <- to_string (or_else (first_name incoming) (VStr "1 item")) ;;
        Ok ("Upsert recipe: " ++ nm)%string)
  else Ok ("Upsert " ++ nat_to_string n ++ " recipes")%string.

(** The input list: [recipes] when it is an array, else [[recipe]] when
    [recipe] is truthy, else nothing. *)
Definition incoming_of (recipe recipes : value) : list value :=
  match recipes with
  | VArr l => l
  | _ => if truthy recipe then [recipe] else []
  end.

(** The collection read from the store. *)
Definition existing (f : fetched) : list value :=
  match f with
  | Found _ (Some (VArr l)) => l
  | _ => []
  end.

Definition fetched_sha (f : fetched) : option string :=
  match f with
  | Found sha _ => Some sha
  | _ => None
  end.

Definition respond (allowed : string) (st : Z) (p : payload) : response :=
  {| status := st; allow_origin := env_or (Some allowed) "*"; sent := p |}.

(** The body of the [try] block once the request is authorized and has
    inputs and the GitHub settings are there.  The result is the response
    with the requests made to the store. *)
Definition read_merge_write (allowed owner repo path br : string)
    (w : store) (incoming : list value) : response * list store_op :=
  let get := GET owner repo path br in
  match on_get w with
  | ReadError text =>
      (respond allowed 500 (Error "github-read-failed" (Some text)), [get])
  | f =>
      match
        (st <- upsert_loop incoming
                 {| list_ := existing f; upserted := 0; upsertIds := [] |} ;;
         sorted <- sort_by_name (list_ st) ;;
         msg <- commit_message incoming (upserted st) ;;
         Ok (st, sorted, msg))
      with
      | Throw => (respond allowed 500 (Error "server-error" None), [get])
      | Ok (st, sorted, msg) =>
          let put := PUT owner repo path
                       {| message := msg; content := sorted; branch := br;
                          commit_sha := sha_property (fetched_sha f) |} in
          if ((put_status w <? 200) || (300 <=? put_status w))%Z
          then (respond allowed 500
                  (Error "github-write-failed" (Some (put_text w))),
                [get; put])
          else (respond allowed 200 (Saved (upserted st) (upsertIds st)),
                [get; put])
      end
  end.

(** [allowed && origin && origin !== allowed] *)
Definition forbidden_origin (e : environment) (req : request) : bool :=
  let origin_ := env_or (origin req) "" in
  let allowed := env_or (ALLOWED_ORIGIN e) "" in
  negb (String.eqb allowed "") && negb (String.eqb origin_ "")
  && negb (String.eqb origin_ allowed).

(** The list [incoming] of a request. *)
Definition incoming (req : request) : list value :=
  incoming_of (prop "recipe" (request_body req))
              (prop "recipes" (request_body req)).

Definition handler (e : environment) (w : store) (req : request)
  : response * list store_op :=
  let allowed := env_or (ALLOWED_ORIGIN e) "" in
  if String.eqb (method req) "OPTIONS" then (respond allowed 200 NoBody, [])
  else if negb (String.eqb (method req) "POST")
  then (respond allowed 405 (Error "method-not-allowed" None), [])
  else if forbidden_origin e req
  then (respond allowed 403 (Error "forbidden-origin" None), [])
  else if negb (authorized (supplied_password req) (ADMIN_PASSWORD e))
  then (respond allowed 401 (Error "unauthorized" None), [])
  else
    match incoming req with
    | [] => (respond allowed 400 (Error "no-recipes" None), [])
    | _ =>
        if github_config_missing e
        then (respond allowed 500 (Error "missing-github-config" None), [])
        else read_merge_write allowed
               (env_or (GH_OWNER e) "") (env_or (GH_REPO e) "")
               (env_or (GH_FILE e) "custom-recipes.json")
               (env_or (GH_BRANCH e) "main") w (incoming req)
    end.

End Handler.
End Batch.

(** ** The single-recipe handler, [api/save-recipe.js] *)

Module Single.
Section Handler.
Context {H : Host}.

Definition slugify_chain (str : string) : string :=
  strip_edge_hyphens (replace_runs false (toLowerCase str)).

(** [[
    function slugify(s){ return String(s).toLowerCase()
      .replace(/[^a-z0-9]+/g,'-').replace(/(^-|-$)/g,''); }
    ]] *)
Definition slugify (s : value) : exc string :=
  str <- to_string s ;;
  Ok (slugify_chain str).

(** [p => Array.isArray(p) ? p : [p.amount||"", p.item||""]] *)
Definition ingredient_pair (p : value) : exc value :=
  if is_array p then Ok p
  else
    amount <- get_field "amount" p ;;
    item <- get_field "item" p ;;
    Ok (VArr [or_else amount (VStr ""); or_else item (VStr "")]).

(** The object literal [normalized], given the constant [slug]. *)
Definition normalized (slug : string) (recipe : value) : exc value :=
  base <- Batch.map_value Batch.lower_string
            (or_else (prop "base" recipe) (VArr [])) ;;
  ingredients <- Batch.map_value ingredient_pair
                   (or_else (prop "ingredients" recipe) (VArr [])) ;;
  Ok (VObj [("id", VStr slug);
            ("name", prop "name" recipe);
            ("base", base);
            ("profile", Batch.as_array (prop "profile" recipe));
            ("sweetness", or_else (prop "sweetness" recipe) (VStr "balanced"));
            ("ingredients", ingredients);
            ("method", or_else (prop "method" recipe) (VStr ""));
            ("glass", or_else (prop "glass" recipe) (VStr ""));
            ("garnish", or_else (prop "garnish" recipe) (VStr ""));
            ("tags", or_else (prop "tags" recipe) (VArr []))]).

(** [const slug = slugify(recipe.name); const normalized = { id: slug, ... }]
    as a function of the submitted [recipe]. *)
Definition normalize (recipe : value) : exc (string * value) :=
  slug <- slugify (prop "name" recipe) ;;
  n <- normalized slug recipe ;;
  Ok (slug, n).

(** [r => (r.id || slugify(r.name || "")) === slug] *)
Definition same_id (slug : string) (r : value) : exc bool :=
  rid <- get_field "id" r ;;
  fid <- (if truthy rid then Ok rid
          else (s <- slugify (or_else (prop "name" r) (VStr "")) ;;
                Ok (VStr s))) ;;
  Ok (strict_eq fid (VStr slug)).

(** The upsert of the normalized record [n], whose id is [slug]: the new
    list and whether a record was found. *)
Definition upsert (slug : string) (n : value) (l : list value)
  : exc (list value * bool) :=
  idx <- findIndex (same_id slug) l ;;
  Ok match idx with
     | Some i => (replace_at i (spread2 (nth i l VUndef) n) l, true)
     | None => (l ++ [n], false)
     end.

(** [list = JSON.parse(content); if (!Array.isArray(list)) list = []],
    and [list = []] after a 404. *)
Definition existing (f : fetched) : list value :=
  match f with
  | Found _ (Some (VArr l)) => l
  | _ => []
  end.

Definition respond (st : Z) (p : payload) : response :=
  {| status := st; allow_origin := "*"; sent := p |}.

Definition read_merge_write (owner repo path br : string) (w : store)
    (slug : string) (n : value) : response * list store_op :=
  let get := GET owner repo path br in
  match on_get w with
  | ReadError text =>
      (respond 500 (Error "github-read-failed" (Some text)), [get])
  | f =>
      match
        (r <- upsert slug n (existing f) ;;
         sorted <- sort_by_name (fst r) ;;
         nm <- to_string (prop "name" n) ;;
         Ok (sorted,
             ((if snd r then "Update recipe: " else "Add recipe: ") ++ nm)%string))
      with
      | Throw => (respond 500 (Error "server-error" None), [get])
      | Ok (sorted, msg) =>
          let put := PUT owner repo path
                       {| message := msg; content := sorted; branch := br;
                          commit_sha := sha_property (Batch.fetched_sha f) |} in
          if ((200 <=? put_status w) && (put_status w <? 300))%Z
          then (respond 200 (SavedOne slug), [get; put])
          else (respond 500
                  (Error "github-write-failed" (Some (put_text w))),
                [get; put])
      end
  end.

Definition handler (e : environment) (w : store) (req : request)
  : response * list store_op :=
  if String.eqb (method req) "OPTIONS" then (respond 200 NoBody, [])
  else if negb (String.eqb (method req) "POST")
  then (respond 405 (Error "method-not-allowed" None), [])
  else
    let recipe := prop "recipe" (request_body req) in
    if negb (authorized (supplied_password req) (ADMIN_PASSWORD e))
    then (respond 401 (Error "unauthorized" None), [])
    else if negb (truthy recipe) || negb (truthy (prop "name" recipe))
    then (respond 400 (Error "bad-recipe" None), [])
    else
      match normalize recipe with
      | Throw => (respond 500 (Error "server-error" None), [])
      | Ok (slug, n) =>
          if github_config_missing e
          then (respond 500 (Error "missing-github-config" None), [])
          else read_merge_write
                 (env_or (GH_OWNER e) "") (env_or (GH_REPO e) "")
                 (env_or (GH_FILE e) "custom-recipes.json")
                 (env_or (GH_BRANCH e) "main") w slug n
      end.

End Handler.
End Single.

(** ** A concrete host for running the handlers

    Integers stand for the numbers, and strings are collated by code unit. *)

Definition compare_code_units (a b : string) : Z :=
  match String.compare a b with
  | Lt => (-1)%Z
  | Eq => 0%Z
  | Gt => 1%Z
  end.

Definition sample_host : Host := {|
  num := Z;
  num_truthy := fun z => negb (Z.eqb z 0);
  num_eqb := Z.eqb;
  num_to_string := fun z =>
    if (z <? 0)%Z
    then ("-" ++ nat_to_string (Z.to_nat (Z.opp z)))%string
    else nat_to_string (Z.to_nat z);
  localeCompare := compare_code_units
|}.

(** ** The slug as the specification describes it

    "[slug] lowercases, trims, collapses runs of non-alphanumeric characters
    to a single hyphen, and strips leading/trailing hyphens."  This second
    definition follows those words; it is compared below with the two
    functions of the source. *)

(** A run of non-alphanumeric characters gives its hyphen at its last
    character. *)
Fixpoint collapse_runs (s : string) : string :=
  match s with
  | EmptyString => EmptyString
  | String c r =>
      if is_alnum c then String c (collapse_runs r)
      else match r with
           | EmptyString => String "-" EmptyString
           | String d _ =>
               if is_alnum d then String "-" (collapse_runs r)
               else collapse_runs r
           end
  end.

Fixpoint drop_leading_hyphens (s : string) : string :=
  match s with
  | EmptyString => EmptyString
  | String c r => if is_hyphen c then drop_leading_hyphens r else s
  end.

Fixpoint drop_trailing_hyphens (s : string) : string :=
  match s with
  | EmptyString => EmptyString
  | String c r =>
      match drop_trailing_hyphens r with
      | EmptyString => if is_hyphen c then EmptyString else String c EmptyString
      | r' => String c r'
      end
  end.

(** The string does not begin with a hyphen. *)
Definition no_leading_hyphen (t : string) : Prop :=
  match t with
  | EmptyString => True
  | String c _ => is_hyphen c = false
  end.

Definition slug_described (s : string) : string :=
  drop_trailing_hyphens
    (drop_leading_hyphens (collapse_runs (trim (toLowerCase s)))).

(** ** Identity of the stored records *)

Section Identity.
Context {H : Host}.

(** The record [x] of the collection is the one the batch handler finds
    for the id [s]. *)
Definition has_id (s : string) (x : value) : bool :=
  match Batch.findId x with
  | Ok v => strict_eq v (VStr s)
  | Throw => false
  end.

Definition count_id (s : string) (l : list value) : nat :=
  length (filter (has_id s) l).

(** The predicate handed to [findIndex] for the normalized record [n]. *)
Definition matches (n x : value) : exc bool :=
  fid <- Batch.findId x ;; Ok (strict_eq fid (prop "id" n)).

(** The start of the loop: the collection read from the store, nothing
    upserted yet. *)
Definition loop_start (w : store) : Batch.loop_state :=
  {| Batch.list_ := Batch.existing (on_get w);
     Batch.upserted := 0;
     Batch.upsertIds := [] |}.

(** The minimal input [{ name: s }]. *)
Definition named_only (s : string) : value := VObj [("name", VStr s)].

(** The fields of a normalized record. *)
Definition record_fields : list string :=
  ["id"; "name"; "base"; "profile"; "sweetness"; "ingredients"; "method";
   "glass"; "garnish"; "tags"].

(** A normalized record has the ten fields, once each. *)
Definition is_record (n : value) : Prop :=
  exists kvs, n = VObj kvs /\ map fst kvs = record_fields.

(** The input [raw] is processed by the loop and normalized with the id
    [s]. *)
Definition submits_id (s : string) (raw : value) : bool :=
  Batch.usable raw &&
  match Batch.normalize raw with
  | Ok n => strict_eq (prop "id" n) (VStr s)
  | Throw => false
  end.

(** The values the normalizer gives to the fields an input leaves out. *)
Definition has_defaults (m : value) : Prop :=
  prop "sweetness" m = VStr "balanced" /\
  prop "ingredients" m = VArr [] /\
  prop "base" m = VArr [] /\
  prop "profile" m = VArr [] /\
  prop "tags" m = VArr [] /\
  prop "method" m = VStr "" /\
  prop "glass" m = VStr "" /\
  prop "garnish" m = VStr "".

(** The record of the collection has the derived id [s]: the test of the
    batch handler's [findIndex]. *)
Definition derives_id (s : string) (x : value) : exc bool :=
  fid <- Batch.findId x ;; Ok (strict_eq fid (VStr s)).

End Identity.

(** ** Sample data *)

Module Samples.
#[local] Existing Instance sample_host.

Definition str_pair (a b : string) : value := VArr [VStr a; VStr b].

(** A fully populated stored record. *)
Definition stored_martini : value :=
  VObj [("id", VStr "martini");
        ("name", VStr "Martini");
        ("base", VArr [VStr "gin"]);
        ("profile", VArr [VStr "dry"; VStr "boozy"]);
        ("sweetness", VStr "dry");
        ("ingredients", VArr [str_pair "2 oz" "Gin"; str_pair "1/2 oz" "Dry vermouth"]);
        ("method", VStr "Stir with ice, strain.");
        ("glass", VStr "coupe");
        ("garnish", VStr "lemon twist");
        ("tags", VArr [VStr "classic"]);
        ("rating", VNum 5%Z)].

(** [{ name: "Martini" }] *)
Definition minimal_martini : value := VObj [("name", VStr "Martini")].

(** The loop about to process its inputs on a collection [l]. *)
Definition loop_on (l : list value) : Batch.loop_state :=
  {| Batch.list_ := l; Batch.upserted := 0; Batch.upsertIds := [] |}.

(** A submission in the loose input forms. *)
Definition raw_gimlet : value :=
  VObj [("name", VStr "Gimlet");
        ("base", VArr [VStr "Gin"]);
        ("profile", VStr "sour");
        ("ingredients",
         VArr [str_pair "2 oz" "Gin";
               VObj [("amount", VStr "3/4 oz"); ("item", VStr "Lime cordial")];
               VStr "Lime wheel"]);
        ("tags", VStr "classic")].

(** A submission that brings its own id. *)
Definition raw_house_martini : value :=
  VObj [("id", VStr "house-martini"); ("name", VStr "Martini")].

Definition dry_martini_1 : value :=
  VObj [("name", VStr "Dry Martini"); ("glass", VStr "coupe")].

Definition dry_martini_2 : value :=
  VObj [("name", VStr "Dry, Martini!"); ("glass", VStr "rocks")].

Definition env : environment :=
  {| ADMIN_PASSWORD := Some "s3cret";
     ALLOWED_ORIGIN := None;
     GH_OWNER := Some "owner";
     GH_REPO := Some "pages";
     GH_FILE := None;
     GH_BRANCH := None;
     GH_TOKEN := Some "token" |}.

Definition post (b : value) : request :=
  {| method := "POST"; origin := None; body := b |}.

(** The body [{ password, recipes }]. *)
Definition batch_body (password : string) (recipes : list value) : value :=
  VObj [("password", VStr password); ("recipes", VArr recipes)].

(** The body [{ password, recipe }]. *)
Definition single_body (password : string) (recipe : value) : value :=
  VObj [("password", VStr password); ("recipe", recipe)].

(** Requests with a wrong password, and a preflight. *)
Definition wrong_password_post : request :=
  post (batch_body "guess" [minimal_martini]).

Definition wrong_password_get : request :=
  {| method := "GET"; origin := None; body := batch_body "guess" [] |}.

Definition preflight : request :=
  {| method := "OPTIONS"; origin := None; body := VUndef |}.

(** A batch in which no element is usable, and a [recipe] without name. *)
Definition unusable_batch : request :=
  post (batch_body "s3cret" [VObj []; VNull]).

Definition nameless_recipe : request :=
  post (single_body "s3cret" (VObj [("glass", VStr "coupe")])).

(** A valid [recipe] next to an empty [recipes] array. *)
Definition recipe_and_empty_recipes : request :=
  post (VObj [("password", VStr "s3cret");
              ("recipe", minimal_martini);
              ("recipes", VArr [])]).

(** Two usable inputs around two unusable ones, not in name order. *)
Definition mixed_batch : request :=
  post (batch_body "s3cret"
          [minimal_martini; VObj [("glass", VStr "coupe")]; VNull; raw_gimlet]).

(** A store without the file yet, and one that holds a collection. *)
Definition empty_store : store :=
  {| on_get := NotFound; put_status := 201; put_text := "" |}.

Definition store_with (l : list value) : store :=
  {| on_get := Found "3f1a9c" (Some (VArr l)); put_status := 200; put_text := "" |}.

End Samples.

(** ** Shapes of slugs and of normalized records *)

(** The rest of a slug behind a letter or digit: letters and digits, and
    single hyphens each followed by a letter or digit. *)
Fixpoint slug_tail (s : string) : bool :=
  match s with
  | EmptyString => true
  | String c r =>
      if is_alnum c then slug_tail r
      else is_hyphen c &&
           match r with
           | EmptyString => false
           | String d _ => is_alnum d && slug_tail r
           end
  end.

(** A string in slug form: only a-z, 0-9 and hyphens, no hyphen at either
    end, no two hyphens in a row.  The empty string is one. *)
Definition is_slug (s : string) : bool :=
  slug_tail s &&
  match s with
  | EmptyString => true
  | String c _ => negb (is_hyphen c)
  end.

(** Some character of the string satisfies [p]. *)
Fixpoint some_char (p : ascii -> bool) (s : string) : bool :=
  match s with
  | EmptyString => false
  | String c r => p c || some_char p r
  end.

Section Shapes.
Context {H : Host}.

(** Values whose conversion to a string runs no code of theirs. *)
Definition primitive (v : value) : bool :=
  match v with
  | VArr _ | VObj _ => false
  | _ => true
  end.

(** An array all of whose elements satisfy [p]. *)
Definition array_of (p : value -> bool) (v : value) : bool :=
  match v with
  | VArr l => forallb p l
  | _ => false
  end.

Definition is_lower_string (v : value) : bool :=
  match v with
  | VStr s => String.eqb (toLowerCase s) s
  | _ => false
  end.

(** A string, or any truthy value, as [x || ""] leaves it. *)
Definition truthy_or_empty (v : value) : bool :=
  truthy v || strict_eq v (VStr "").

(** A two-element array [[amount, item]]. *)
Definition is_pair (v : value) : bool :=
  match v with
  | VArr [a; b] => truthy_or_empty a && truthy_or_empty b
  | _ => false
  end.

(** An ingredient both handlers take as it is: an object, or a pair whose
    members are truthy or empty strings. *)
Definition plain_ingredient (p : value) : bool :=
  match p with
  | VObj _ => true
  | _ => is_pair p
  end.

End Shapes.

(** ** More sample data *)

Module Fixtures.
#[local] Existing Instance sample_host.

(** [{ name: "!!!" }] *)
Definition punctuation_only : value := VObj [("name", VStr "!!!")].

(** A recipe whose [base] is a string instead of an array. *)
Definition base_as_string : value :=
  VObj [("name", VStr "Negroni"); ("base", VStr "gin")].

(** A stored record written by hand, without [id]. *)
Definition stored_negroni : value :=
  VObj [("name", VStr "Negroni"); ("glass", VStr "rocks")].

Definition negroni : value :=
  VObj [("name", VStr "Negroni"); ("base", VArr [VStr "Gin"; VStr "Campari"])].

Definition env_with_allowlist : environment :=
  {| ADMIN_PASSWORD := Some "s3cret";
     ALLOWED_ORIGIN := Some "https://bar.example";
     GH_OWNER := Some "owner";
     GH_REPO := Some "pages";
     GH_FILE := Some "recipes.json";
     GH_BRANCH := Some "gh-pages";
     GH_TOKEN := Some "token" |}.

Definition env_without_token : environment :=
  {| ADMIN_PASSWORD := Some "s3cret";
     ALLOWED_ORIGIN := None;
     GH_OWNER := Some "owner";
     GH_REPO := Some "pages";
     GH_FILE := None;
     GH_BRANCH := None;
     GH_TOKEN := None |}.

(** A POST from another origin than the allowed one. *)
Definition foreign_post : request :=
  {| method := "POST"; origin := Some "https://evil.example";
     body := Samples.single_body "s3cret" Samples.minimal_martini |}.

Definition delete_request : request :=
  {| method := "DELETE"; origin := None;
     body := Samples.single_body "s3cret" Samples.minimal_martini |}.

Definition post_negroni : request :=
  Samples.post (Samples.single_body "s3cret" negroni).

Definition post_batch (l : list value) : request :=
  Samples.post (Samples.batch_body "s3cret" l).

(** Stores: a failing read, a refused write, a file that is no array. *)
Definition failing_read : store :=
  {| on_get := ReadError "Bad credentials"; put_status := 200; put_text := "" |}.

Definition conflicting_write (l : list value) : store :=
  {| on_get := Found "3f1a9c" (Some (VArr l)); put_status := 409;
     put_text := "sha does not match" |}.


(** A recipe in the plain form: pairs and objects as ingredients, an array
    of tags, no id. *)
Definition plain_daiquiri : value :=
  VObj [("name", VStr "Daiquiri");
        ("base", VArr [VStr "Rum"]);
        ("ingredients",
         VArr [Samples.str_pair "2 oz" "Rum";
               VObj [("amount", VStr "1 oz"); ("item", VStr "Lime juice")]]);
        ("tags", VArr [VStr "classic"; VStr "sour"])].

(** A stored collection of objects with string names. *)
Definition cellar : list value :=
  [Samples.stored_martini; stored_negroni].

End Fixtures.

(** ** The requests made to the store *)

(** A status from 200 to 299. *)
Definition in_2xx (st : Z) : bool := ((200 <=? st) && (st <? 300))%Z.

(** The requests a handler may make with the settings [e]: none, the read
    of the file alone, or the read followed by one commit to the same file
    of the same repository, on the branch that was read. *)
Definition read_then_write {H : Host} (e : environment) (ops : list store_op)
  : Prop :=
  let owner := env_or (GH_OWNER e) "" in
  let repo := env_or (GH_REPO e) "" in
  let path := env_or (GH_FILE e) "custom-recipes.json" in
  let br := env_or (GH_BRANCH e) "main" in
  ops = [] \/
  ops = [GET owner repo path br] \/
  exists msg (sorted : list value) sha,
    ops = [GET owner repo path br;
           PUT owner repo path
             {| message := msg; content := sorted; branch := br;
                commit_sha := sha |}].

(** ** Records and inputs of a batch *)

Section Targets.
Context {H : Host}.

(** The input [raw] is processed by the loop and its normalized id is the
    derived id of the record [x]: the loop would merge it into [x]. *)
Definition targets (raw x : value) : bool :=
  Batch.usable raw &&
  match Batch.normalize raw with
  | Ok n => match matches n x with Ok b => b | Throw => false end
  | Throw => false
  end.

(** The string a record is sorted by: [String(x.name || "")]. *)
Definition name_key (x : value) : exc string :=
  nm <- get_field "name" x ;;
  to_string (or_else nm (VStr "")).

(** [b] does not come before [a] in the collation of the host. *)
Definition in_name_order (a b : value) : Prop :=
  exists ka kb,
    name_key a = Ok ka /\ name_key b = Ok kb /\ (0 <= localeCompare kb ka)%Z.


End Targets.


(** ** Well-formed collections and batches *)

Section WellFormed.
Context {H : Host}.

Definition is_string (v : value) : bool :=
  match v with VStr _ => true | _ => false end.

(** A stored record that is an object with a string as name. *)
Definition named_object (x : value) : bool :=
  match x with
  | VObj _ => is_string (prop "name" x)
  | _ => false
  end.

(** An input the loop skips, or one with a string as name that
    [normalize] accepts. *)
Definition well_formed_input (raw : value) : bool :=
  negb (Batch.usable raw) ||
  (is_string (prop "name" raw) &&
   match Batch.normalize raw with Ok _ => true | Throw => false end).

End WellFormed.

(** * Properties *)

(** ** Characters and strings *)

Ltac each_char c := destruct c as [[] [] [] [] [] [] [] []].

Lemma alnum_not_hyphen (c : ascii) : is_alnum c = true -> is_hyphen c = false.
Proof. each_char c; vm_compute; congruence. Qed.

Lemma space_not_alnum (c : ascii) : is_space c = true -> is_alnum c = false.
Proof. each_char c; vm_compute; congruence. Qed.

Lemma lower_char_idempotent (c : ascii) : lower_char (lower_char c) = lower_char c.
Proof. each_char c; vm_compute; reflexivity. Qed.

Lemma toLowerCase_idempotent (s : string) :
  toLowerCase (toLowerCase s) = toLowerCase s.
Proof.
  induction s as [|c r IH]; simpl; [reflexivity|].
  now rewrite lower_char_idempotent, IH.
Qed.

Lemma strip_last_cons (c : ascii) (t : string) :
  t <> EmptyString -> strip_last_hyphen (String c t) = String c (strip_last_hyphen t).
Proof. destruct t; [congruence | reflexivity]. Qed.

(** Inside a run, [replace_runs] does not begin with a hyphen. *)
Lemma replace_runs_true_head (s : string) : no_leading_hyphen (replace_runs true s).
Proof.
  induction s as [|c r IH]; simpl; [exact I|].
  destruct (is_alnum c) eqn:E; [|exact IH].
  simpl. now apply alnum_not_hyphen.
Qed.

Lemma replace_runs_false_nonempty (s : string) :
  s <> EmptyString -> replace_runs false s <> EmptyString.
Proof.
  destruct s as [|c r]; [congruence|]. intros _. simpl.
  destruct (is_alnum c); discriminate.
Qed.

(** Dropping the leading hyphen amounts to starting inside a run. *)
Lemma strip_first_replace_runs (s : string) :
  strip_first_hyphen (replace_runs false s) = replace_runs true s.
Proof.
  destruct s as [|c r]; [reflexivity|]. simpl.
  destruct (is_alnum c) eqn:E; [|reflexivity].
  simpl. now rewrite (alnum_not_hyphen _ E).
Qed.

Lemma replace_runs_trimStart (s : string) :
  replace_runs true (trimStart s) = replace_runs true s.
Proof.
  induction s as [|c r IH]; [reflexivity|]. simpl.
  destruct (is_space c) eqn:E; [|reflexivity].
  now rewrite (space_not_alnum _ E).
Qed.

Lemma trimEnd_empty (s : string) :
  trimEnd s = EmptyString ->
  replace_runs true s = EmptyString /\
  (replace_runs false s = EmptyString \/ replace_runs false s = "-").
Proof.
  induction s as [|c r IH]; simpl; [auto|].
  destruct (trimEnd r) eqn:Er; [|discriminate].
  destruct (is_space c) eqn:E; [|discriminate]. intros _.
  destruct (IH eq_refl) as [Ht _].
  rewrite (space_not_alnum _ E), Ht. auto.
Qed.

Lemma trimEnd_nonempty (s : string) :
  trimEnd s <> EmptyString -> s <> EmptyString.
Proof. destruct s; simpl; congruence. Qed.

Lemma strip_last_after_hyphen (t1 t2 : string) :
  no_leading_hyphen t1 -> no_leading_hyphen t2 ->
  strip_last_hyphen t1 = strip_last_hyphen t2 ->
  strip_last_hyphen (String "-" t1) = strip_last_hyphen (String "-" t2).
Proof.
  intros H1 H2 E.
  destruct t1 as [|a1 r1], t2 as [|a2 r2]; try reflexivity.
  - simpl in H2. simpl in E. destruct r2; [now rewrite H2 in E | discriminate].
  - simpl in H1. simpl in E. destruct r1; [now rewrite H1 in E | discriminate].
  - rewrite !strip_last_cons by discriminate. now rewrite E.
Qed.

(** Trailing white space is part of the last run anyway. *)
Lemma replace_runs_trimEnd (s : string) (b : bool) :
  strip_last_hyphen (replace_runs b (trimEnd s)) =
  strip_last_hyphen (replace_runs b s).
Proof.
  revert b. induction s as [|c r IH]; intro b; [reflexivity|].
  change (trimEnd (String c r)) with
    (match trimEnd r with
     | EmptyString => if is_space c then EmptyString else String c EmptyString
     | r' => String c r'
     end).
  destruct (trimEnd r) as [|d r'] eqn:Er.
  - destruct (trimEnd_empty r Er) as [Ht Hf].
    destruct (is_space c) eqn:Es.
    + simpl. rewrite (space_not_alnum _ Es), Ht. now destruct b.
    + simpl. destruct (is_alnum c) eqn:Ea.
      * destruct Hf as [-> | ->]; [reflexivity|].
        simpl. now rewrite (alnum_not_hyphen _ Ea).
      * rewrite Ht. reflexivity.
  - assert (Hr : r <> EmptyString) by (apply trimEnd_nonempty; congruence).
    assert (Ht : String d r' <> EmptyString) by discriminate.
    remember (String d r') as t eqn:Et. clear Et.
    cbn [replace_runs]. destruct (is_alnum c) eqn:Ea.
    + rewrite !strip_last_cons; [now rewrite IH | | ];
        apply replace_runs_false_nonempty; assumption.
    + destruct b; [apply IH|].
      apply strip_last_after_hyphen;
        [apply replace_runs_true_head | apply replace_runs_true_head | apply IH].
Qed.

(** [trim] makes no difference to the slug: [Single.slugify], which leaves
    it out, computes the same chain as [Batch.slug]. *)
Lemma slugify_chain_slug_chain (s : string) :
  Single.slugify_chain s = Batch.slug_chain s.
Proof.
  unfold Single.slugify_chain, Batch.slug_chain, strip_edge_hyphens, trim.
  rewrite !strip_first_replace_runs.
  now rewrite replace_runs_trimEnd, replace_runs_trimStart.
Qed.

(** The described collapse is the regular-expression replacement. *)
Lemma collapse_runs_replace_runs (s : string) :
  collapse_runs s = replace_runs false s /\
  forall c, is_alnum c = false ->
            collapse_runs (String c s) = String "-" (replace_runs true s).
Proof.
  induction s as [|d s [IH1 IH2]]; [split; [reflexivity|]|split].
  - intros c Hc. simpl. now rewrite Hc.
  - destruct (is_alnum d) eqn:Ed.
    + simpl. now rewrite Ed, IH1.
    + rewrite (IH2 d Ed). simpl. now rewrite Ed.
  - intros c Hc.
    change (collapse_runs (String c (String d s))) with
      (if is_alnum c then String c (collapse_runs (String d s))
       else if is_alnum d then String "-" (collapse_runs (String d s))
            else collapse_runs (String d s)).
    rewrite Hc. destruct (is_alnum d) eqn:Ed.
    + simpl. now rewrite Ed, IH1.
    + rewrite (IH2 d Ed). simpl. now rewrite Ed.
Qed.

Lemma drop_leading_none (t : string) :
  no_leading_hyphen t -> drop_leading_hyphens t = t.
Proof. destruct t as [|c r]; simpl; [reflexivity|]. now intros ->. Qed.

Lemma drop_leading_replace_runs (s : string) :
  drop_leading_hyphens (replace_runs false s) = replace_runs true s.
Proof.
  destruct s as [|c r]; [reflexivity|]. simpl.
  destruct (is_alnum c) eqn:E.
  - simpl. now rewrite (alnum_not_hyphen _ E).
  - simpl. apply drop_leading_none, replace_runs_true_head.
Qed.

Lemma drop_trailing_cons (c : ascii) (t : string) :
  is_hyphen c = false ->
  drop_trailing_hyphens (String c t) = String c (drop_trailing_hyphens t).
Proof. intros Hc. simpl. rewrite Hc. now destruct (drop_trailing_hyphens t). Qed.

Lemma drop_trailing_cons_nonempty (c : ascii) (t : string) :
  drop_trailing_hyphens t <> EmptyString ->
  drop_trailing_hyphens (String c t) = String c (drop_trailing_hyphens t).
Proof. simpl. destruct (drop_trailing_hyphens t); [congruence | reflexivity]. Qed.

Lemma strip_last_cons_other (c : ascii) (t : string) :
  is_hyphen c = false ->
  strip_last_hyphen (String c t) = String c (strip_last_hyphen t).
Proof. intros Hc. destruct t; simpl; [now rewrite Hc | reflexivity]. Qed.

(** After the collapse there is at most one hyphen to strip at the end. *)
Lemma drop_trailing_replace_runs (s : string) (b : bool) :
  drop_trailing_hyphens (replace_runs b s) = strip_last_hyphen (replace_runs b s).
Proof.
  revert b. induction s as [|c r IH]; intro b; [reflexivity|].
  cbn [replace_runs]. destruct (is_alnum c) eqn:Ea.
  - rewrite drop_trailing_cons, strip_last_cons_other
      by now apply alnum_not_hyphen.
    now rewrite IH.
  - destruct b; [apply IH|].
    specialize (IH true). pose proof (replace_runs_true_head r) as Hh.
    destruct (replace_runs true r) as [|a t]; [reflexivity|].
    simpl in Hh. rewrite strip_last_cons by discriminate. rewrite <- IH.
    apply drop_trailing_cons_nonempty.
    rewrite (drop_trailing_cons _ _ Hh). discriminate.
Qed.

Lemma slug_chain_described (s : string) : Batch.slug_chain s = slug_described s.
Proof.
  unfold Batch.slug_chain, slug_described, strip_edge_hyphens.
  rewrite (proj1 (collapse_runs_replace_runs _)).
  rewrite drop_leading_replace_runs, drop_trailing_replace_runs.
  now rewrite strip_first_replace_runs.
Qed.

(** ** Values and exceptions *)

Lemma bind_ok {A B : Type} (m : exc A) (k : A -> exc B) (b : B) :
  bind m k = Ok b -> exists a, m = Ok a /\ k a = Ok b.
Proof. destruct m as [a|]; simpl; [eauto | discriminate]. Qed.

Ltac bind_inv Hb :=
  let a := fresh "a" in
  let Ha := fresh "Ha" in
  apply bind_ok in Hb; destruct Hb as [a [Ha Hb]].

Lemma map_exc_fixed {A : Type} (f : A -> exc A) (l l' : list A) :
  (forall p q, f p = Ok q -> f q = Ok q) ->
  map_exc f l = Ok l' -> map_exc f l' = Ok l'.
Proof.
  intros Hf. revert l'. induction l as [|x r IH]; simpl; intros l' E.
  - now inversion E.
  - bind_inv E. bind_inv E. inversion E; subst. simpl.
    now rewrite (Hf _ _ Ha), (IH _ Ha0).
Qed.

Section ValueFacts.
Context {H : Host}.

Lemma get_field_ok (k : string) (v x : value) :
  get_field k v = Ok x -> x = prop k v /\ forall k', get_field k' v = Ok (prop k' v).
Proof. destruct v; simpl; intros E; inversion E; auto. Qed.

Lemma or_else_or_else (x d : value) : or_else (or_else x d) d = or_else x d.
Proof.
  unfold or_else. destruct (truthy x) eqn:E; [now rewrite E|].
  now destruct (truthy d).
Qed.

Lemma or_else_string (s : string) : or_else (VStr s) (VStr "") = VStr s.
Proof.
  unfold or_else. simpl. destruct (String.eqb_spec s ""); simpl; congruence.
Qed.

Lemma strict_eq_string (v : value) (s : string) :
  strict_eq v (VStr s) = true <-> v = VStr s.
Proof.
  split; [|intros ->; simpl; apply String.eqb_refl].
  destruct v; simpl; try discriminate.
  intros E. apply String.eqb_eq in E. now subst.
Qed.

Lemma as_array_is_array (x : value) : is_array (Batch.as_array x) = true.
Proof.
  unfold Batch.as_array. destruct (is_array x) eqn:E; [exact E|].
  now destruct (truthy x).
Qed.

Lemma as_array_idempotent (x : value) :
  Batch.as_array (Batch.as_array x) = Batch.as_array x.
Proof.
  unfold Batch.as_array at 1. now rewrite as_array_is_array.
Qed.

Lemma slug_string (s : string) : Batch.slug (VStr s) = Ok (Batch.slug_chain s).
Proof. unfold Batch.slug. now rewrite or_else_string. Qed.

(** [slug(v || "")] is [slug(v)]. *)
Lemma slug_or_else (v : value) :
  Batch.slug (or_else v (VStr "")) = Batch.slug v.
Proof. unfold Batch.slug. now rewrite or_else_or_else. Qed.

End ValueFacts.

(** ** Normalization *)

Section Normalization.
Context {H : Host}.

(** What a successful [normalize] of the batch handler returns. *)
Lemma normalize_inv (r n : value) :
  Batch.normalize r = Ok n ->
  exists ia i b,
    (if is_array (prop "ingredients" r)
     then Batch.map_value Batch.normalize_ingredient (prop "ingredients" r)
     else Ok (VArr [])) = Ok ia /\
    (if truthy (prop "id" r) then Ok (prop "id" r)
     else (s <- Batch.slug (prop "name" r) ;; Ok (VStr s))) = Ok i /\
    Batch.map_value Batch.lower_string (or_else (prop "base" r) (VArr [])) = Ok b /\
    n = VObj [("id", i);
              ("name", prop "name" r);
              ("base", b);
              ("profile", Batch.as_array (prop "profile" r));
              ("sweetness", or_else (prop "sweetness" r) (VStr "balanced"));
              ("ingredients", ia);
              ("method", or_else (prop "method" r) (VStr ""));
              ("glass", or_else (prop "glass" r) (VStr ""));
              ("garnish", or_else (prop "garnish" r) (VStr ""));
              ("tags", Batch.as_array (prop "tags" r))].
Proof.
  unfold Batch.normalize. intros E.
  bind_inv E. apply get_field_ok in Ha. destruct Ha as [-> Hr].
  rewrite !Hr in E. cbn [bind] in E.
  bind_inv E. bind_inv E. bind_inv E.
  inversion E; subst. eauto 10.
Qed.

Lemma normalize_ingredient_pair (x y : value) :
  Batch.normalize_ingredient
    (VArr [or_else x (VStr ""); or_else y (VStr "")]) =
  Ok (VArr [or_else x (VStr ""); or_else y (VStr "")]).
Proof. simpl. unfold index. simpl. now rewrite !or_else_or_else. Qed.

Lemma normalize_ingredient_fixed (p q : value) :
  Batch.normalize_ingredient p = Ok q -> Batch.normalize_ingredient q = Ok q.
Proof.
  assert (Hs : forall v, (str <- to_string (or_else v (VStr "")) ;;
                          Ok (VArr [VStr ""; VStr str])) = Ok q ->
                         Batch.normalize_ingredient q = Ok q).
  { intros v E. bind_inv E. inversion E; subst.
    rewrite <- (or_else_string a), <- (or_else_string "") at 1.
    rewrite normalize_ingredient_pair. now rewrite !or_else_string. }
  destruct p; try exact (Hs _);
    simpl; intros E; inversion E; subst; apply normalize_ingredient_pair.
Qed.

Lemma lower_string_fixed (p q : value) :
  Batch.lower_string p = Ok q -> Batch.lower_string q = Ok q.
Proof.
  unfold Batch.lower_string. intros E. bind_inv E. inversion E; subst.
  simpl. now rewrite toLowerCase_idempotent.
Qed.

Lemma map_value_fixed (f : value -> exc value) (x y : value) :
  (forall p q, f p = Ok q -> f q = Ok q) ->
  Batch.map_value f x = Ok y ->
  is_array y = true /\ Batch.map_value f y = Ok y.
Proof.
  intros Hf. destruct x; simpl; try discriminate. intros E.
  bind_inv E. inversion E; subst. simpl.
  now rewrite (map_exc_fixed f _ _ Hf Ha).
Qed.

Lemma array_or_else (y d : value) : is_array y = true -> or_else y d = y.
Proof. destruct y; simpl; try discriminate. reflexivity. Qed.

Lemma batch_normalize_fixed (r n : value) :
  Batch.normalize r = Ok n -> Batch.normalize n = Ok n.
Proof.
  intros E. apply normalize_inv in E.
  destruct E as (ia & i & b & Hia & Hi & Hb & ->).
  unfold Batch.normalize. cbn [get_field prop lookup String.eqb Ascii.eqb Bool.eqb bind].
  assert (Eia : is_array ia = true /\
                Batch.map_value Batch.normalize_ingredient ia = Ok ia).
  { destruct (is_array (prop "ingredients" r)).
    - exact (map_value_fixed _ _ _ normalize_ingredient_fixed Hia).
    - inversion Hia. now split. }
  destruct Eia as [-> ->]. cbn [bind].
  destruct (map_value_fixed _ _ _ lower_string_fixed Hb) as [Hab Hb'].
  rewrite (array_or_else _ _ Hab), Hb'.
  rewrite !as_array_idempotent, !or_else_or_else.
  assert (Ei : (if truthy i then Ok i
                else (s <- Batch.slug (prop "name" r) ;; Ok (VStr s))) = Ok i).
  { destruct (truthy (prop "id" r)) eqn:Et.
    - inversion Hi; subst. now rewrite Et.
    - destruct (truthy i); [reflexivity | exact Hi]. }
  rewrite Ei. reflexivity.
Qed.

Lemma ingredient_pair_fixed (p q : value) :
  Single.ingredient_pair p = Ok q -> Single.ingredient_pair q = Ok q.
Proof.
  unfold Single.ingredient_pair. destruct (is_array p) eqn:Ep.
  - intros E. inversion E; subst. now rewrite Ep.
  - intros E. bind_inv E. bind_inv E. now inversion E.
Qed.

Lemma single_normalize_inv (recipe : value) (slug : string) (n : value) :
  Single.normalize recipe = Ok (slug, n) ->
  exists b ia,
    Single.slugify (prop "name" recipe) = Ok slug /\
    Batch.map_value Batch.lower_string (or_else (prop "base" recipe) (VArr [])) = Ok b /\
    Batch.map_value Single.ingredient_pair
      (or_else (prop "ingredients" recipe) (VArr [])) = Ok ia /\
    n = VObj [("id", VStr slug);
              ("name", prop "name" recipe);
              ("base", b);
              ("profile", Batch.as_array (prop "profile" recipe));
              ("sweetness", or_else (prop "sweetness" recipe) (VStr "balanced"));
              ("ingredients", ia);
              ("method", or_else (prop "method" recipe) (VStr ""));
              ("glass", or_else (prop "glass" recipe) (VStr ""));
              ("garnish", or_else (prop "garnish" recipe) (VStr ""));
              ("tags", or_else (prop "tags" recipe) (VArr []))].
Proof.
  unfold Single.normalize, Single.normalized. intros E.
  bind_inv E. bind_inv E. inversion E; subst.
  bind_inv Ha0. bind_inv Ha0. inversion Ha0; subst. eauto 10.
Qed.

Lemma single_normalize_fixed (recipe : value) (slug : string) (n : value) :
  Single.normalize recipe = Ok (slug, n) -> Single.normalize n = Ok (slug, n).
Proof.
  intros E. apply single_normalize_inv in E.
  destruct E as (b & ia & Hs & Hb & Hia & ->).
  unfold Single.normalize, Single.normalized.
  cbn [prop lookup String.eqb Ascii.eqb Bool.eqb].
  rewrite Hs. cbn [bind].
  destruct (map_value_fixed _ _ _ lower_string_fixed Hb) as [Hab Hb'].
  destruct (map_value_fixed _ _ _ ingredient_pair_fixed Hia) as [Hai Hia'].
  rewrite (array_or_else _ _ Hab), (array_or_else _ _ Hai), Hb', Hia'.
  cbn [bind]. now rewrite as_array_idempotent, !or_else_or_else.
Qed.

End Normalization.

(** C8.  On every string, the [slug] of the batch handler and the [slugify]
    of the single-recipe handler both compute the slug as described:
    lowercase, trim, one hyphen for each run of characters outside a-z and
    0-9, no hyphen left at either end.  In particular "Old Fashioned" gives
    "old-fashioned" and "  A & B!! " gives "a-b" in both handlers. *)
Theorem slug_as_described (H : Host) :
  (forall s : string,
     Batch.slug (VStr s) = Ok (slug_described s) /\
     Single.slugify (VStr s) = Ok (slug_described s)) /\
  Batch.slug (VStr "Old Fashioned") = Ok "old-fashioned" /\
  Batch.slug (VStr "  A & B!! ") = Ok "a-b" /\
  Single.slugify (VStr "Old Fashioned") = Ok "old-fashioned" /\
  Single.slugify (VStr "  A & B!! ") = Ok "a-b".
Proof.
  split; [|repeat split; reflexivity].
  intros s. split.
  - now rewrite slug_string, slug_chain_described.
  - unfold Single.slugify. simpl.
    now rewrite slugify_chain_slug_chain, slug_chain_described.
Qed.

(** C9.  Normalization is idempotent in both handlers: whenever a raw input
    is normalized to a record, normalizing that record gives the same
    record again. *)
Theorem normalize_idempotent (H : Host) :
  (forall r n : value, Batch.normalize r = Ok n -> Batch.normalize n = Ok n) /\
  (forall (recipe : value) (slug : string) (n : value),
     Single.normalize recipe = Ok (slug, n) ->
     Single.normalize n = Ok (slug, n)).
Proof.
  split; [exact batch_normalize_fixed | exact single_normalize_fixed].
Qed.

Lemma normalize_idempotent_witness :
  (exists n, Batch.normalize (H := sample_host) Samples.raw_gimlet = Ok n /\
             Batch.normalize n = Ok n) /\
  (exists n, Single.normalize (H := sample_host) Samples.raw_gimlet = Ok ("gimlet", n) /\
             Single.normalize n = Ok ("gimlet", n)).
Proof.
  split; eexists; (split; [reflexivity|]).
  - apply (proj1 (normalize_idempotent sample_host) Samples.raw_gimlet).
    reflexivity.
  - apply (proj2 (normalize_idempotent sample_host) Samples.raw_gimlet).
    reflexivity.
Defined.

(** C2, as the code has it.  In the batch handler the normalized id is the
    raw [id] when that is truthy and [slug(raw.name)] otherwise.  In the
    single-recipe handler the id is always [slugify(recipe.name)], whatever
    the raw [id]. *)
Theorem canonical_id (H : Host) :
  (forall r n : value,
     Batch.normalize r = Ok n ->
     if truthy (prop "id" r) then prop "id" n = prop "id" r
     else exists s, Batch.slug (prop "name" r) = Ok s /\ prop "id" n = VStr s) /\
  (forall (recipe : value) (slug : string) (n : value),
     Single.normalize recipe = Ok (slug, n) ->
     Single.slugify (prop "name" recipe) = Ok slug /\ prop "id" n = VStr slug).
Proof.
  split.
  - intros r n E. apply normalize_inv in E.
    destruct E as (ia & i & b & _ & Hi & _ & ->). simpl.
    destruct (truthy (prop "id" r)).
    + now inversion Hi.
    + bind_inv Hi. inversion Hi; subst. eauto.
  - intros recipe slug n E. apply single_normalize_inv in E.
    destruct E as (b & ia & Hs & _ & _ & ->). now split.
Qed.

Lemma canonical_id_witness :
  (exists n, Batch.normalize (H := sample_host) Samples.raw_house_martini = Ok n /\
             prop "id" n = VStr "house-martini") /\
  (exists n, Batch.normalize (H := sample_host) Samples.minimal_martini = Ok n /\
             prop "id" n = VStr "martini") /\
  (exists n, Single.normalize (H := sample_host) Samples.raw_house_martini = Ok ("martini", n) /\
             prop "id" n = VStr "martini").
Proof.
  split; [|split]; eexists; (split; [reflexivity|]).
  - exact (proj1 (canonical_id sample_host) Samples.raw_house_martini _ eq_refl).
  - destruct (proj1 (canonical_id sample_host) Samples.minimal_martini _ eq_refl)
      as (s & Hs & Hn).
    inversion Hs; subst. exact Hn.
  - exact (proj2 (proj2 (canonical_id sample_host) Samples.raw_house_martini
                   _ _ eq_refl)).
Defined.

(** C2 as stated fails in the single-recipe handler: a recipe with the
    truthy id "house-martini" is stored under the id "martini". *)
Lemma single_handler_ignores_raw_id :
  truthy (H := sample_host) (prop "id" Samples.raw_house_martini) = true /\
  exists n, Single.normalize (H := sample_host) Samples.raw_house_martini
            = Ok ("martini", n) /\
            prop "id" n <> prop "id" Samples.raw_house_martini.
Proof.
  split; [reflexivity|]. eexists. split; [reflexivity|]. discriminate.
Qed.

(** ** The upsert loop *)

Section Loop.
Context {H : Host}.

Lemma upsert_inv (raw : value) (st st' : Batch.loop_state) :
  Batch.upsert raw st = Ok st' ->
  exists n idx,
    Batch.normalize raw = Ok n /\
    findIndex (matches n) (Batch.list_ st) = Ok idx /\
    st' = {| Batch.list_ :=
               match idx with
               | Some i =>
                   replace_at i (spread2 (nth i (Batch.list_ st) VUndef) n)
                              (Batch.list_ st)
               | None => Batch.list_ st ++ [n]
               end;
             Batch.upserted := S (Batch.upserted st);
             Batch.upsertIds := Batch.upsertIds st ++ [prop "id" n] |}.
Proof.
  unfold Batch.upsert. intros E. bind_inv E. bind_inv E.
  inversion E; subst. exists a, a0. auto.
Qed.

(** The counter and the list of ids after the loop: one more for each
    usable input, in the order of the inputs. *)
Lemma upsert_loop_tally (incoming : list value) :
  forall st st' : Batch.loop_state,
    Batch.upsert_loop incoming st = Ok st' ->
    Batch.upserted st' =
      Batch.upserted st + length (filter Batch.usable incoming) /\
    exists new,
      Batch.upsertIds st' = Batch.upsertIds st ++ new /\
      Forall2 (fun raw id => exists n, Batch.normalize raw = Ok n /\ prop "id" n = id)
              (filter Batch.usable incoming) new.
Proof.
  induction incoming as [|raw rest IH]; simpl; intros st st' E.
  - inversion E; subst. split; [lia|]. exists []. now rewrite app_nil_r.
  - destruct (Batch.usable raw) eqn:Eu; [|now apply IH].
    bind_inv E. apply upsert_inv in Ha.
    destruct Ha as (n & idx & Hn & _ & ->).
    destruct (IH _ _ E) as [Hc (new & Hi & Hf)]. simpl in Hc, Hi.
    split; [simpl; lia|].
    exists (prop "id" n :: new). split.
    + now rewrite Hi, <- app_assoc.
    + constructor; eauto.
Qed.

End Loop.

(** ** The handlers and the store *)

Section Store.
Context {H : Host}.

(** What the batch handler has done when it issues the commit request. *)
Lemma batch_put_inv (allowed owner repo path br : string) (w : store)
    (incoming : list value) (o : store_op) :
  In o (snd (Batch.read_merge_write allowed owner repo path br w incoming)) ->
  is_put o = true ->
  exists st sorted msg,
    Batch.upsert_loop incoming (loop_start w) = Ok st /\
    sort_by_name (Batch.list_ st) = Ok sorted /\
    Batch.commit_message incoming (Batch.upserted st) = Ok msg /\
    o = PUT owner repo path
          {| message := msg; content := sorted; branch := br;
             commit_sha := sha_property (Batch.fetched_sha (on_get w)) |}.
Proof.
  unfold Batch.read_merge_write, loop_start.
  destruct (on_get w) as [sha parsed| |text]; cbn [Batch.existing Batch.fetched_sha];
    [| |simpl; intros [<-|[]]; discriminate].
  all: destruct (Batch.upsert_loop incoming _) as [st|] eqn:El; cbn [bind];
    [|simpl; intros [<-|[]]; discriminate].
  all: destruct (sort_by_name (Batch.list_ st)) as [sorted|] eqn:Es; cbn [bind];
    [|simpl; intros [<-|[]]; discriminate].
  all: destruct (Batch.commit_message incoming (Batch.upserted st)) as [msg|] eqn:Em;
    cbn [bind]; [|simpl; intros [<-|[]]; discriminate].
  all: intros Hin Hput; exists st, sorted, msg;
    do 3 (split; [first [reflexivity | assumption]|]).
  all: destruct (_ || _)%bool; simpl in Hin;
    destruct Hin as [<-|[<-|[]]]; try discriminate; reflexivity.
Qed.

(** What the batch handler has done when it answers with the success
    document. *)
Lemma batch_saved_inv (allowed owner repo path br : string) (w : store)
    (incoming : list value) (c : nat) (ids : list value) :
  sent (fst (Batch.read_merge_write allowed owner repo path br w incoming))
  = Saved c ids ->
  exists st,
    Batch.upsert_loop incoming (loop_start w) = Ok st /\
    c = Batch.upserted st /\ ids = Batch.upsertIds st.
Proof.
  unfold Batch.read_merge_write, loop_start.
  destruct (on_get w) as [sha parsed| |text]; cbn [Batch.existing Batch.fetched_sha];
    [| |simpl; discriminate].
  all: destruct (Batch.upsert_loop incoming _) as [st|] eqn:El; cbn [bind];
    [|simpl; discriminate].
  all: destruct (sort_by_name (Batch.list_ st)) as [sorted|] eqn:Es; cbn [bind];
    [|simpl; discriminate].
  all: destruct (Batch.commit_message incoming (Batch.upserted st)) as [msg|] eqn:Em;
    cbn [bind]; [|simpl; discriminate].
  all: intros E; exists st; split; [first [reflexivity | assumption]|];
    destruct (_ || _)%bool; simpl in E; try discriminate;
    inversion E; auto.
Qed.

(** The batch handler reaches the store only through [read_merge_write]. *)
Lemma batch_handler_cases (e : environment) (w : store) (req : request) :
  snd (Batch.handler e w req) = [] /\
  (forall c ids, sent (fst (Batch.handler e w req)) <> Saved c ids) \/
  Batch.handler e w req =
    Batch.read_merge_write (env_or (ALLOWED_ORIGIN e) "")
      (env_or (GH_OWNER e) "") (env_or (GH_REPO e) "")
      (env_or (GH_FILE e) "custom-recipes.json")
      (env_or (GH_BRANCH e) "main") w (Batch.incoming req).
Proof.
  unfold Batch.handler.
  destruct (String.eqb (method req) "OPTIONS"); [left; split; [reflexivity | discriminate]|].
  destruct (negb (String.eqb (method req) "POST")); [left; split; [reflexivity | discriminate]|].
  destruct (Batch.forbidden_origin e req); [left; split; [reflexivity | discriminate]|].
  destruct (negb (authorized _ _)); [left; split; [reflexivity | discriminate]|].
  destruct (Batch.incoming req); [left; split; [reflexivity | discriminate]|].
  destruct (github_config_missing e); [left; split; [reflexivity | discriminate]|].
  now right.
Qed.

End Store.

Section Gates.
Context {H : Host}.

Lemma authorized_iff (pw : value) (secret : option string) :
  authorized pw secret = true <->
  exists s, pw = VStr s /\ secret = Some s /\ s <> "".
Proof.
  unfold authorized. split.
  - intros E. apply andb_true_iff in E. destruct E as [Et Es].
    destruct secret as [s|].
    + apply strict_eq_string in Es. subst pw. exists s.
      repeat split. simpl in Et. intros ->. discriminate.
    + destruct pw; discriminate.
  - intros (s & -> & -> & Hs). simpl.
    rewrite String.eqb_refl, andb_true_r.
    destruct (String.eqb_spec s ""); [contradiction | reflexivity].
Qed.

(** A request that is not authorized never reaches the store, in either
    handler. *)
Lemma unauthorized_no_store_access (e : environment) (w : store) (req : request) :
  authorized (supplied_password req) (ADMIN_PASSWORD e) = false ->
  snd (Batch.handler e w req) = [] /\ snd (Single.handler e w req) = [].
Proof.
  intros Ha. unfold Batch.handler, Single.handler. rewrite Ha. simpl.
  destruct (String.eqb (method req) "OPTIONS"); [now split|].
  destruct (negb (String.eqb (method req) "POST")); [now split|].
  destruct (Batch.forbidden_origin e req); now split.
Qed.

Lemma usable_string_name (raw : value) (s : string) :
  prop "name" raw = VStr s -> Batch.usable raw = negb (String.eqb s "").
Proof.
  intros Hn. unfold Batch.usable. rewrite Hn.
  destruct raw; simpl in Hn; try discriminate. reflexivity.
Qed.

Lemma post_is_not_options (m : string) :
  m = "POST" ->
  String.eqb m "OPTIONS" = false /\ negb (String.eqb m "POST") = false.
Proof. intros ->. now split. Qed.

(** The batch handler past its gates. *)
Lemma batch_handler_authorized (e : environment) (w : store) (req : request) :
  method req = "POST" ->
  Batch.forbidden_origin e req = false ->
  authorized (supplied_password req) (ADMIN_PASSWORD e) = true ->
  Batch.handler e w req =
    match Batch.incoming req with
    | [] => (Batch.respond (env_or (ALLOWED_ORIGIN e) "") 400
               (Error "no-recipes" None), [])
    | _ =>
        if github_config_missing e
        then (Batch.respond (env_or (ALLOWED_ORIGIN e) "") 500
                (Error "missing-github-config" None), [])
        else Batch.read_merge_write (env_or (ALLOWED_ORIGIN e) "")
               (env_or (GH_OWNER e) "") (env_or (GH_REPO e) "")
               (env_or (GH_FILE e) "custom-recipes.json")
               (env_or (GH_BRANCH e) "main") w (Batch.incoming req)
    end.
Proof.
  intros Hm Ho Ha. unfold Batch.handler.
  destruct (post_is_not_options _ Hm) as [-> ->]. now rewrite Ho, Ha.
Qed.

End Gates.

(** C4, as the code has it.  Authentication succeeds iff the supplied
    password and the configured secret are the same non-empty string.  A
    request that fails it makes no read from and no write to the store, in
    both handlers; when it is a POST (and, in the batch handler, its origin
    passes the allowlist) the answer is 401 "unauthorized". *)
Theorem unauthorized_rejected (H : Host) :
  (forall (pw : value) (secret : option string),
     authorized pw secret = true <->
     exists s, pw = VStr s /\ secret = Some s /\ s <> "") /\
  (forall (e : environment) (w : store) (req : request),
     authorized (supplied_password req) (ADMIN_PASSWORD e) = false ->
     snd (Batch.handler e w req) = [] /\
     snd (Single.handler e w req) = [] /\
     (method req = "POST" -> Batch.forbidden_origin e req = false ->
      Batch.handler e w req =
        (Batch.respond (env_or (ALLOWED_ORIGIN e) "") 401
           (Error "unauthorized" None), [])) /\
     (method req = "POST" ->
      Single.handler e w req =
        (Single.respond 401 (Error "unauthorized" None), []))).
Proof.
  split; [exact authorized_iff|].
  intros e w req Ha.
  destruct (unauthorized_no_store_access e w req Ha) as [Hb Hs].
  repeat split; [exact Hb | exact Hs | |].
  - intros Hm Ho. unfold Batch.handler.
    destruct (post_is_not_options _ Hm) as [-> ->]. now rewrite Ho, Ha.
  - intros Hm. unfold Single.handler.
    destruct (post_is_not_options _ Hm) as [-> ->]. now rewrite Ha.
Qed.

Lemma unauthorized_rejected_witness :
  authorized (H := sample_host) (VStr "s3cret") (Some "s3cret") = true /\
  Batch.handler Samples.env (Samples.store_with []) Samples.wrong_password_post =
    ({| status := 401; allow_origin := "*";
        sent := Error "unauthorized" None |}, []) /\
  Single.handler Samples.env (Samples.store_with []) Samples.wrong_password_post =
    ({| status := 401; allow_origin := "*";
        sent := Error "unauthorized" None |}, []).
Proof.
  pose proof (unauthorized_rejected sample_host) as [Hiff Hrej].
  split.
  - apply Hiff. exists "s3cret". repeat split. discriminate.
  - destruct (Hrej Samples.env (Samples.store_with [])
                Samples.wrong_password_post eq_refl)
      as (_ & _ & Hb & Hs).
    split; [exact (Hb eq_refl eq_refl) | exact (Hs eq_refl)].
Defined.

(** C4 as stated fails outside POST: a GET request with a wrong password
    is answered with 405 "method-not-allowed", and a preflight without any
    password with 200, not with 401. *)
Lemma wrong_password_not_always_401 :
  authorized (H := sample_host) (supplied_password Samples.wrong_password_get)
             (ADMIN_PASSWORD Samples.env) = false /\
  fst (Batch.handler Samples.env Samples.empty_store Samples.wrong_password_get) =
    {| status := 405; allow_origin := "*";
       sent := Error "method-not-allowed" None |} /\
  fst (Single.handler Samples.env Samples.empty_store Samples.wrong_password_get) =
    {| status := 405; allow_origin := "*";
       sent := Error "method-not-allowed" None |} /\
  authorized (H := sample_host) (supplied_password Samples.preflight)
             (ADMIN_PASSWORD Samples.env) = false /\
  fst (Batch.handler Samples.env Samples.empty_store Samples.preflight) =
    {| status := 200; allow_origin := "*"; sent := NoBody |}.
Proof. repeat split. Qed.

(** What the handlers do reject: an empty input list in the batch handler,
    a missing or nameless [recipe] in the single-recipe handler.  Neither
    reaches the store. *)
Lemma no_input_rejected {H : Host} (e : environment) (w : store) (req : request) :
  method req = "POST" ->
  authorized (supplied_password req) (ADMIN_PASSWORD e) = true ->
  (Batch.forbidden_origin e req = false -> Batch.incoming req = [] ->
   Batch.handler e w req =
     (Batch.respond (env_or (ALLOWED_ORIGIN e) "") 400
        (Error "no-recipes" None), [])) /\
  (Batch.usable (prop "recipe" (request_body req)) = false ->
   Single.handler e w req =
     (Single.respond 400 (Error "bad-recipe" None), [])).
Proof.
  intros Hm Ha. split.
  - intros Ho Hi. rewrite (batch_handler_authorized e w req Hm Ho Ha).
    now rewrite Hi.
  - intros Hu. unfold Single.handler.
    destruct (post_is_not_options _ Hm) as [-> ->]. rewrite Ha.
    unfold Batch.usable in Hu. cbn [negb].
    rewrite <- negb_andb, Hu. reflexivity.
Qed.

(** C3.  The batch handler answers 400 "no-recipes" only when the input
    list is empty.  A batch whose elements are all skipped, or a [recipe]
    without name, passes that test: the handler commits the collection
    with the message "Upsert 0 recipes" and answers 200 with count 0.  The
    single-recipe handler rejects the same nameless recipe with 400
    "bad-recipe" and leaves the store alone. *)
Theorem unusable_batch_is_committed :
  Batch.handler (H := sample_host) Samples.env Samples.empty_store
                Samples.unusable_batch =
    ({| status := 200; allow_origin := "*"; sent := Saved 0 [] |},
     [GET "owner" "pages" "custom-recipes.json" "main";
      PUT "owner" "pages" "custom-recipes.json"
        {| message := "Upsert 0 recipes"; content := []; branch := "main";
           commit_sha := None |}]) /\
  Batch.handler (H := sample_host) Samples.env Samples.empty_store
                Samples.nameless_recipe =
    ({| status := 200; allow_origin := "*"; sent := Saved 0 [] |},
     [GET "owner" "pages" "custom-recipes.json" "main";
      PUT "owner" "pages" "custom-recipes.json"
        {| message := "Upsert 0 recipes"; content := []; branch := "main";
           commit_sha := None |}]) /\
  Single.handler (H := sample_host) Samples.env Samples.empty_store
                 Samples.nameless_recipe =
    ({| status := 400; allow_origin := "*"; sent := Error "bad-recipe" None |},
     []).
Proof. repeat split. Qed.

(** C10.  In the batch handler a [recipes] array hides the [recipe] field:
    two requests that differ only in what else their bodies hold get the
    same answer and make the same requests to the store.  A body with a
    valid [recipe] and [recipes: []] is rejected with 400 "no-recipes",
    without any access to the store. *)
Theorem recipes_array_hides_recipe (H : Host) :
  (forall (e : environment) (w : store) (req req' : request) (l : list value),
     method req = method req' ->
     origin req = origin req' ->
     supplied_password req = supplied_password req' ->
     prop "recipes" (request_body req) = VArr l ->
     prop "recipes" (request_body req') = VArr l ->
     Batch.handler e w req = Batch.handler e w req') /\
  (forall (e : environment) (w : store) (req : request),
     method req = "POST" ->
     Batch.forbidden_origin e req = false ->
     authorized (supplied_password req) (ADMIN_PASSWORD e) = true ->
     prop "recipes" (request_body req) = VArr [] ->
     Batch.handler e w req =
       (Batch.respond (env_or (ALLOWED_ORIGIN e) "") 400
          (Error "no-recipes" None), [])).
Proof.
  split.
  - intros e w req req' l Hm Ho Hp Hr Hr'.
    unfold Batch.handler, Batch.forbidden_origin, Batch.incoming.
    now rewrite Hm, Ho, Hp, Hr, Hr'.
  - intros e w req Hm Ho Ha Hr.
    rewrite (batch_handler_authorized e w req Hm Ho Ha).
    unfold Batch.incoming. now rewrite Hr.
Qed.

Lemma recipes_array_hides_recipe_witness :
  Batch.handler (H := sample_host) Samples.env Samples.empty_store
                Samples.recipe_and_empty_recipes =
    Batch.handler Samples.env Samples.empty_store
                  (Samples.post (Samples.batch_body "s3cret" [])) /\
  Batch.handler (H := sample_host) Samples.env Samples.empty_store
                Samples.recipe_and_empty_recipes =
    ({| status := 400; allow_origin := "*"; sent := Error "no-recipes" None |},
     []).
Proof.
  split.
  - apply (proj1 (recipes_array_hides_recipe sample_host)) with (l := []);
      reflexivity.
  - apply (proj2 (recipes_array_hides_recipe sample_host)); reflexivity.
Defined.

(** C5.  Whenever the batch handler answers with the success document,
    its [count] is the number of inputs that pass the test of the loop (a
    truthy input with a truthy [name]: for a string, a non-empty name), and
    its [ids] are the ids given by [normalize] to exactly those inputs, in
    the order of the inputs. *)
Theorem count_and_ids_follow_inputs (H : Host)
    (e : environment) (w : store) (req : request)
    (c : nat) (ids : list value) :
  sent (fst (Batch.handler e w req)) = Saved c ids ->
  c = length (filter Batch.usable (Batch.incoming req)) /\
  Forall2 (fun raw id => exists n, Batch.normalize raw = Ok n /\ prop "id" n = id)
          (filter Batch.usable (Batch.incoming req)) ids /\
  (forall raw s, prop "name" raw = VStr s ->
                 Batch.usable raw = negb (String.eqb s "")).
Proof.
  intros E.
  destruct (batch_handler_cases e w req) as [[_ Hn] | Hh];
    [now elim (Hn c ids)|].
  rewrite Hh in E. apply batch_saved_inv in E.
  destruct E as (st & El & -> & ->).
  apply upsert_loop_tally in El. destruct El as [Hc (new & Hi & Hf)].
  simpl in Hc, Hi.
  split; [exact Hc | split; [now rewrite Hi | exact usable_string_name]].
Qed.

Lemma count_and_ids_follow_inputs_witness :
  sent (fst (Batch.handler (H := sample_host) Samples.env Samples.empty_store
                           Samples.mixed_batch)) =
    Saved 2 [VStr "martini"; VStr "gimlet"] /\
  2 = length (filter Batch.usable (Batch.incoming Samples.mixed_batch)) /\
  Forall2 (fun raw id => exists n, Batch.normalize raw = Ok n /\ prop "id" n = id)
          (filter Batch.usable (Batch.incoming Samples.mixed_batch))
          [VStr "martini"; VStr "gimlet"].
Proof.
  split; [reflexivity|].
  destruct (count_and_ids_follow_inputs sample_host Samples.env
              Samples.empty_store Samples.mixed_batch 2
              [VStr "martini"; VStr "gimlet"] eq_refl) as (Hc & Hi & _).
  split; [exact Hc | exact Hi].
Defined.

Section Commit.
Context {H : Host}.

Lemma sha_property_some (f : fetched) (t : string) :
  (forall sha parsed, f = Found sha parsed -> sha <> "") ->
  sha_property (Batch.fetched_sha f) = Some t <-> exists parsed, f = Found t parsed.
Proof.
  intros Hne. destruct f as [sha parsed| |text]; simpl.
  - destruct (String.eqb_spec sha "") as [E|E].
    + now elim (Hne sha parsed eq_refl).
    + split; [intros [= ->]; eauto | intros [p [= -> _]]; reflexivity].
  - split; [discriminate | intros [p Hp]; discriminate].
  - split; [discriminate | intros [p Hp]; discriminate].
Qed.

Lemma usable_named (raw : value) (s : string) :
  prop "name" raw = VStr s -> s <> "" -> Batch.usable raw = true.
Proof.
  intros Hn Hs. unfold Batch.usable. rewrite Hn.
  destruct raw; simpl in Hn; try discriminate. simpl.
  destruct (String.eqb_spec s ""); [contradiction | reflexivity].
Qed.

Lemma first_name_named (raw : value) (s : string) (rest : list value) :
  prop "name" raw = VStr s -> Batch.first_name (raw :: rest) = VStr s.
Proof. destruct raw; simpl; try discriminate. auto. Qed.

(** The first write: one named recipe, no file in the store yet. *)
Lemma first_write (allowed owner repo path br : string) (w : store)
    (raw n : value) (s : string) :
  on_get w = NotFound ->
  prop "name" raw = VStr s -> s <> "" ->
  Batch.normalize raw = Ok n ->
  snd (Batch.read_merge_write allowed owner repo path br w [raw]) =
    [GET owner repo path br;
     PUT owner repo path
       {| message := ("Upsert recipe: " ++ s)%string; content := [n];
          branch := br; commit_sha := None |}].
Proof.
  intros Hw Hn Hs Hnorm. unfold Batch.read_merge_write. rewrite Hw.
  cbn [Batch.upsert_loop Batch.existing]. rewrite (usable_named raw s Hn Hs).
  unfold Batch.upsert. rewrite Hnorm.
  cbn [bind Batch.list_ findIndex Batch.upserted app sort_by_name fold_left
       sort_insert].
  unfold Batch.commit_message. cbn [Nat.eqb].
  rewrite (first_name_named raw s [] Hn).
  assert (Eo : or_else (VStr s) (VStr "1 item") = VStr s).
  { unfold or_else. simpl. destruct (String.eqb_spec s ""); [contradiction|reflexivity]. }
  rewrite Eo. cbn [to_string bind Batch.fetched_sha sha_property].
  now destruct (_ || _)%bool.
Qed.

End Commit.

(** C6.  A commit request of the batch handler carries the version token
    [t] iff the fetch returned the document with the token [t] (the store
    gives no empty token).  When the fetch reports not-found, a single
    recipe with a name that normalizes to [n] is committed as the
    one-element collection [[n]], without a version token. *)
Theorem token_sent_iff_fetched (H : Host) :
  (forall (e : environment) (w : store) (req : request)
          (owner repo path : string) (b : put_body) (t : string),
     (forall sha parsed, on_get w = Found sha parsed -> sha <> "") ->
     In (PUT owner repo path b) (snd (Batch.handler e w req)) ->
     (commit_sha b = Some t <-> exists parsed, on_get w = Found t parsed)) /\
  (forall (e : environment) (w : store) (req : request)
          (raw n : value) (s : string),
     method req = "POST" ->
     Batch.forbidden_origin e req = false ->
     authorized (supplied_password req) (ADMIN_PASSWORD e) = true ->
     github_config_missing e = false ->
     Batch.incoming req = [raw] ->
     prop "name" raw = VStr s -> s <> "" ->
     Batch.normalize raw = Ok n ->
     on_get w = NotFound ->
     snd (Batch.handler e w req) =
       [GET (env_or (GH_OWNER e) "") (env_or (GH_REPO e) "")
            (env_or (GH_FILE e) "custom-recipes.json")
            (env_or (GH_BRANCH e) "main");
        PUT (env_or (GH_OWNER e) "") (env_or (GH_REPO e) "")
            (env_or (GH_FILE e) "custom-recipes.json")
            {| message := ("Upsert recipe: " ++ s)%string;
               content := [n];
               branch := env_or (GH_BRANCH e) "main";
               commit_sha := None |}]).
Proof.
  split.
  - intros e w req owner repo path b t Hne Hin.
    destruct (batch_handler_cases e w req) as [[Hnil _] | Hh];
      [rewrite Hnil in Hin; destruct Hin|].
    rewrite Hh in Hin. apply batch_put_inv in Hin; [|reflexivity].
    destruct Hin as (st & sorted & msg & _ & _ & _ & Hb).
    inversion Hb; subst. simpl. now apply sha_property_some.
  - intros e w req raw n s Hm Ho Ha Hc Hi Hn Hs Hnorm Hw.
    rewrite (batch_handler_authorized e w req Hm Ho Ha), Hi, Hc.
    now apply first_write.
Qed.

Lemma token_sent_iff_fetched_witness :
  (exists b,
     In (PUT "owner" "pages" "custom-recipes.json" b)
        (snd (Batch.handler (H := sample_host) Samples.env
                (Samples.store_with [Samples.stored_martini])
                (Samples.post (Samples.batch_body "s3cret" [Samples.raw_gimlet])))) /\
     (commit_sha b = Some "3f1a9c" <->
      exists parsed,
        on_get (Samples.store_with [Samples.stored_martini]) = Found "3f1a9c" parsed)) /\
  exists n,
    Batch.normalize (H := sample_host) Samples.minimal_martini = Ok n /\
    snd (Batch.handler Samples.env Samples.empty_store
           (Samples.post (Samples.single_body "s3cret" Samples.minimal_martini))) =
      [GET "owner" "pages" "custom-recipes.json" "main";
       PUT "owner" "pages" "custom-recipes.json"
         {| message := "Upsert recipe: Martini"; content := [n];
            branch := "main"; commit_sha := None |}].
Proof.
  split.
  - eexists. split; [right; left; reflexivity|].
    apply (proj1 (token_sent_iff_fetched sample_host) Samples.env
             (Samples.store_with [Samples.stored_martini])
             (Samples.post (Samples.batch_body "s3cret" [Samples.raw_gimlet]))
             "owner" "pages" "custom-recipes.json").
    + intros sha parsed [= <- _]. discriminate.
    + right; left; reflexivity.
  - eexists. split; [reflexivity|].
    apply (proj2 (token_sent_iff_fetched sample_host) Samples.env
             Samples.empty_store _ Samples.minimal_martini _ "Martini");
      try reflexivity.
    discriminate.
Defined.

(** ** The merge [{ ...list[idx], ...n }] *)

Section Merge.
Context {H : Host}.

Lemma lookup_set_prop (k k' : string) (v : value) (o : props) :
  lookup k (set_prop k' v o) =
  if String.eqb k k' then Some v else lookup k o.
Proof.
  induction o as [|[k0 v0] o IH]; simpl.
  - now destruct (String.eqb k k').
  - destruct (String.eqb_spec k' k0) as [->|Hn]; simpl.
    + now destruct (String.eqb k k0).
    + destruct (String.eqb_spec k k0) as [->|Hk].
      * destruct (String.eqb_spec k0 k'); [congruence | reflexivity].
      * exact IH.
Qed.

Lemma lookup_app (k : string) (l1 l2 : props) :
  lookup k (l1 ++ l2) =
  match lookup k l1 with Some v => Some v | None => lookup k l2 end.
Proof.
  induction l1 as [|[k0 v0] l1 IH]; simpl; [reflexivity|].
  now destruct (String.eqb k k0).
Qed.

(** Properties set one after the other: the last value given to a key is
    the one that stays. *)
Lemma lookup_fold_set (k : string) (l o : props) :
  lookup k (fold_left (fun o kv => set_prop (fst kv) (snd kv) o) l o) =
  match lookup k (rev l) with Some v => Some v | None => lookup k o end.
Proof.
  revert o. induction l as [|[k0 v0] l IH]; intro o; simpl; [reflexivity|].
  rewrite IH, lookup_app, lookup_set_prop. simpl.
  destruct (lookup k (rev l)); [reflexivity|].
  now destruct (String.eqb k k0).
Qed.

Lemma lookup_absent (k : string) (l : props) :
  ~ In k (map fst l) -> lookup k l = None.
Proof.
  induction l as [|[k0 v0] l IH]; simpl; [reflexivity|]. intros Hn.
  destruct (String.eqb_spec k k0) as [->|_]; [tauto|]. apply IH. tauto.
Qed.

Lemma lookup_present (k : string) (l : props) :
  In k (map fst l) -> exists v, lookup k l = Some v.
Proof.
  induction l as [|[k0 v0] l IH]; simpl; [tauto|]. intros Hin.
  destruct (String.eqb_spec k k0) as [->|Hk]; [eauto|].
  apply IH. destruct Hin; [congruence | assumption].
Qed.

Lemma lookup_rev (k : string) (l : props) :
  NoDup (map fst l) -> lookup k (rev l) = lookup k l.
Proof.
  induction l as [|[k0 v0] l IH]; simpl; [reflexivity|]. intros Hd.
  inversion Hd as [|? ? Hnin Hd']; subst.
  rewrite lookup_app, (IH Hd'). simpl.
  destruct (String.eqb_spec k k0) as [->|_].
  - now rewrite (lookup_absent _ _ Hnin).
  - now destruct (lookup k l).
Qed.

(** The shallow merge: a key of the second operand takes its value there,
    any other key keeps the value of the first operand. *)
Lemma prop_spread2 (k : string) (x : value) (kvs : props) :
  NoDup (map fst kvs) ->
  prop k (spread2 x (VObj kvs)) =
  match lookup k kvs with
  | Some v => v
  | None => match lookup k (rev (own_props x)) with
            | Some v => v
            | None => VUndef
            end
  end.
Proof.
  intros Hd. unfold spread2, prop. rewrite lookup_fold_set. simpl.
  rewrite rev_app_distr, lookup_app, (lookup_rev k kvs Hd).
  destruct (lookup k kvs); [reflexivity|].
  now destruct (lookup k (rev (own_props x))).
Qed.

Lemma record_fields_nodup : NoDup record_fields.
Proof.
  unfold record_fields.
  repeat (constructor; [simpl; intuition discriminate|]). constructor.
Qed.

Lemma batch_normalize_record (r n : value) :
  Batch.normalize r = Ok n -> is_record n.
Proof.
  intros E. apply normalize_inv in E.
  destruct E as (ia & i & b & _ & _ & _ & ->). eexists. split; reflexivity.
Qed.

Lemma single_normalize_record (recipe : value) (slug : string) (n : value) :
  Single.normalize recipe = Ok (slug, n) -> is_record n.
Proof.
  intros E. apply single_normalize_inv in E.
  destruct E as (b & ia & _ & _ & _ & ->). eexists. split; reflexivity.
Qed.

(** The fields of the submitted record win. *)
Lemma merge_candidate_wins (x n : value) (k : string) :
  is_record n -> In k record_fields -> prop k (spread2 x n) = prop k n.
Proof.
  intros (kvs & -> & Hk) Hin.
  rewrite prop_spread2 by (rewrite Hk; exact record_fields_nodup).
  rewrite <- Hk in Hin. destruct (lookup_present _ _ Hin) as [v Hv].
  simpl. now rewrite Hv.
Qed.

(** Any other property of the stored record survives. *)
Lemma merge_keeps_other (kvs : props) (n : value) (k : string) :
  is_record n -> NoDup (map fst kvs) -> ~ In k record_fields ->
  prop k (spread2 (VObj kvs) n) = prop k (VObj kvs).
Proof.
  intros (kn & -> & Hk) Hd Hnin.
  rewrite prop_spread2 by (rewrite Hk; exact record_fields_nodup).
  rewrite <- Hk in Hnin. rewrite (lookup_absent _ _ Hnin).
  simpl. now rewrite (lookup_rev k kvs Hd).
Qed.

Lemma findIndex_bound (pred : value -> exc bool) (l : list value) (i : nat) :
  findIndex pred l = Ok (Some i) -> i < length l.
Proof.
  revert i. induction l as [|x r IH]; simpl; intros i E; [discriminate|].
  bind_inv E. destruct a.
  - inversion E. lia.
  - bind_inv E. destruct a as [j|]; inversion E; subst.
    specialize (IH j Ha0). lia.
Qed.

Lemma nth_replace_at (i : nat) (v : value) (l : list value) :
  i < length l -> nth i (replace_at i v l) VUndef = v.
Proof.
  revert i. induction l as [|x r IH]; simpl; intros i Hi; [lia|].
  destruct i; simpl; [reflexivity|]. apply IH. lia.
Qed.

End Merge.

Section MinimalUpsert.
Context {H : Host}.

Lemma batch_normalize_martini :
  Batch.normalize (named_only "Martini") =
  Ok (VObj [("id", VStr "martini"); ("name", VStr "Martini");
            ("base", VArr []); ("profile", VArr []);
            ("sweetness", VStr "balanced"); ("ingredients", VArr []);
            ("method", VStr ""); ("glass", VStr ""); ("garnish", VStr "");
            ("tags", VArr [])]).
Proof. reflexivity. Qed.

Lemma single_normalize_martini :
  Single.normalize (named_only "Martini") =
  Ok ("martini",
      VObj [("id", VStr "martini"); ("name", VStr "Martini");
            ("base", VArr []); ("profile", VArr []);
            ("sweetness", VStr "balanced"); ("ingredients", VArr []);
            ("method", VStr ""); ("glass", VStr ""); ("garnish", VStr "");
            ("tags", VArr [])]).
Proof. reflexivity. Qed.

Lemma merged_has_defaults (x n : value) :
  is_record n -> has_defaults n -> has_defaults (spread2 x n).
Proof.
  intros Hr Hd. unfold has_defaults in *.
  rewrite !(merge_candidate_wins x n) by
    (try exact Hr; unfold record_fields; simpl; tauto).
  exact Hd.
Qed.

End MinimalUpsert.

(** C1.  The merge of an upsert is shallow and the fields of the
    submitted record win: each of the ten fields of the normalized record
    replaces the stored value, in both handlers, and any other property of
    the stored record stays.  Hence upserting [{ name: "Martini" }] onto a
    stored record with the derived id "martini" leaves at its place a
    record with sweetness "balanced", empty ingredients, base, profile and
    tags, and empty method, glass and garnish, whatever was stored. *)
Theorem minimal_upsert_resets_defaults (H : Host) :
  (forall (raw n x : value) (k : string),
     Batch.normalize raw = Ok n -> In k record_fields ->
     prop k (spread2 x n) = prop k n) /\
  (forall (recipe : value) (slug : string) (n x : value) (k : string),
     Single.normalize recipe = Ok (slug, n) -> In k record_fields ->
     prop k (spread2 x n) = prop k n) /\
  (forall (raw n : value) (kvs : props) (k : string),
     Batch.normalize raw = Ok n -> NoDup (map fst kvs) ->
     ~ In k record_fields ->
     prop k (spread2 (VObj kvs) n) = prop k (VObj kvs)) /\
  (forall (st : Batch.loop_state) (i : nat),
     findIndex (derives_id "martini") (Batch.list_ st) = Ok (Some i) ->
     exists n st',
       Batch.normalize (named_only "Martini") = Ok n /\
       Batch.upsert (named_only "Martini") st = Ok st' /\
       nth i (Batch.list_ st') VUndef = spread2 (nth i (Batch.list_ st) VUndef) n /\
       has_defaults (nth i (Batch.list_ st') VUndef)) /\
  (forall (l : list value) (i : nat),
     findIndex (Single.same_id "martini") l = Ok (Some i) ->
     exists n l',
       Single.normalize (named_only "Martini") = Ok ("martini", n) /\
       Single.upsert "martini" n l = Ok (l', true) /\
       nth i l' VUndef = spread2 (nth i l VUndef) n /\
       has_defaults (nth i l' VUndef)).
Proof.
  repeat split.
  - intros raw n x k Hn Hk.
    apply merge_candidate_wins; [exact (batch_normalize_record _ _ Hn) | exact Hk].
  - intros recipe slug n x k Hn Hk.
    apply merge_candidate_wins; [exact (single_normalize_record _ _ _ Hn) | exact Hk].
  - intros raw n kvs k Hn Hd Hk.
    apply merge_keeps_other; [exact (batch_normalize_record _ _ Hn) | exact Hd | exact Hk].
  - intros st i Hf. pose proof (findIndex_bound _ _ _ Hf) as Hi.
    eexists; eexists. split; [exact batch_normalize_martini|].
    unfold Batch.upsert. rewrite batch_normalize_martini. cbn [bind].
    change (findIndex _ (Batch.list_ st))
      with (findIndex (derives_id "martini") (Batch.list_ st)).
    rewrite Hf. cbn [bind Batch.list_]. split; [reflexivity|].
    cbn [Batch.list_]. rewrite (nth_replace_at _ _ _ Hi). split; [reflexivity|].
    apply merged_has_defaults.
    + exact (batch_normalize_record _ _ batch_normalize_martini).
    + repeat split.
  - intros l i Hf. pose proof (findIndex_bound _ _ _ Hf) as Hi.
    eexists; eexists. split; [exact single_normalize_martini|].
    unfold Single.upsert. rewrite Hf. cbn [bind]. split; [reflexivity|].
    cbn [fst]. rewrite (nth_replace_at _ _ _ Hi). split; [reflexivity|].
    apply merged_has_defaults.
    + exact (single_normalize_record _ _ _ single_normalize_martini).
    + repeat split.
Qed.

Lemma minimal_upsert_resets_defaults_witness :
  (exists n,
     Batch.normalize (H := sample_host) Samples.minimal_martini = Ok n /\
     prop "sweetness" (spread2 Samples.stored_martini n) = prop "sweetness" n /\
     prop "rating" (spread2 Samples.stored_martini n) =
       prop "rating" Samples.stored_martini) /\
  (exists n,
     Single.normalize (H := sample_host) Samples.minimal_martini = Ok ("martini", n) /\
     prop "glass" (spread2 Samples.stored_martini n) = prop "glass" n) /\
  (exists st',
     Batch.upsert (H := sample_host) (named_only "Martini")
       (Samples.loop_on [Samples.stored_martini]) = Ok st' /\
     has_defaults (nth 0 (Batch.list_ st') VUndef)) /\
  (exists n l',
     Single.upsert (H := sample_host) "martini" n [Samples.stored_martini]
       = Ok (l', true) /\
     has_defaults (nth 0 l' VUndef)).
Proof.
  destruct (minimal_upsert_resets_defaults sample_host)
    as (Hb & Hs & Hk & Hbu & Hsu).
  split; [|split; [|split]].
  - eexists. split; [reflexivity|]. split.
    + apply (Hb Samples.minimal_martini); [reflexivity | simpl; tauto].
    + apply (Hk Samples.minimal_martini); [reflexivity | |].
      * repeat (constructor; [simpl; intuition discriminate|]). constructor.
      * simpl. intuition discriminate.
  - eexists. split; [reflexivity|].
    apply (Hs Samples.minimal_martini "martini"); [reflexivity | simpl; tauto].
  - destruct (Hbu (Samples.loop_on [Samples.stored_martini]) 0 eq_refl)
      as (n & st' & _ & Hu & _ & Hd).
    exists st'. split; assumption.
  - destruct (Hsu [Samples.stored_martini] 0 eq_refl)
      as (n & l' & _ & Hu & _ & Hd).
    exists n, l'. split; assumption.
Defined.

(** ** One record for each id *)

Section Identity_facts.
Context {H : Host}.

Lemma findId_object (kvs : props) :
  Batch.findId (VObj kvs) =
  if truthy (prop "id" (VObj kvs)) then Ok (prop "id" (VObj kvs))
  else (s <- Batch.slug (prop "name" (VObj kvs)) ;; Ok (VStr s)).
Proof.
  unfold Batch.findId. cbn [get_field bind]. now rewrite slug_or_else.
Qed.

(** The id a record was normalized with is the id it is found by, also
    after it was merged into a stored record. *)
Lemma findId_normalized (raw n : value) :
  Batch.normalize raw = Ok n ->
  Batch.findId n = Ok (prop "id" n) /\
  forall x, Batch.findId (spread2 x n) = Ok (prop "id" n).
Proof.
  intros E. pose proof (batch_normalize_record _ _ E) as Hr.
  apply normalize_inv in E. destruct E as (ia & i & b & _ & Hi & _ & Hn).
  assert (Ei : (if truthy i then Ok i
                else (s <- Batch.slug (prop "name" raw) ;; Ok (VStr s))) = Ok i).
  { destruct (truthy (prop "id" raw)) eqn:Et.
    - inversion Hi; subst i. now rewrite Et.
    - destruct (truthy i); [reflexivity | exact Hi]. }
  assert (Hid : prop "id" n = i) by now subst n.
  assert (Hnm : prop "name" n = prop "name" raw) by now subst n.
  split.
  - rewrite Hn at 1. rewrite findId_object, <- Hn, Hid, Hnm. exact Ei.
  - intros x. unfold spread2. rewrite findId_object. fold (spread2 x n).
    rewrite !(merge_candidate_wins x n) by
      (try exact Hr; unfold record_fields; simpl; tauto).
    rewrite Hid, Hnm. exact Ei.
Qed.

Lemma has_id_derives (s : string) (x : value) (b : bool) :
  derives_id s x = Ok b -> has_id s x = b.
Proof.
  unfold derives_id, has_id. destruct (Batch.findId x); simpl; [|discriminate].
  now intros [= ->].
Qed.

Lemma has_id_found (s : string) (x v : value) :
  Batch.findId x = Ok v -> has_id s x = strict_eq v (VStr s).
Proof. unfold has_id. now intros ->. Qed.

(** A record found for another id is not a record of the id [s]. *)
Lemma has_id_other (s : string) (x id : value) :
  strict_eq id (VStr s) = false ->
  (fid <- Batch.findId x ;; Ok (strict_eq fid id)) = Ok true ->
  has_id s x = false.
Proof.
  intros Hs E. bind_inv E. inversion E as [Heq].
  rewrite (has_id_found s x a Ha).
  destruct (strict_eq a (VStr s)) eqn:Ea; [|reflexivity].
  apply strict_eq_string in Ea. subst a.
  destruct id; simpl in Heq; try discriminate.
  simpl in Hs. rewrite String.eqb_sym in Hs. congruence.
Qed.

Lemma findIndex_some (pred : value -> exc bool) (l : list value) (i : nat) :
  findIndex pred l = Ok (Some i) ->
  exists pre x post,
    l = pre ++ x :: post /\ length pre = i /\ pred x = Ok true /\
    Forall (fun y => pred y = Ok false) pre.
Proof.
  revert i. induction l as [|x r IH]; simpl; intros i E; [discriminate|].
  bind_inv E. destruct a.
  - inversion E; subst. exists [], x, r. repeat split; auto.
  - bind_inv E. destruct a as [j|]; inversion E; subst.
    destruct (IH j Ha0) as (pre & y & post & -> & Hl & Hy & Hp).
    exists (x :: pre), y, post. repeat split; simpl; auto.
Qed.

Lemma findIndex_none (pred : value -> exc bool) (l : list value) :
  findIndex pred l = Ok None -> Forall (fun y => pred y = Ok false) l.
Proof.
  induction l as [|x r IH]; simpl; intros E; [constructor|].
  bind_inv E. destruct a; [discriminate|].
  bind_inv E. destruct a; [discriminate|]. constructor; auto.
Qed.

Lemma replace_at_middle (pre post : list value) (x v : value) :
  replace_at (length pre) v (pre ++ x :: post) = pre ++ v :: post /\
  nth (length pre) (pre ++ x :: post) VUndef = x.
Proof.
  induction pre as [|y pre [IH1 IH2]]; simpl; [now split|].
  now rewrite IH1, IH2.
Qed.

Lemma filter_none (f : value -> bool) (l : list value) :
  Forall (fun y => f y = false) l -> filter f l = [].
Proof.
  induction 1 as [|y l Hy _ IH]; simpl; [reflexivity|]. now rewrite Hy.
Qed.

(** One turn of the loop, seen from the id [s]: the records of that id
    stay as they are when the input has another id; otherwise, when there
    was at most one, there is exactly one now, and it has the fields of
    the input. *)
Lemma upsert_step (s : string) (raw n : value) (st st' : Batch.loop_state) :
  Batch.normalize raw = Ok n ->
  Batch.upsert raw st = Ok st' ->
  (strict_eq (prop "id" n) (VStr s) = false ->
   filter (has_id s) (Batch.list_ st') = filter (has_id s) (Batch.list_ st)) /\
  (prop "id" n = VStr s ->
   length (filter (has_id s) (Batch.list_ st)) <= 1 ->
   exists y, filter (has_id s) (Batch.list_ st') = [y] /\
             forall k, In k record_fields -> prop k y = prop k n).
Proof.
  intros Hn Hu. apply upsert_inv in Hu.
  destruct Hu as (n' & idx & Hn' & Hf & ->).
  rewrite Hn in Hn'. inversion Hn'; subst n'. clear Hn'.
  destruct (findId_normalized _ _ Hn) as [Hfn Hfm].
  pose proof (batch_normalize_record _ _ Hn) as Hr.
  cbn [Batch.list_]. destruct idx as [i|].
  - apply findIndex_some in Hf.
    destruct Hf as (pre & x & post & Hl & Hi & Hx & Hpre). subst i.
    rewrite Hl. rewrite (proj2 (replace_at_middle pre post x VUndef)).
    rewrite (proj1 (replace_at_middle pre post x (spread2 x n))).
    rewrite !filter_app. cbn [filter]. split.
    + intros Hs.
      rewrite (has_id_other s x _ Hs Hx).
      now rewrite (has_id_found s _ _ (Hfm x)), Hs.
    + intros Hid Hone. unfold matches in Hx, Hpre. rewrite Hid in Hx, Hpre.
      rewrite (has_id_found s _ _ (Hfm x)), Hid.
      rewrite (proj2 (strict_eq_string (VStr s) s) eq_refl).
      assert (Ep : filter (has_id s) pre = []).
      { apply filter_none. eapply Forall_impl; [|exact Hpre].
        intros y Hy. exact (has_id_derives s y false Hy). }
      rewrite Ep in Hone. cbn [app] in Hone.
      rewrite (has_id_derives s x true Hx) in Hone. simpl in Hone.
      rewrite Ep. destruct (filter (has_id s) post); [|simpl in Hone; lia].
      exists (spread2 x n). split; [reflexivity|].
      intros k Hk. now apply merge_candidate_wins.
  - apply findIndex_none in Hf. rewrite filter_app. cbn [filter].
    rewrite (has_id_found s _ _ Hfn). split.
    + intros ->. now rewrite app_nil_r.
    + intros Hid _. unfold matches in Hf. rewrite Hid in *.
      rewrite (proj2 (strict_eq_string (VStr s) s) eq_refl).
      rewrite filter_none; [now exists n|].
      eapply Forall_impl; [|exact Hf].
      intros y Hy. exact (has_id_derives s y false Hy).
Qed.

End Identity_facts.

Section Batches.
Context {H : Host}.

Lemma upsert_loop_app (pre rest : list value) (st : Batch.loop_state) :
  Batch.upsert_loop (pre ++ rest) st =
  (st1 <- Batch.upsert_loop pre st ;; Batch.upsert_loop rest st1).
Proof.
  revert st. induction pre as [|raw pre IH]; intro st; simpl; [reflexivity|].
  destruct (Batch.usable raw); [|apply IH].
  destruct (Batch.upsert raw st); simpl; [apply IH | reflexivity].
Qed.

(** The loop never makes a second record for an id. *)
Lemma loop_keeps_at_most_one (s : string) (incoming : list value) :
  forall st st' : Batch.loop_state,
    Batch.upsert_loop incoming st = Ok st' ->
    length (filter (has_id s) (Batch.list_ st)) <= 1 ->
    length (filter (has_id s) (Batch.list_ st')) <= 1.
Proof.
  induction incoming as [|raw rest IH]; simpl; intros st st' E Hone.
  - now inversion E; subst.
  - destruct (Batch.usable raw); [|now apply (IH st)].
    bind_inv E. apply (IH a _ E).
    destruct (upsert_inv _ _ _ Ha) as (n & idx & Hn & _).
    destruct (upsert_step s raw n st a Hn Ha) as [Hother Hsame].
    destruct (strict_eq (prop "id" n) (VStr s)) eqn:Es.
    + apply strict_eq_string in Es. destruct (Hsame Es Hone) as (y & -> & _).
      simpl. lia.
    + now rewrite (Hother eq_refl).
Qed.

(** Inputs of other ids leave the records of the id [s] alone. *)
Lemma loop_other_ids (s : string) (incoming : list value) :
  forall st st' : Batch.loop_state,
    Forall (fun raw => submits_id s raw = false) incoming ->
    Batch.upsert_loop incoming st = Ok st' ->
    filter (has_id s) (Batch.list_ st') = filter (has_id s) (Batch.list_ st).
Proof.
  induction incoming as [|raw rest IH]; simpl; intros st st' Hall E.
  - now inversion E; subst.
  - inversion Hall as [|? ? Hraw Hrest]; subst.
    destruct (Batch.usable raw) eqn:Eu; [|now apply IH].
    bind_inv E. rewrite (IH a st' Hrest E).
    destruct (upsert_inv _ _ _ Ha) as (n & idx & Hn & _).
    apply (upsert_step s raw n st a Hn Ha).
    unfold submits_id in Hraw. now rewrite Eu, Hn in Hraw.
Qed.

(** The last input of the id [s] decides the record of that id. *)
Lemma loop_last_wins (s : string) (pre post : list value) (raw n : value)
    (st st' : Batch.loop_state) :
  length (filter (has_id s) (Batch.list_ st)) <= 1 ->
  Batch.usable raw = true ->
  Batch.normalize raw = Ok n ->
  prop "id" n = VStr s ->
  Forall (fun r => submits_id s r = false) post ->
  Batch.upsert_loop (pre ++ raw :: post) st = Ok st' ->
  exists y, filter (has_id s) (Batch.list_ st') = [y] /\
            forall k, In k record_fields -> prop k y = prop k n.
Proof.
  intros Hone Hu Hn Hid Hpost E.
  rewrite upsert_loop_app in E. bind_inv E.
  pose proof (loop_keeps_at_most_one s pre st a Ha Hone) as Hone'.
  simpl in E. rewrite Hu in E. bind_inv E.
  destruct (upsert_step s raw n a a0 Hn Ha0) as [_ Hsame].
  destruct (Hsame Hid Hone') as (y & Hy & Hk).
  exists y. split; [|exact Hk].
  now rewrite (loop_other_ids s post a0 st' Hpost E).
Qed.

Lemma sort_insert_perm (x : value) (l l' : list value) :
  sort_insert x l = Ok l' -> Permutation (x :: l) l'.
Proof.
  revert l'. induction l as [|y r IH]; simpl; intros l' E.
  - inversion E. apply Permutation_refl.
  - bind_inv E. destruct (a <? 0)%Z.
    + inversion E. apply Permutation_refl.
    + bind_inv E. inversion E; subst.
      eapply perm_trans; [apply perm_swap|]. apply perm_skip. now apply IH.
Qed.

Lemma sort_fold_perm (l acc l' : list value) :
  fold_left (fun acc x => sorted <- acc ;; sort_insert x sorted) l (Ok acc) = Ok l' ->
  Permutation (l ++ acc) l'.
Proof.
  revert acc. induction l as [|x r IH]; simpl; intros acc E.
  - inversion E. apply Permutation_refl.
  - destruct (sort_insert x acc) as [acc'|] eqn:Ei.
    + apply IH in E. eapply perm_trans; [|exact E].
      apply Permutation_sym. eapply perm_trans.
      * apply Permutation_app_head. apply Permutation_sym.
        exact (sort_insert_perm _ _ _ Ei).
      * apply Permutation_sym. apply Permutation_middle.
    + exfalso. clear -E. induction r as [|z r IHr]; simpl in E;
        [discriminate | auto].
Qed.

(** The sort returns the records it was given. *)
Lemma sort_by_name_perm (l l' : list value) :
  sort_by_name l = Ok l' -> Permutation l l'.
Proof.
  intros E. apply sort_fold_perm in E. now rewrite app_nil_r in E.
Qed.

Lemma filter_perm (f : value -> bool) (l l' : list value) :
  Permutation l l' -> Permutation (filter f l) (filter f l').
Proof.
  induction 1 as [|x l l' _ IH|x y l|l l' l'' _ IH1 _ IH2]; simpl.
  - constructor.
  - destruct (f x); [now constructor | exact IH].
  - destruct (f x), (f y); try apply Permutation_refl. apply perm_swap.
  - eapply perm_trans; eassumption.
Qed.

End Batches.

(** C7.  "Dry Martini" and "Dry, Martini!" have the same slug.  When a
    batch holds two usable recipes normalized with the same id [s], the
    second being the last input of that id, and the stored collection has
    at most one record of the id [s], then after the loop, and after the
    sort, the collection has exactly one record of that id, and each of
    its ten fields has the value of the second recipe. *)
Theorem later_duplicate_wins (H : Host) :
  (Batch.slug (VStr "Dry Martini") = Ok "dry-martini" /\
   Batch.slug (VStr "Dry, Martini!") = Ok "dry-martini") /\
  (forall (s : string) (pre mid post : list value) (r1 r2 n1 n2 : value)
          (st st' : Batch.loop_state),
     count_id s (Batch.list_ st) <= 1 ->
     Batch.usable r1 = true -> Batch.normalize r1 = Ok n1 ->
     prop "id" n1 = VStr s ->
     Batch.usable r2 = true -> Batch.normalize r2 = Ok n2 ->
     prop "id" n2 = VStr s ->
     Forall (fun r => submits_id s r = false) post ->
     Batch.upsert_loop (pre ++ r1 :: mid ++ r2 :: post) st = Ok st' ->
     exists y,
       filter (has_id s) (Batch.list_ st') = [y] /\
       (forall k, In k record_fields -> prop k y = prop k n2) /\
       (forall sorted, sort_by_name (Batch.list_ st') = Ok sorted ->
                       filter (has_id s) sorted = [y])).
Proof.
  split; [split; reflexivity|].
  intros s pre mid post r1 r2 n1 n2 st st' Hone _ _ _ Hu Hn Hid Hpost E.
  replace (pre ++ r1 :: mid ++ r2 :: post)
    with ((pre ++ r1 :: mid) ++ r2 :: post) in E
    by now rewrite <- app_assoc.
  destruct (loop_last_wins s _ post r2 n2 st st' Hone Hu Hn Hid Hpost E)
    as (y & Hy & Hk).
  exists y. repeat split; [exact Hy | exact Hk |].
  intros sorted Hs. apply sort_by_name_perm in Hs.
  apply (filter_perm (has_id s)) in Hs. rewrite Hy in Hs.
  now apply Permutation_length_1_inv.
Qed.

Lemma later_duplicate_wins_witness :
  exists st' y sorted,
    Batch.upsert_loop (H := sample_host)
      [Samples.dry_martini_1; Samples.raw_gimlet; Samples.dry_martini_2]
      (Samples.loop_on [Samples.stored_martini]) = Ok st' /\
    filter (has_id "dry-martini") (Batch.list_ st') = [y] /\
    prop "glass" y = VStr "rocks" /\
    sort_by_name (Batch.list_ st') = Ok sorted /\
    filter (has_id "dry-martini") sorted = [y].
Proof.
  destruct (proj2 (later_duplicate_wins sample_host) "dry-martini"
              [] [Samples.raw_gimlet] []
              Samples.dry_martini_1 Samples.dry_martini_2 _ _
              (Samples.loop_on [Samples.stored_martini]) _
              (le_0_n 1) eq_refl eq_refl eq_refl eq_refl eq_refl eq_refl
              (Forall_nil _) eq_refl)
    as (y & Hy & Hk & Hs).
  eexists. exists y. eexists. split; [reflexivity|].
  split; [exact Hy|]. split; [|split; [reflexivity|]].
  - rewrite (Hk "glass"); [reflexivity | simpl; tauto].
  - apply Hs. reflexivity.
Defined.

(** * Further properties of the code *)

(** ** Slugs *)

Lemma slug_char_lower (c : ascii) :
  is_alnum c || is_hyphen c = true -> lower_char c = c.
Proof. each_char c; vm_compute; congruence. Qed.

Lemma slug_char_not_space (c : ascii) :
  is_alnum c || is_hyphen c = true -> is_space c = false.
Proof. each_char c; vm_compute; congruence. Qed.

Lemma hyphen_char (c : ascii) : is_hyphen c = true -> c = "-"%char.
Proof. each_char c; vm_compute; congruence. Qed.

(** Inside a run, [replace_runs] begins with a letter or digit. *)
Lemma replace_runs_true_alnum (s : string) :
  match replace_runs true s with
  | EmptyString => True
  | String c _ => is_alnum c = true
  end.
Proof.
  induction s as [|c r IH]; simpl; [exact I|].
  destruct (is_alnum c) eqn:E; [exact E | exact IH].
Qed.

Lemma slug_tail_stripped (s : string) (b : bool) :
  slug_tail (strip_last_hyphen (replace_runs b s)) = true.
Proof.
  revert b. induction s as [|c r IH]; intro b; [reflexivity|].
  cbn [replace_runs]. destruct (is_alnum c) eqn:Ea.
  - rewrite strip_last_cons_other by now apply alnum_not_hyphen.
    cbn [slug_tail]. rewrite Ea. apply IH.
  - destruct b; [apply IH|].
    specialize (IH true). pose proof (replace_runs_true_alnum r) as Hh.
    destruct (replace_runs true r) as [|d t]; [reflexivity|].
    rewrite strip_last_cons by discriminate.
    rewrite strip_last_cons_other in * by now apply alnum_not_hyphen.
    cbn [slug_tail] in *. rewrite Hh in *. exact IH.
Qed.

Lemma slug_chain_is_slug (s : string) : is_slug (Batch.slug_chain s) = true.
Proof.
  unfold Batch.slug_chain, strip_edge_hyphens, is_slug.
  rewrite strip_first_replace_runs, slug_tail_stripped. simpl.
  pose proof (replace_runs_true_alnum (trim (toLowerCase s))) as Hh.
  destruct (replace_runs true (trim (toLowerCase s))) as [|d t]; [reflexivity|].
  rewrite strip_last_cons_other by now apply alnum_not_hyphen.
  now rewrite (alnum_not_hyphen _ Hh).
Qed.

Lemma slug_tail_chars (t : string) :
  slug_tail t = true ->
  toLowerCase t = t /\ trimEnd t = t /\ replace_runs false t = t /\
  strip_last_hyphen t = t.
Proof.
  induction t as [|c r IH]; [now repeat split|]. cbn [slug_tail].
  destruct (is_alnum c) eqn:Ea.
  - intros Hr. destruct (IH Hr) as (Hl & Ht & Hrr & Hs).
    assert (Hc : is_alnum c || is_hyphen c = true) by now rewrite Ea.
    repeat split.
    + simpl. now rewrite (slug_char_lower _ Hc), Hl.
    + simpl. rewrite Ht, (slug_char_not_space _ Hc). now destruct r.
    + simpl. now rewrite Ea, Hrr.
    + rewrite strip_last_cons_other by now apply alnum_not_hyphen.
      now rewrite Hs.
  - intros Hr. apply andb_true_iff in Hr. destruct Hr as [Hh Hr].
    destruct r as [|d r']; [discriminate|].
    apply andb_true_iff in Hr. destruct Hr as [Hd Hr].
    destruct (IH Hr) as (Hl & Ht & Hrr & Hs).
    assert (Hc : is_alnum c || is_hyphen c = true) by now rewrite Hh, orb_true_r.
    repeat split.
    + cbn [toLowerCase] in *. now rewrite (slug_char_lower _ Hc), Hl.
    + change (trimEnd (String c (String d r'))) with
        (match trimEnd (String d r') with
         | EmptyString => if is_space c then EmptyString else String c EmptyString
         | x => String c x
         end).
      now rewrite Ht.
    + cbn [replace_runs] in *. rewrite Ea, Hd in *.
      rewrite (hyphen_char _ Hh). congruence.
    + rewrite strip_last_cons by discriminate. now rewrite Hs.
Qed.

(** A string in slug form is its own slug. *)
Lemma slug_chain_fixed (t : string) : is_slug t = true -> Batch.slug_chain t = t.
Proof.
  unfold is_slug. intros Ht. apply andb_true_iff in Ht. destruct Ht as [Ht Hh].
  destruct (slug_tail_chars t Ht) as (Hl & He & Hrr & Hs).
  unfold Batch.slug_chain, strip_edge_hyphens, trim. rewrite Hl.
  assert (Hst : trimStart t = t).
  { destruct t as [|c r]; [reflexivity|]. simpl.
    assert (Hc : is_alnum c || is_hyphen c = true).
    { cbn [slug_tail] in Ht. destruct (is_alnum c); [reflexivity|].
      apply andb_true_iff in Ht. now rewrite (proj1 Ht). }
    now rewrite (slug_char_not_space _ Hc). }
  rewrite Hst, He, Hrr.
  assert (Hsf : strip_first_hyphen t = t).
  { destruct t as [|c r]; [reflexivity|]. simpl.
    now destruct (is_hyphen c). }
  now rewrite Hsf, Hs.
Qed.

(** X1.  The slug computed by either handler is always in slug form: only
    the characters a-z, 0-9 and the hyphen occur in it, it neither begins
    nor ends with a hyphen, and it has no two hyphens in a row. *)
Theorem slug_is_in_slug_form (s : string) :
  is_slug (Batch.slug_chain s) = true /\
  is_slug (Single.slugify_chain s) = true.
Proof.
  split; [|rewrite slugify_chain_slug_chain]; apply slug_chain_is_slug.
Qed.

(** X2.  Taking the slug of a slug changes nothing, in both handlers. *)
Theorem slug_idempotent (s : string) :
  Batch.slug_chain (Batch.slug_chain s) = Batch.slug_chain s /\
  Single.slugify_chain (Single.slugify_chain s) = Single.slugify_chain s.
Proof.
  rewrite !slugify_chain_slug_chain.
  split; apply slug_chain_fixed, slug_chain_is_slug.
Qed.

Lemma replace_runs_true_empty (s : string) :
  replace_runs true s = EmptyString <-> some_char is_alnum s = false.
Proof.
  induction s as [|c r IH]; simpl; [tauto|].
  destruct (is_alnum c); simpl; [split; discriminate | exact IH].
Qed.

Lemma strip_last_empty (s : string) :
  strip_last_hyphen (replace_runs true s) = EmptyString <->
  replace_runs true s = EmptyString.
Proof.
  pose proof (replace_runs_true_alnum s) as Hh.
  destruct (replace_runs true s) as [|d t]; [tauto|].
  rewrite strip_last_cons_other by now apply alnum_not_hyphen.
  split; discriminate.
Qed.

Lemma some_alnum_trimStart (s : string) :
  some_char is_alnum (trimStart s) = some_char is_alnum s.
Proof.
  induction s as [|c r IH]; [reflexivity|]. simpl.
  destruct (is_space c) eqn:E; [|reflexivity].
  now rewrite (space_not_alnum _ E).
Qed.

Lemma some_alnum_trimEnd (s : string) :
  some_char is_alnum (trimEnd s) = some_char is_alnum s.
Proof.
  induction s as [|c r IH]; [reflexivity|].
  change (trimEnd (String c r)) with
    (match trimEnd r with
     | EmptyString => if is_space c then EmptyString else String c EmptyString
     | x => String c x
     end).
  cbn [some_char]. rewrite <- IH.
  destruct (trimEnd r) as [|d t]; [|reflexivity].
  destruct (is_space c) eqn:E; simpl; [|now rewrite orb_false_r].
  now rewrite (space_not_alnum _ E).
Qed.

Lemma slug_chain_empty (s : string) :
  Batch.slug_chain s = EmptyString <->
  some_char is_alnum (toLowerCase s) = false.
Proof.
  unfold Batch.slug_chain, strip_edge_hyphens, trim.
  rewrite strip_first_replace_runs, strip_last_empty, replace_runs_true_empty.
  now rewrite some_alnum_trimEnd, some_alnum_trimStart.
Qed.

(** X3.  The slug is empty exactly when the lowercased name has no
    character in a-z or 0-9.  In the batch handler a recipe without id
    whose name is such a string is normalized with the empty id. *)
Theorem slug_empty_iff_no_letter_or_digit (H : Host) :
  (forall s : string,
     (Batch.slug_chain s = "" <-> some_char is_alnum (toLowerCase s) = false) /\
     (Single.slugify_chain s = "" <-> some_char is_alnum (toLowerCase s) = false)) /\
  (forall (raw n : value) (s : string),
     truthy (prop "id" raw) = false ->
     prop "name" raw = VStr s ->
     some_char is_alnum (toLowerCase s) = false ->
     Batch.normalize raw = Ok n ->
     prop "id" n = VStr "").
Proof.
  split.
  - intros s. rewrite slugify_chain_slug_chain. split; apply slug_chain_empty.
  - intros raw n s Hid Hn Hs E. apply normalize_inv in E.
    destruct E as (ia & i & b & _ & Hi & _ & ->).
    rewrite Hid, Hn, slug_string in Hi. simpl in Hi. inversion Hi; subst i.
    simpl. f_equal. now apply slug_chain_empty.
Qed.

Lemma slug_empty_iff_no_letter_or_digit_witness :
  Batch.slug_chain "!!!" = "" /\
  exists n, Batch.normalize (H := sample_host) Fixtures.punctuation_only = Ok n /\
            prop "id" n = VStr "".
Proof.
  split.
  - apply (proj1 (slug_empty_iff_no_letter_or_digit sample_host) "!!!").
    reflexivity.
  - eexists. split; [reflexivity|].
    apply (proj2 (slug_empty_iff_no_letter_or_digit sample_host)
             Fixtures.punctuation_only _ "!!!"); reflexivity.
Defined.

(** ** Shape of the normalized record *)

Section NormalizedShape.
Context {H : Host}.

Lemma map_exc_all {A : Type} (f : A -> exc value) (p : value -> bool)
    (l : list A) (l' : list value) :
  (forall x y, f x = Ok y -> p y = true) ->
  map_exc f l = Ok l' -> forallb p l' = true.
Proof.
  intros Hf. revert l'. induction l as [|x r IH]; simpl; intros l' E.
  - now inversion E.
  - bind_inv E. bind_inv E. inversion E; subst. simpl.
    now rewrite (Hf _ _ Ha), (IH _ Ha0).
Qed.

Lemma map_value_all (f : value -> exc value) (p : value -> bool) (x y : value) :
  (forall a b, f a = Ok b -> p b = true) ->
  Batch.map_value f x = Ok y -> array_of p y = true.
Proof.
  intros Hf. destruct x; simpl; try discriminate. intros E.
  bind_inv E. inversion E; subst. simpl. exact (map_exc_all f p _ _ Hf Ha).
Qed.

Lemma or_else_truthy_or_empty (x : value) :
  truthy_or_empty (or_else x (VStr "")) = true.
Proof.
  unfold truthy_or_empty, or_else. destruct (truthy x) eqn:E.
  - now rewrite E.
  - reflexivity.
Qed.

Lemma lower_string_lower (a b : value) :
  Batch.lower_string a = Ok b -> is_lower_string b = true.
Proof.
  unfold Batch.lower_string. intros E. bind_inv E. inversion E; subst.
  simpl. rewrite toLowerCase_idempotent. apply String.eqb_refl.
Qed.

Lemma truthy_or_empty_string (s : string) : truthy_or_empty (VStr s) = true.
Proof. unfold truthy_or_empty. simpl. now destruct (String.eqb s ""). Qed.

Lemma normalize_ingredient_pair_shape (a b : value) :
  Batch.normalize_ingredient a = Ok b -> is_pair b = true.
Proof.
  assert (Hs : forall v, (str <- to_string (or_else v (VStr "")) ;;
                          Ok (VArr [VStr ""; VStr str])) = Ok b ->
                         is_pair b = true).
  { intros v E. bind_inv E. inversion E; subst. simpl.
    now rewrite truthy_or_empty_string. }
  destruct a; try exact (Hs _);
    simpl; intros E; inversion E; subst; simpl;
    now rewrite !or_else_truthy_or_empty.
Qed.

Lemma ingredient_pair_array (a b : value) :
  Single.ingredient_pair a = Ok b -> is_array b = true.
Proof.
  unfold Single.ingredient_pair. destruct (is_array a) eqn:Ea.
  - now intros [= <-].
  - intros E. bind_inv E. bind_inv E. now inversion E.
Qed.

Lemma to_string_primitive (v : value) :
  primitive v = true -> exists s, to_string v = Ok s.
Proof. destruct v; simpl; try discriminate; eauto. Qed.

Lemma or_else_primitive (v d : value) :
  primitive v = true -> primitive d = true -> primitive (or_else v d) = true.
Proof. unfold or_else. now destruct (truthy v). Qed.

(** The callback of [r.ingredients.map] never raises. *)
Lemma normalize_ingredient_total (p : value) :
  exists q, Batch.normalize_ingredient p = Ok q.
Proof.
  assert (Hs : forall v, primitive v = true ->
                         exists q, (str <- to_string (or_else v (VStr "")) ;;
                                    Ok (VArr [VStr ""; VStr str])) = Ok q).
  { intros v Hv.
    destruct (to_string_primitive (or_else v (VStr ""))) as [s Hs];
      [now apply or_else_primitive|].
    rewrite Hs. simpl. eauto. }
  destruct p; simpl; eauto; now apply Hs.
Qed.

Lemma map_exc_total {A B : Type} (f : A -> exc B) (l : list A) :
  (forall x, In x l -> exists y, f x = Ok y) ->
  exists l', map_exc f l = Ok l'.
Proof.
  induction l as [|x r IH]; simpl; intros Hf; [eauto|].
  destruct (Hf x (or_introl eq_refl)) as [y ->].
  destruct IH as [l' ->]; [intros z Hz; apply Hf; now right|].
  simpl. eauto.
Qed.

Lemma lower_string_total (v : value) :
  primitive v = true -> exists q, Batch.lower_string v = Ok q.
Proof.
  intros Hv. unfold Batch.lower_string.
  destruct (to_string_primitive v Hv) as [s ->]. simpl. eauto.
Qed.

End NormalizedShape.

(** X4.  A record normalized by the batch handler has the ten fields, in
    the order of the source, and: the name of the input; [base] an array of
    lowercase strings; [profile] and [tags] arrays; a truthy [sweetness];
    [ingredients] an array of two-element arrays; [method], [glass] and
    [garnish] truthy or the empty string; and, when the input has no truthy
    id, an id that is a string in slug form. *)
Theorem batch_normalized_shape (H : Host) (raw n : value) :
  Batch.normalize raw = Ok n ->
  is_record n /\
  prop "name" n = prop "name" raw /\
  array_of is_lower_string (prop "base" n) = true /\
  is_array (prop "profile" n) = true /\
  truthy (prop "sweetness" n) = true /\
  array_of is_pair (prop "ingredients" n) = true /\
  truthy_or_empty (prop "method" n) = true /\
  truthy_or_empty (prop "glass" n) = true /\
  truthy_or_empty (prop "garnish" n) = true /\
  is_array (prop "tags" n) = true /\
  (truthy (prop "id" raw) = false ->
   exists t, prop "id" n = VStr t /\ is_slug t = true).
Proof.
  intros E. pose proof (batch_normalize_record _ _ E) as Hr.
  apply normalize_inv in E. destruct E as (ia & i & b & Hia & Hi & Hb & ->).
  cbn [prop lookup String.eqb Ascii.eqb Bool.eqb].
  repeat split; try exact Hr; rewrite ?or_else_truthy_or_empty,
    ?as_array_is_array; try reflexivity.
  - exact (map_value_all _ _ _ _ lower_string_lower Hb).
  - unfold or_else. now destruct (truthy (prop "sweetness" raw)) eqn:Es.
  - destruct (is_array (prop "ingredients" raw)).
    + exact (map_value_all _ _ _ _ normalize_ingredient_pair_shape Hia).
    + now inversion Hia.
  - intros Hid. rewrite Hid in Hi. bind_inv Hi. inversion Hi; subst i.
    exists a. split; [reflexivity|].
    unfold Batch.slug in Ha. bind_inv Ha. inversion Ha; subst a.
    apply slug_chain_is_slug.
Qed.

Lemma batch_normalized_shape_witness :
  exists n,
    Batch.normalize (H := sample_host) Samples.raw_gimlet = Ok n /\
    array_of is_lower_string (prop "base" n) = true /\
    array_of is_pair (prop "ingredients" n) = true /\
    is_array (prop "tags" n) = true /\
    exists t, prop "id" n = VStr t /\ is_slug t = true.
Proof.
  eexists. split; [reflexivity|].
  destruct (batch_normalized_shape sample_host Samples.raw_gimlet _ eq_refl)
    as (_ & _ & Hb & _ & _ & Hi & _ & _ & _ & Ht & Hid).
  split; [exact Hb | split; [exact Hi | split; [exact Ht | exact (Hid eq_refl)]]].
Defined.

(** X5.  A record normalized by the single-recipe handler has the ten
    fields, an id that is a string in slug form, the name of the input,
    [base] an array of lowercase strings, [profile] an array, a truthy
    [sweetness] and [ingredients] an array of arrays.  Its [tags] are an
    array when the input's are an array or falsy; a truthy scalar [tags] is
    kept as it is, not wrapped in an array. *)
Theorem single_normalized_shape (H : Host)
    (recipe : value) (slug : string) (n : value) :
  Single.normalize recipe = Ok (slug, n) ->
  is_record n /\
  prop "id" n = VStr slug /\ is_slug slug = true /\
  prop "name" n = prop "name" recipe /\
  array_of is_lower_string (prop "base" n) = true /\
  is_array (prop "profile" n) = true /\
  truthy (prop "sweetness" n) = true /\
  array_of is_array (prop "ingredients" n) = true /\
  (is_array (prop "tags" recipe) = true \/ truthy (prop "tags" recipe) = false ->
   is_array (prop "tags" n) = true) /\
  (truthy (prop "tags" recipe) = true -> prop "tags" n = prop "tags" recipe).
Proof.
  intros E. pose proof (single_normalize_record _ _ _ E) as Hr.
  apply single_normalize_inv in E. destruct E as (b & ia & Hs & Hb & Hia & ->).
  cbn [prop lookup String.eqb Ascii.eqb Bool.eqb].
  repeat split; try exact Hr; rewrite ?as_array_is_array; try reflexivity.
  - unfold Single.slugify in Hs. bind_inv Hs. inversion Hs; subst slug.
    rewrite slugify_chain_slug_chain. apply slug_chain_is_slug.
  - exact (map_value_all _ _ _ _ lower_string_lower Hb).
  - unfold or_else. now destruct (truthy (prop "sweetness" recipe)) eqn:Es.
  - exact (map_value_all _ _ _ _ ingredient_pair_array Hia).
  - unfold or_else. intros [Ha | Hf].
    + now destruct (truthy (prop "tags" recipe)).
    + now rewrite Hf.
  - unfold or_else. now intros ->.
Qed.

Lemma single_normalized_shape_witness :
  exists n,
    Single.normalize (H := sample_host) Samples.raw_gimlet = Ok ("gimlet", n) /\
    is_slug "gimlet" = true /\
    array_of is_array (prop "ingredients" n) = true /\
    prop "tags" n = VStr "classic".
Proof.
  eexists. split; [reflexivity|].
  destruct (single_normalized_shape sample_host Samples.raw_gimlet "gimlet" _
              eq_refl)
    as (_ & _ & Hs & _ & _ & _ & _ & Hi & _ & Ht).
  split; [exact Hs | split; [exact Hi | exact (Ht eq_refl)]].
Defined.

(** X6.  The batch [normalize] raises no exception on an object whose
    [base] is falsy or an array of strings, numbers, booleans or nulls, and
    which has a truthy id or a name that is no array or object: whatever
    its [profile], [ingredients], [tags] and other fields hold. *)
Theorem batch_normalize_succeeds (H : Host) (kvs : props) :
  truthy (prop "base" (VObj kvs)) = false \/
    array_of primitive (prop "base" (VObj kvs)) = true ->
  truthy (prop "id" (VObj kvs)) = true \/
    primitive (prop "name" (VObj kvs)) = true ->
  exists n, Batch.normalize (VObj kvs) = Ok n.
Proof.
  intros Hbase Hid. unfold Batch.normalize. cbn [get_field bind].
  assert (Hi : exists ia,
             (if is_array (prop "ingredients" (VObj kvs))
              then Batch.map_value Batch.normalize_ingredient
                     (prop "ingredients" (VObj kvs))
              else Ok (VArr [])) = Ok ia).
  { destruct (prop "ingredients" (VObj kvs)) as [| | | | |l|]; simpl; eauto.
    destruct (map_exc_total Batch.normalize_ingredient l) as [l' ->];
      [intros x _; apply normalize_ingredient_total | simpl; eauto]. }
  destruct Hi as [ia ->]. cbn [bind].
  assert (Hd : exists i,
             (if truthy (prop "id" (VObj kvs)) then Ok (prop "id" (VObj kvs))
              else (s <- Batch.slug (prop "name" (VObj kvs)) ;; Ok (VStr s)))
             = Ok i).
  { destruct (truthy (prop "id" (VObj kvs))) eqn:Et; [eauto|].
    destruct Hid as [Hid | Hid]; [discriminate|]. unfold Batch.slug.
    destruct (to_string_primitive (or_else (prop "name" (VObj kvs)) (VStr "")))
      as [s ->]; [now apply or_else_primitive | simpl; eauto]. }
  destruct Hd as [i ->]. cbn [bind].
  assert (Hb : exists b,
             Batch.map_value Batch.lower_string
               (or_else (prop "base" (VObj kvs)) (VArr [])) = Ok b).
  { unfold or_else. destruct Hbase as [Hf | Ha].
    - rewrite Hf. simpl. eauto.
    - destruct (prop "base" (VObj kvs)) as [| | | | |l|]; try discriminate.
      simpl in Ha. simpl.
      destruct (map_exc_total Batch.lower_string l) as [l' ->]; [|simpl; eauto].
      intros x Hx. apply lower_string_total.
      rewrite forallb_forall in Ha. now apply Ha. }
  destruct Hb as [b ->]. cbn [bind]. eauto.
Qed.

Lemma batch_normalize_succeeds_witness :
  exists n, Batch.normalize (H := sample_host) Samples.raw_gimlet = Ok n.
Proof.
  apply (batch_normalize_succeeds sample_host); [right | right]; reflexivity.
Defined.

(** ** Exceptions inside the handlers *)

Section Exceptions.
Context {H : Host}.

(** A truthy [base] that is no array makes [normalize] raise. *)
Lemma normalize_base_not_array (r : value) :
  truthy (prop "base" r) = true -> is_array (prop "base" r) = false ->
  Batch.normalize r = Throw.
Proof.
  intros Ht Ha. unfold Batch.normalize.
  destruct (get_field "profile" r) as [x|] eqn:E1; [|reflexivity].
  apply get_field_ok in E1. destruct E1 as [_ Hr]. rewrite !Hr. cbn [bind].
  destruct (if is_array (prop "ingredients" r) then _ else _); [|reflexivity].
  cbn [bind].
  destruct (if truthy (prop "id" r) then _ else _); [|reflexivity].
  cbn [bind]. unfold or_else. rewrite Ht.
  destruct (prop "base" r); try discriminate; reflexivity.
Qed.

Lemma single_normalize_base_not_array (r : value) :
  truthy (prop "base" r) = true -> is_array (prop "base" r) = false ->
  Single.normalize r = Throw.
Proof.
  intros Ht Ha. unfold Single.normalize, Single.normalized.
  destruct (Single.slugify (prop "name" r)); [|reflexivity]. cbn [bind].
  unfold or_else at 1. rewrite Ht.
  destruct (prop "base" r); try discriminate; reflexivity.
Qed.

(** One input that makes [normalize] raise makes the whole loop raise. *)
Lemma upsert_loop_throws (incoming : list value) (raw : value) :
  In raw incoming -> Batch.usable raw = true -> Batch.normalize raw = Throw ->
  forall st, Batch.upsert_loop incoming st = Throw.
Proof.
  intros Hin Hu Hn. induction incoming as [|x rest IH]; [destruct Hin|].
  intros st. simpl. destruct Hin as [-> | Hin].
  - rewrite Hu. unfold Batch.upsert. now rewrite Hn.
  - destruct (Batch.usable x); [|now apply IH].
    destruct (Batch.upsert x st); simpl; [now apply IH | reflexivity].
Qed.

Lemma read_merge_write_throws (allowed owner repo path br : string) (w : store)
    (incoming : list value) :
  (forall text, on_get w <> ReadError text) ->
  Batch.upsert_loop incoming (loop_start w) = Throw ->
  Batch.read_merge_write allowed owner repo path br w incoming =
    (Batch.respond allowed 500 (Error "server-error" None),
     [GET owner repo path br]).
Proof.
  intros Hw. unfold Batch.read_merge_write, loop_start.
  destruct (on_get w) as [sha parsed| |text]; cbn [Batch.existing];
    [| |now elim (Hw text)]; now intros ->.
Qed.

End Exceptions.

(** X7.  An input that makes the normalizer raise aborts the whole request:
    when a usable recipe of the batch has a truthy [base] that is not an
    array, the batch handler answers 500 "server-error" after its read and
    commits nothing, whatever the other recipes are.  The single-recipe
    handler answers 500 "server-error" to such a recipe without any access
    to the store. *)
Theorem bad_record_aborts_request (H : Host)
    (e : environment) (w : store) (req : request) :
  method req = "POST" ->
  authorized (supplied_password req) (ADMIN_PASSWORD e) = true ->
  (forall raw,
     Batch.forbidden_origin e req = false ->
     github_config_missing e = false ->
     (forall text, on_get w <> ReadError text) ->
     In raw (Batch.incoming req) ->
     Batch.usable raw = true ->
     truthy (prop "base" raw) = true -> is_array (prop "base" raw) = false ->
     Batch.handler e w req =
       (Batch.respond (env_or (ALLOWED_ORIGIN e) "") 500
          (Error "server-error" None),
        [GET (env_or (GH_OWNER e) "") (env_or (GH_REPO e) "")
             (env_or (GH_FILE e) "custom-recipes.json")
             (env_or (GH_BRANCH e) "main")])) /\
  (Batch.usable (prop "recipe" (request_body req)) = true ->
   truthy (prop "base" (prop "recipe" (request_body req))) = true ->
   is_array (prop "base" (prop "recipe" (request_body req))) = false ->
   Single.handler e w req =
     (Single.respond 500 (Error "server-error" None), [])).
Proof.
  intros Hm Ha. split.
  - intros raw Ho Hc Hw Hin Hu Ht Hb.
    rewrite (batch_handler_authorized e w req Hm Ho Ha), Hc.
    destruct (Batch.incoming req) as [|x rest] eqn:Ei; [destruct Hin|].
    rewrite <- Ei in *. apply read_merge_write_throws; [exact Hw|].
    apply (upsert_loop_throws _ raw Hin Hu).
    now apply normalize_base_not_array.
  - intros Hu Ht Hb. unfold Single.handler.
    destruct (post_is_not_options _ Hm) as [-> ->]. rewrite Ha. cbn [negb].
    unfold Batch.usable in Hu. rewrite <- negb_andb, Hu. cbn [negb].
    now rewrite (single_normalize_base_not_array _ Ht Hb).
Qed.

Lemma bad_record_aborts_request_witness :
  Batch.handler (H := sample_host) Samples.env
      (Samples.store_with [Samples.stored_martini])
      (Fixtures.post_batch [Samples.raw_gimlet; Fixtures.base_as_string]) =
    ({| status := 500; allow_origin := "*";
        sent := Error "server-error" None |},
     [GET "owner" "pages" "custom-recipes.json" "main"]) /\
  Single.handler (H := sample_host) Samples.env
      (Samples.store_with [Samples.stored_martini])
      (Samples.post (Samples.single_body "s3cret" Fixtures.base_as_string)) =
    ({| status := 500; allow_origin := "*";
        sent := Error "server-error" None |}, []).
Proof.
  split.
  - apply (proj1 (bad_record_aborts_request sample_host Samples.env
                    (Samples.store_with [Samples.stored_martini])
                    (Fixtures.post_batch
                       [Samples.raw_gimlet; Fixtures.base_as_string])
                    eq_refl eq_refl) Fixtures.base_as_string);
      try reflexivity.
    + discriminate.
    + right; left; reflexivity.
  - apply (proj2 (bad_record_aborts_request sample_host Samples.env
                    (Samples.store_with [Samples.stored_martini])
                    (Samples.post
                       (Samples.single_body "s3cret" Fixtures.base_as_string))
                    eq_refl eq_refl)); reflexivity.
Defined.

(** ** The answers of the handlers, path by path *)

Section Outcomes.
Context {H : Host}.

Lemma out_of_2xx (st : Z) :
  ((st <? 200) || (300 <=? st))%Z = negb (in_2xx st).
Proof. unfold in_2xx. lia. Qed.

(** The three ways [read_merge_write] of the batch handler ends. *)
Lemma batch_rmw_outcomes (allowed owner repo path br : string) (w : store)
    (incoming : list value) :
  let get := GET owner repo path br in
  let r := Batch.read_merge_write allowed owner repo path br w incoming in
  (exists text, on_get w = ReadError text /\
     r = (Batch.respond allowed 500 (Error "github-read-failed" (Some text)),
          [get])) \/
  ((forall text, on_get w <> ReadError text) /\
   r = (Batch.respond allowed 500 (Error "server-error" None), [get])) \/
  ((forall text, on_get w <> ReadError text) /\
   exists st sorted msg,
     Batch.upsert_loop incoming (loop_start w) = Ok st /\
     sort_by_name (Batch.list_ st) = Ok sorted /\
     Batch.commit_message incoming (Batch.upserted st) = Ok msg /\
     let put := PUT owner repo path
                  {| message := msg; content := sorted; branch := br;
                     commit_sha := sha_property (Batch.fetched_sha (on_get w)) |} in
     r = if in_2xx (put_status w)
         then (Batch.respond allowed 200
                 (Saved (Batch.upserted st) (Batch.upsertIds st)), [get; put])
         else (Batch.respond allowed 500
                 (Error "github-write-failed" (Some (put_text w))), [get; put])).
Proof.
  intros get r. subst get r. unfold Batch.read_merge_write, loop_start.
  destruct (on_get w) as [sha parsed| |text] eqn:Ew;
    cbn [Batch.existing Batch.fetched_sha];
    [| |left; eauto].
  all: right.
  all: destruct (Batch.upsert_loop incoming _) as [st|] eqn:El; cbn [bind];
    [|left; split; [discriminate | reflexivity]].
  all: destruct (sort_by_name (Batch.list_ st)) as [sorted|] eqn:Es; cbn [bind];
    [|left; split; [discriminate | reflexivity]].
  all: destruct (Batch.commit_message incoming (Batch.upserted st)) as [msg|] eqn:Em;
    cbn [bind]; [|left; split; [discriminate | reflexivity]].
  all: right; split; [discriminate|]; exists st, sorted, msg.
  all: do 3 (split; [first [reflexivity | assumption]|]).
  all: cbv zeta; rewrite out_of_2xx; now destruct (in_2xx (put_status w)).
Qed.

(** The batch handler before the store: the answers that end the request
    without any request to the store. *)
Lemma batch_handler_paths (e : environment) (w : store) (req : request) :
  let allowed := env_or (ALLOWED_ORIGIN e) "" in
  (exists st p,
     Batch.handler e w req = (Batch.respond allowed st p, []) /\
     (p = NoBody \/ exists code, p = Error code None)) \/
  (method req = "POST" /\ Batch.forbidden_origin e req = false /\
   authorized (supplied_password req) (ADMIN_PASSWORD e) = true /\
   Batch.incoming req <> [] /\ github_config_missing e = false /\
   Batch.handler e w req =
     Batch.read_merge_write allowed
       (env_or (GH_OWNER e) "") (env_or (GH_REPO e) "")
       (env_or (GH_FILE e) "custom-recipes.json")
       (env_or (GH_BRANCH e) "main") w (Batch.incoming req)).
Proof.
  intros allowed. subst allowed. unfold Batch.handler.
  destruct (String.eqb (method req) "OPTIONS"); [left; eauto 6|].
  destruct (String.eqb_spec (method req) "POST") as [Hm|Hm]; cbn [negb];
    [|left; eauto 6].
  destruct (Batch.forbidden_origin e req); [left; eauto 6|].
  destruct (authorized _ _); cbn [negb]; [|left; eauto 6].
  destruct (Batch.incoming req) eqn:Ei; [left; eauto 6|].
  destruct (github_config_missing e); [left; eauto 6|].
  right. repeat split; try reflexivity; try assumption. discriminate.
Qed.

(** The same for the single-recipe handler. *)
Lemma single_rmw_outcomes (owner repo path br : string) (w : store)
    (slug : string) (n : value) :
  let get := GET owner repo path br in
  let r := Single.read_merge_write owner repo path br w slug n in
  (exists text, on_get w = ReadError text /\
     r = (Single.respond 500 (Error "github-read-failed" (Some text)), [get])) \/
  ((forall text, on_get w <> ReadError text) /\
   r = (Single.respond 500 (Error "server-error" None), [get])) \/
  ((forall text, on_get w <> ReadError text) /\
   exists l found sorted nm,
     Single.upsert slug n (Single.existing (on_get w)) = Ok (l, found) /\
     sort_by_name l = Ok sorted /\
     to_string (prop "name" n) = Ok nm /\
     let put := PUT owner repo path
                  {| message := ((if found then "Update recipe: "
                                  else "Add recipe: ") ++ nm)%string;
                     content := sorted; branch := br;
                     commit_sha := sha_property (Batch.fetched_sha (on_get w)) |} in
     r = if in_2xx (put_status w)
         then (Single.respond 200 (SavedOne slug), [get; put])
         else (Single.respond 500
                 (Error "github-write-failed" (Some (put_text w))), [get; put])).
Proof.
  intros get r. subst get r. unfold Single.read_merge_write.
  destruct (on_get w) as [sha parsed| |text] eqn:Ew;
    cbn [Single.existing Batch.fetched_sha];
    [| |left; eauto].
  all: right.
  all: destruct (Single.upsert slug n _) as [[l found]|] eqn:El; cbn [bind fst snd];
    [|left; split; [discriminate | reflexivity]].
  all: destruct (sort_by_name l) as [sorted|] eqn:Es; cbn [bind];
    [|left; split; [discriminate | reflexivity]].
  all: destruct (to_string (prop "name" n)) as [nm|] eqn:Em;
    cbn [bind]; [|left; split; [discriminate | reflexivity]].
  all: right; split; [discriminate|]; exists l, found, sorted, nm.
  all: do 3 (split; [first [reflexivity | assumption]|]).
  all: cbv zeta; fold (in_2xx (put_status w));
    now destruct (in_2xx (put_status w)).
Qed.

Lemma single_handler_paths (e : environment) (w : store) (req : request) :
  (exists st p,
     Single.handler e w req = (Single.respond st p, []) /\
     (p = NoBody \/ exists code, p = Error code None)) \/
  (method req = "POST" /\
   authorized (supplied_password req) (ADMIN_PASSWORD e) = true /\
   Batch.usable (prop "recipe" (request_body req)) = true /\
   github_config_missing e = false /\
   exists slug n,
     Single.normalize (prop "recipe" (request_body req)) = Ok (slug, n) /\
     Single.handler e w req =
       Single.read_merge_write
         (env_or (GH_OWNER e) "") (env_or (GH_REPO e) "")
         (env_or (GH_FILE e) "custom-recipes.json")
         (env_or (GH_BRANCH e) "main") w slug n).
Proof.
  unfold Single.handler.
  destruct (String.eqb (method req) "OPTIONS"); [left; eauto 6|].
  destruct (String.eqb_spec (method req) "POST") as [Hm|Hm]; cbn [negb];
    [|left; eauto 6].
  destruct (authorized _ _); cbn [negb]; [|left; eauto 6].
  rewrite <- negb_andb. fold (Batch.usable (prop "recipe" (request_body req))).
  destruct (Batch.usable _) eqn:Eu; cbn [negb]; [|left; eauto 6].
  destruct (Single.normalize _) as [[slug n]|] eqn:En; [|left; eauto 6].
  destruct (github_config_missing e); [left; eauto 6|].
  right. repeat split; try reflexivity; try assumption. eauto.
Qed.

End Outcomes.

(** X8.  Whatever the request, each handler makes at most one read and at
    most one write: no request to the store at all, the read of the file
    alone, or the read followed by one commit to the same file of the same
    repository, on the branch that was read.  It never writes without
    having read. *)
Theorem store_access_discipline (H : Host)
    (e : environment) (w : store) (req : request) :
  read_then_write e (snd (Batch.handler e w req)) /\
  read_then_write e (snd (Single.handler e w req)).
Proof.
  unfold read_then_write. split.
  - destruct (batch_handler_paths e w req)
      as [(st & p & -> & _) | (_ & _ & _ & _ & _ & ->)]; [now left|].
    destruct (batch_rmw_outcomes (env_or (ALLOWED_ORIGIN e) "")
                (env_or (GH_OWNER e) "") (env_or (GH_REPO e) "")
                (env_or (GH_FILE e) "custom-recipes.json")
                (env_or (GH_BRANCH e) "main") w (Batch.incoming req))
      as [(text & _ & ->) | [(_ & ->) | (_ & st & sorted & msg & _ & _ & _ & ->)]];
      [right; now left | right; now left |].
    right; right. destruct (in_2xx (put_status w)); simpl; eauto.
  - destruct (single_handler_paths e w req)
      as [(st & p & -> & _) | (_ & _ & _ & _ & slug & n & _ & ->)]; [now left|].
    destruct (single_rmw_outcomes (env_or (GH_OWNER e) "") (env_or (GH_REPO e) "")
                (env_or (GH_FILE e) "custom-recipes.json")
                (env_or (GH_BRANCH e) "main") w slug n)
      as [(text & _ & ->) | [(_ & ->) |
          (_ & l & found & sorted & nm & _ & _ & _ & ->)]];
      [right; now left | right; now left |].
    right; right. destruct (in_2xx (put_status w)); simpl; eauto.
Qed.

Ltac answer_cases :=
  simpl; repeat split; intros;
  repeat match goal with
         | E : exists _, _ |- _ => destruct E
         | E : _ /\ _ |- _ => destruct E
         | E : _ \/ _ |- _ => destruct E
         end;
  try discriminate; eauto.

(** X9.  The answer tells whether a commit request was made.  Each handler
    has sent one exactly when it answers with its success document or with
    "github-write-failed" and the text of the store's answer; it answers
    with the success document, and status 200, exactly when it has sent one
    and the store's status was from 200 to 299. *)
Theorem answer_tells_write (H : Host)
    (e : environment) (w : store) (req : request) :
  (let r := fst (Batch.handler e w req) in
   let ops := snd (Batch.handler e w req) in
   (existsb is_put ops = true <->
    (exists c ids, sent r = Saved c ids) \/
    sent r = Error "github-write-failed" (Some (put_text w))) /\
   ((exists c ids, sent r = Saved c ids) <->
    existsb is_put ops = true /\ in_2xx (put_status w) = true) /\
   ((exists c ids, sent r = Saved c ids) -> status r = 200%Z)) /\
  (let r := fst (Single.handler e w req) in
   let ops := snd (Single.handler e w req) in
   (existsb is_put ops = true <->
    (exists id, sent r = SavedOne id) \/
    sent r = Error "github-write-failed" (Some (put_text w))) /\
   ((exists id, sent r = SavedOne id) <->
    existsb is_put ops = true /\ in_2xx (put_status w) = true) /\
   ((exists id, sent r = SavedOne id) -> status r = 200%Z)).
Proof.
  split; cbv zeta.
  - destruct (batch_handler_paths e w req)
      as [(st & p & -> & Hp) | (_ & _ & _ & _ & _ & ->)].
    { destruct Hp as [-> | [code ->]]; answer_cases. }
    destruct (batch_rmw_outcomes (env_or (ALLOWED_ORIGIN e) "")
                (env_or (GH_OWNER e) "") (env_or (GH_REPO e) "")
                (env_or (GH_FILE e) "custom-recipes.json")
                (env_or (GH_BRANCH e) "main") w (Batch.incoming req))
      as [(text & _ & ->) | [(_ & ->) | (_ & st & sorted & msg & _ & _ & _ & ->)]];
      [answer_cases | answer_cases |].
    destruct (in_2xx (put_status w)); answer_cases.
  - destruct (single_handler_paths e w req)
      as [(st & p & -> & Hp) | (_ & _ & _ & _ & slug & n & _ & ->)].
    { destruct Hp as [-> | [code ->]]; answer_cases. }
    destruct (single_rmw_outcomes (env_or (GH_OWNER e) "") (env_or (GH_REPO e) "")
                (env_or (GH_FILE e) "custom-recipes.json")
                (env_or (GH_BRANCH e) "main") w slug n)
      as [(text & _ & ->) | [(_ & ->) |
          (_ & l & found & sorted & nm & _ & _ & _ & ->)]];
      [answer_cases | answer_cases |].
    destruct (in_2xx (put_status w)); answer_cases.
Qed.


(** ** Headers and gates *)

Section GateFacts.
Context {H : Host}.

Lemma env_or_twice (x : option string) :
  env_or (Some (env_or x "")) "*" = env_or x "*".
Proof.
  destruct x as [s|]; simpl; [|reflexivity].
  destruct (String.eqb_spec s ""); simpl; [reflexivity|].
  destruct (String.eqb_spec s ""); [contradiction | reflexivity].
Qed.

Lemma batch_respond_origin (allowed : option string) (st : Z) (p : payload) :
  allow_origin (Batch.respond (env_or allowed "") st p) = env_or allowed "*".
Proof. unfold Batch.respond. simpl. apply env_or_twice. Qed.

End GateFacts.

(** X10.  Every answer carries the header Access-Control-Allow-Origin, the
    errors and the preflight included: in the batch handler its value is
    the configured ALLOWED_ORIGIN, and "*" when that is unset or empty; in
    the single-recipe handler it is always "*". *)
Theorem cors_header_on_every_answer (H : Host)
    (e : environment) (w : store) (req : request) :
  allow_origin (fst (Batch.handler e w req)) = env_or (ALLOWED_ORIGIN e) "*" /\
  allow_origin (fst (Single.handler e w req)) = "*".
Proof.
  split.
  - destruct (batch_handler_paths e w req)
      as [(st & p & -> & _) | (_ & _ & _ & _ & _ & ->)];
      [apply batch_respond_origin|].
    destruct (batch_rmw_outcomes (env_or (ALLOWED_ORIGIN e) "")
                (env_or (GH_OWNER e) "") (env_or (GH_REPO e) "")
                (env_or (GH_FILE e) "custom-recipes.json")
                (env_or (GH_BRANCH e) "main") w (Batch.incoming req))
      as [(text & _ & ->) | [(_ & ->) | (_ & st & sorted & msg & _ & _ & _ & ->)]];
      try apply batch_respond_origin.
    destruct (in_2xx (put_status w)); apply batch_respond_origin.
  - destruct (single_handler_paths e w req)
      as [(st & p & -> & _) | (_ & _ & _ & _ & slug & n & _ & ->)];
      [reflexivity|].
    destruct (single_rmw_outcomes (env_or (GH_OWNER e) "") (env_or (GH_REPO e) "")
                (env_or (GH_FILE e) "custom-recipes.json")
                (env_or (GH_BRANCH e) "main") w slug n)
      as [(text & _ & ->) | [(_ & ->) |
          (_ & l & found & sorted & nm & _ & _ & _ & ->)]];
      try reflexivity.
    now destruct (in_2xx (put_status w)).
Qed.

(** X11.  A request that is not a POST, or (in the batch handler) a POST
    from a forbidden origin, is answered before its body is looked at: the
    answer depends on the method and the Origin header only, not on the
    password, the recipes or the store, and no request goes to the
    store. *)
Theorem early_answers_ignore_body (H : Host)
    (e : environment) (w w' : store) (req req' : request) :
  method req = method req' ->
  origin req = origin req' ->
  (method req <> "POST" \/ Batch.forbidden_origin e req = true ->
   Batch.handler e w req = Batch.handler e w' req' /\
   snd (Batch.handler e w req) = []) /\
  (method req <> "POST" ->
   Single.handler e w req = Single.handler e w' req' /\
   snd (Single.handler e w req) = []).
Proof.
  intros Hm Ho. split.
  - intros Hc. unfold Batch.handler, Batch.forbidden_origin in *.
    rewrite <- Hm, <- Ho.
    destruct (String.eqb (method req) "OPTIONS"); [now split|].
    destruct (String.eqb_spec (method req) "POST") as [Hp|Hp]; cbn [negb];
      [|now split].
    destruct Hc as [Hc | Hc]; [contradiction|]. rewrite Hc. now split.
  - intros Hc. unfold Single.handler. rewrite <- Hm.
    destruct (String.eqb (method req) "OPTIONS"); [now split|].
    destruct (String.eqb_spec (method req) "POST") as [Hp|Hp]; cbn [negb];
      [contradiction | now split].
Qed.

Lemma early_answers_ignore_body_witness :
  Batch.handler (H := sample_host) Fixtures.env_with_allowlist
      Samples.empty_store Fixtures.foreign_post =
    Batch.handler Fixtures.env_with_allowlist Fixtures.failing_read
      {| method := "POST"; origin := Some "https://evil.example";
         body := VNull |} /\
  Single.handler (H := sample_host) Samples.env Samples.empty_store
      Fixtures.delete_request =
    Single.handler Samples.env Fixtures.failing_read
      {| method := "DELETE"; origin := None; body := VUndef |}.
Proof.
  split.
  - apply (proj1 (early_answers_ignore_body sample_host
                    Fixtures.env_with_allowlist Samples.empty_store
                    Fixtures.failing_read Fixtures.foreign_post _
                    eq_refl eq_refl)).
    right. reflexivity.
  - apply (proj2 (early_answers_ignore_body sample_host Samples.env
                    Samples.empty_store Fixtures.failing_read
                    Fixtures.delete_request _ eq_refl eq_refl)).
    discriminate.
Defined.

Section Status.
Context {H : Host}.

Lemma forbidden_origin_spec (e : environment) (req : request) :
  Batch.forbidden_origin e req = true <->
  env_or (ALLOWED_ORIGIN e) "" <> "" /\
  env_or (origin req) "" <> "" /\
  env_or (origin req) "" <> env_or (ALLOWED_ORIGIN e) "".
Proof.
  unfold Batch.forbidden_origin.
  rewrite !andb_true_iff, !negb_true_iff, !String.eqb_neq. tauto.
Qed.

(** The statuses [read_merge_write] answers with. *)
Lemma batch_rmw_status (allowed owner repo path br : string) (w : store)
    (incoming : list value) :
  let st := status (fst (Batch.read_merge_write allowed owner repo path br w
                           incoming)) in
  st = 200%Z \/ st = 500%Z.
Proof.
  cbv zeta.
  destruct (batch_rmw_outcomes allowed owner repo path br w incoming)
    as [(text & _ & ->) | [(_ & ->) | (_ & st & sorted & msg & _ & _ & _ & ->)]];
    [now right | now right |].
  destruct (in_2xx (put_status w)); [now left | now right].
Qed.

Lemma single_rmw_status (owner repo path br : string) (w : store)
    (slug : string) (n : value) :
  let st := status (fst (Single.read_merge_write owner repo path br w slug n)) in
  st = 200%Z \/ st = 500%Z.
Proof.
  cbv zeta.
  destruct (single_rmw_outcomes owner repo path br w slug n)
    as [(text & _ & ->) | [(_ & ->) |
        (_ & l & found & sorted & nm & _ & _ & _ & ->)]];
    [now right | now right |].
  destruct (in_2xx (put_status w)); [now left | now right].
Qed.

End Status.

(** X12.  The batch handler answers with status 403 exactly when the
    request is a POST, an allowlist is configured, the request has an
    Origin header and the two differ; in particular never without an
    allowlist or without that header.  The single-recipe handler never
    answers 403. *)
Theorem forbidden_origin_iff (H : Host)
    (e : environment) (w : store) (req : request) :
  (status (fst (Batch.handler e w req)) = 403%Z <->
   method req = "POST" /\
   env_or (ALLOWED_ORIGIN e) "" <> "" /\
   env_or (origin req) "" <> "" /\
   env_or (origin req) "" <> env_or (ALLOWED_ORIGIN e) "") /\
  status (fst (Single.handler e w req)) <> 403%Z.
Proof.
  split.
  - rewrite <- forbidden_origin_spec. unfold Batch.handler.
    destruct (String.eqb_spec (method req) "OPTIONS") as [Hopt|Hopt].
    { simpl. split; [discriminate|]. rewrite Hopt. intros [? _]. discriminate. }
    destruct (String.eqb_spec (method req) "POST") as [Hp|Hp]; cbn [negb].
    2:{ simpl. split; [discriminate | tauto]. }
    destruct (Batch.forbidden_origin e req) eqn:Ef.
    { simpl. tauto. }
    assert (Hno : forall r : response * list store_op,
               status (fst r) <> 403%Z ->
               (status (fst r) = 403%Z <-> method req = "POST" /\ false = true)).
    { intros r Hr. split; [contradiction | intros [_ ?]; discriminate]. }
    apply Hno.
    destruct (authorized _ _); cbn [negb]; [|discriminate].
    destruct (Batch.incoming req); [discriminate|].
    destruct (github_config_missing e); [discriminate|].
    match goal with
    | |- status (fst (Batch.read_merge_write ?a ?o ?r ?p ?b ?w ?i)) <> _ =>
        destruct (batch_rmw_status a o r p b w i) as [-> | ->]; discriminate
    end.
  - unfold Single.handler.
    destruct (String.eqb (method req) "OPTIONS"); [discriminate|].
    destruct (negb (String.eqb (method req) "POST")); [discriminate|].
    destruct (negb (authorized _ _)); [discriminate|].
    destruct (_ || _)%bool; [discriminate|].
    destruct (Single.normalize _) as [[slug n]|]; [|discriminate].
    destruct (github_config_missing e); [discriminate|].
    match goal with
    | |- status (fst (Single.read_merge_write ?o ?r ?p ?b ?w ?s ?n)) <> _ =>
        destruct (single_rmw_status o r p b w s n) as [-> | ->]; discriminate
    end.
Qed.

Lemma forbidden_origin_iff_witness :
  status (fst (Batch.handler (H := sample_host) Fixtures.env_with_allowlist
                 Samples.empty_store Fixtures.foreign_post)) = 403%Z.
Proof.
  apply (proj1 (forbidden_origin_iff sample_host Fixtures.env_with_allowlist
                  Samples.empty_store Fixtures.foreign_post)).
  repeat split; discriminate.
Defined.

Lemma answer_tells_write_witness :
  exists c ids,
    sent (fst (Batch.handler (H := sample_host) Samples.env Samples.empty_store
                 Samples.mixed_batch)) = Saved c ids.
Proof.
  apply (proj1 (answer_tells_write sample_host Samples.env Samples.empty_store
                  Samples.mixed_batch)).
  split; reflexivity.
Defined.

(** X13.  While the owner, the repository or the token of the store is not
    configured, no request whatever reaches the store, in either handler,
    and none is answered with a success document. *)
Theorem missing_config_never_reaches_store (H : Host)
    (e : environment) (w : store) (req : request) :
  github_config_missing e = true ->
  snd (Batch.handler e w req) = [] /\
  snd (Single.handler e w req) = [] /\
  (forall c ids, sent (fst (Batch.handler e w req)) <> Saved c ids) /\
  (forall id, sent (fst (Single.handler e w req)) <> SavedOne id).
Proof.
  intros Hc.
  destruct (batch_handler_paths e w req)
    as [(st & p & Hb & Hp) | (_ & _ & _ & _ & Hno & _)]; [|congruence].
  destruct (single_handler_paths e w req)
    as [(st' & p' & Hs & Hp') | (_ & _ & _ & Hno & _)]; [|congruence].
  rewrite Hb, Hs. simpl. repeat split.
  - intros c ids E. destruct Hp as [-> | [code ->]]; discriminate.
  - intros id E. destruct Hp' as [-> | [code ->]]; discriminate.
Qed.

Lemma missing_config_never_reaches_store_witness :
  snd (Batch.handler (H := sample_host) Fixtures.env_without_token
         Samples.empty_store Samples.mixed_batch) = [] /\
  snd (Single.handler (H := sample_host) Fixtures.env_without_token
         Samples.empty_store Fixtures.post_negroni) = [].
Proof.
  split.
  - exact (proj1 (missing_config_never_reaches_store sample_host
                    Fixtures.env_without_token Samples.empty_store
                    Samples.mixed_batch eq_refl)).
  - exact (proj1 (proj2 (missing_config_never_reaches_store sample_host
                           Fixtures.env_without_token Samples.empty_store
                           Fixtures.post_negroni eq_refl))).
Defined.

(** X14.  When the read of the file fails with a status other than 404,
    neither handler ever sends a commit request, whatever the request; a
    request that got as far as the read is answered 500
    "github-read-failed" with the text of the store's answer. *)
Theorem failed_read_never_writes (H : Host)
    (e : environment) (w : store) (req : request) (text : string) :
  on_get w = ReadError text ->
  (existsb is_put (snd (Batch.handler e w req)) = false /\
   (snd (Batch.handler e w req) <> [] ->
    fst (Batch.handler e w req) =
      Batch.respond (env_or (ALLOWED_ORIGIN e) "") 500
        (Error "github-read-failed" (Some text)))) /\
  (existsb is_put (snd (Single.handler e w req)) = false /\
   (snd (Single.handler e w req) <> [] ->
    fst (Single.handler e w req) =
      Single.respond 500 (Error "github-read-failed" (Some text)))).
Proof.
  intros Hw. split.
  - destruct (batch_handler_paths e w req)
      as [(st & p & -> & _) | (_ & _ & _ & _ & _ & ->)];
      [simpl; split; [reflexivity | congruence]|].
    destruct (batch_rmw_outcomes (env_or (ALLOWED_ORIGIN e) "")
                (env_or (GH_OWNER e) "") (env_or (GH_REPO e) "")
                (env_or (GH_FILE e) "custom-recipes.json")
                (env_or (GH_BRANCH e) "main") w (Batch.incoming req))
      as [(text' & Hw' & ->) | [(Hn & _) | (Hn & _)]];
      [|now elim (Hn text) | now elim (Hn text)].
    rewrite Hw in Hw'. inversion Hw'; subst. now split.
  - destruct (single_handler_paths e w req)
      as [(st & p & -> & _) | (_ & _ & _ & _ & slug & n & _ & ->)];
      [simpl; split; [reflexivity | congruence]|].
    destruct (single_rmw_outcomes (env_or (GH_OWNER e) "") (env_or (GH_REPO e) "")
                (env_or (GH_FILE e) "custom-recipes.json")
                (env_or (GH_BRANCH e) "main") w slug n)
      as [(text' & Hw' & ->) | [(Hn & _) | (Hn & _)]];
      [|now elim (Hn text) | now elim (Hn text)].
    rewrite Hw in Hw'. inversion Hw'; subst. now split.
Qed.

Lemma failed_read_never_writes_witness :
  Batch.handler (H := sample_host) Samples.env Fixtures.failing_read
      Samples.mixed_batch =
    ({| status := 500; allow_origin := "*";
        sent := Error "github-read-failed" (Some "Bad credentials") |},
     [GET "owner" "pages" "custom-recipes.json" "main"]) /\
  existsb is_put (snd (Single.handler (H := sample_host) Samples.env
                         Fixtures.failing_read Fixtures.post_negroni)) = false.
Proof.
  destruct (failed_read_never_writes sample_host Samples.env Fixtures.failing_read
              Samples.mixed_batch "Bad credentials" eq_refl) as [[_ Hb] _].
  destruct (failed_read_never_writes sample_host Samples.env Fixtures.failing_read
              Fixtures.post_negroni "Bad credentials" eq_refl) as [_ [Hs _]].
  split; [|exact Hs].
  rewrite (surjective_pairing (Batch.handler _ _ _)).
  rewrite Hb; [reflexivity | discriminate].
Defined.

(** ** What the loop leaves alone *)

Section Untouched.
Context {H : Host}.

Lemma nth_error_middle (pre post : list value) (x v y : value) (j : nat) :
  nth_error (pre ++ x :: post) j = Some y ->
  j <> length pre ->
  nth_error (pre ++ v :: post) j = Some y.
Proof.
  revert j. induction pre as [|z pre IH]; intros j Hj Hne; simpl in *.
  - destruct j; [contradiction | exact Hj].
  - destruct j; [exact Hj|]. simpl in *. apply IH; [exact Hj | lia].
Qed.

Lemma nth_error_at (pre post : list value) (x : value) :
  nth_error (pre ++ x :: post) (length pre) = Some x.
Proof. induction pre; simpl; auto. Qed.

(** One turn of the loop: the list does not shrink, grows by one at most,
    and a record the input does not target stays where it is. *)
Lemma upsert_keeps_others (raw : value) (st st' : Batch.loop_state) :
  Batch.usable raw = true ->
  Batch.upsert raw st = Ok st' ->
  length (Batch.list_ st) <= length (Batch.list_ st') <= S (length (Batch.list_ st)) /\
  forall j x, nth_error (Batch.list_ st) j = Some x ->
              targets raw x = false ->
              nth_error (Batch.list_ st') j = Some x.
Proof.
  intros Hu E. apply upsert_inv in E. destruct E as (n & idx & Hn & Hf & ->).
  cbn [Batch.list_]. destruct idx as [i|].
  - apply findIndex_some in Hf.
    destruct Hf as (pre & y & post & Hl & Hi & Hy & _). subst i. rewrite Hl.
    rewrite (proj1 (replace_at_middle pre post y _)).
    split; [rewrite !length_app; simpl; lia|].
    intros j x Hj Ht.
    destruct (Nat.eq_dec j (length pre)) as [->|Hne].
    + rewrite nth_error_at in Hj. inversion Hj; subst x.
      unfold targets in Ht. rewrite Hu, Hn, Hy in Ht. discriminate.
    + exact (nth_error_middle pre post y _ x j Hj Hne).
  - split; [rewrite length_app; simpl; lia|].
    intros j x Hj _. rewrite nth_error_app1; [exact Hj|].
    apply nth_error_Some. congruence.
Qed.

Lemma upsert_loop_keeps_others (incoming : list value) :
  forall st st' : Batch.loop_state,
    Batch.upsert_loop incoming st = Ok st' ->
    length (Batch.list_ st) <= length (Batch.list_ st') /\
    length (Batch.list_ st') + Batch.upserted st <=
      length (Batch.list_ st) + Batch.upserted st' /\
    forall j x, nth_error (Batch.list_ st) j = Some x ->
                forallb (fun raw => negb (targets raw x)) incoming = true ->
                nth_error (Batch.list_ st') j = Some x.
Proof.
  induction incoming as [|raw rest IH]; simpl; intros st st' E.
  - inversion E; subst. repeat split; auto.
  - destruct (Batch.usable raw) eqn:Eu.
    + bind_inv E. destruct (upsert_keeps_others raw st a Eu Ha) as [Hlen Hk].
      pose proof (upsert_inv _ _ _ Ha) as (n & idx & _ & _ & Hst).
      assert (Hup : Batch.upserted a = S (Batch.upserted st)) by now subst a.
      destruct (IH a st' E) as (Hl & Hc & Hrest).
      split; [lia|]. split; [lia|].
      intros j x Hj Hall. apply andb_true_iff in Hall. destruct Hall as [Ht Hall].
      apply Hrest; [|exact Hall]. apply Hk; [exact Hj|].
      now apply negb_true_iff.
    + destruct (IH st st' E) as (Hl & Hc & Hrest).
      split; [exact Hl|]. split; [exact Hc|].
      intros j x Hj Hall. apply andb_true_iff in Hall. destruct Hall as [_ Hall].
      now apply Hrest.
Qed.

End Untouched.

(** X15.  The upsert loop deletes nothing and moves nothing: the collection
    never gets shorter, it grows by at most one record for each input
    counted as upserted, and a stored record that no input of the batch
    targets (no usable input is normalized with the record's derived id) is
    unchanged and still at its index after the loop. *)
Theorem loop_never_deletes (H : Host)
    (incoming : list value) (st st' : Batch.loop_state) :
  Batch.upsert_loop incoming st = Ok st' ->
  length (Batch.list_ st) <= length (Batch.list_ st') /\
  length (Batch.list_ st') + Batch.upserted st <=
    length (Batch.list_ st) + Batch.upserted st' /\
  forall j x, nth_error (Batch.list_ st) j = Some x ->
              forallb (fun raw => negb (targets raw x)) incoming = true ->
              nth_error (Batch.list_ st') j = Some x.
Proof. apply upsert_loop_keeps_others. Qed.

Lemma loop_never_deletes_witness :
  exists st',
    Batch.upsert_loop (H := sample_host)
      [Samples.raw_gimlet; Samples.minimal_martini]
      (Samples.loop_on [Fixtures.stored_negroni; Samples.stored_martini]) = Ok st' /\
    length (Batch.list_ st') = 3 /\
    nth_error (Batch.list_ st') 0 = Some Fixtures.stored_negroni.
Proof.
  eexists. split; [reflexivity|]. split; [reflexivity|].
  apply (proj2 (proj2 (loop_never_deletes sample_host
                         [Samples.raw_gimlet; Samples.minimal_martini]
                         (Samples.loop_on
                            [Fixtures.stored_negroni; Samples.stored_martini])
                         _ eq_refl)) 0 Fixtures.stored_negroni);
    reflexivity.
Defined.

(** ** The sort by name *)

Section SortOrder.
Context {H : Host}.

(** The collation never puts each of two strings before the other. *)
Hypothesis collation_antisym :
  forall a b : string, (localeCompare a b < 0)%Z -> (0 <= localeCompare b a)%Z.

Lemma compare_names_keys (x y : value) (c : Z) :
  compare_names x y = Ok c ->
  exists kx ky,
    name_key x = Ok kx /\ name_key y = Ok ky /\ c = localeCompare kx ky.
Proof.
  unfold compare_names, name_key. intros E. bind_inv E. bind_inv E.
  rewrite Ha, Ha0. cbn [bind].
  destruct (or_else a (VStr "")) eqn:Eo; try discriminate.
  bind_inv E. inversion E; subst. exists s, a1. auto.
Qed.

Lemma sort_insert_sorted (x : value) (l : list value) :
  forall l', Sorted in_name_order l ->
             sort_insert x l = Ok l' ->
             Sorted in_name_order l' /\
             forall y, in_name_order y x -> HdRel in_name_order y l ->
                       HdRel in_name_order y l'.
Proof.
  induction l as [|y0 r IH]; simpl; intros l' Hs E.
  - inversion E; subst. split; [repeat constructor|].
    intros y Hy _. now constructor.
  - bind_inv E. apply compare_names_keys in Ha.
    destruct Ha as (kx & k0 & Hkx & Hk0 & ->).
    inversion Hs as [|? ? Hr Hh]; subst.
    destruct (Z.ltb_spec (localeCompare kx k0) 0) as [Hlt|Hge].
    + inversion E; subst. split.
      * constructor; [exact Hs|]. constructor.
        exists kx, k0. auto.
      * intros y Hy _. now constructor.
    + bind_inv E. inversion E; subst.
      destruct (IH a Hr Ha) as [Hsa Hhd]. split.
      * constructor; [exact Hsa|]. apply Hhd; [|exact Hh].
        exists k0, kx. auto.
      * intros y _ Hy. inversion Hy; subst. now constructor.
Qed.

Lemma sort_fold_sorted (l acc l' : list value) :
  Sorted in_name_order acc ->
  fold_left (fun acc x => sorted <- acc ;; sort_insert x sorted) l (Ok acc) = Ok l' ->
  Sorted in_name_order l'.
Proof.
  revert acc. induction l as [|x r IH]; simpl; intros acc Hs E.
  - now inversion E; subst.
  - destruct (sort_insert x acc) as [acc'|] eqn:Ei.
    + apply (IH acc'); [|exact E]. exact (proj1 (sort_insert_sorted x acc acc' Hs Ei)).
    + exfalso. clear -E. induction r as [|z r IHr]; simpl in E;
        [discriminate | auto].
Qed.

Lemma sort_by_name_sorted (l l' : list value) :
  sort_by_name l = Ok l' -> Sorted in_name_order l'.
Proof. apply sort_fold_sorted. constructor. Qed.

(** The collation is transitive. *)
Hypothesis collation_trans :
  forall a b c : string,
    (0 <= localeCompare b a)%Z -> (0 <= localeCompare c b)%Z ->
    (0 <= localeCompare c a)%Z.

Lemma in_name_order_trans : Transitive in_name_order.
Proof.
  intros x y z (kx & ky & Hx & Hy & Hxy) (ky' & kz & Hy' & Hz & Hyz).
  rewrite Hy in Hy'. inversion Hy'; subst ky'.
  exists kx, kz. repeat split; try assumption.
  exact (collation_trans kx ky kz Hxy Hyz).
Qed.

Lemma sort_by_name_strongly_sorted (l l' : list value) :
  sort_by_name l = Ok l' -> StronglySorted in_name_order l'.
Proof.
  intros E.
  exact (Sorted_StronglySorted in_name_order_trans
           (sort_by_name_sorted l l' E)).
Qed.

End SortOrder.

Lemma compare_code_units_antisym (a b : string) :
  (compare_code_units a b < 0)%Z -> (0 <= compare_code_units b a)%Z.
Proof.
  unfold compare_code_units. rewrite (String.compare_antisym b a).
  destruct (String.compare a b); simpl; lia.
Qed.

Lemma compare_code_units_le (a b : string) :
  (0 <= compare_code_units b a)%Z <-> a = b \/ String_as_OT.lt a b.
Proof.
  unfold compare_code_units. rewrite (String.compare_antisym b a).
  rewrite <- String_as_OT.cmp_lt, <- String_as_OT.cmp_eq.
  unfold String_as_OT.cmp. destruct (String.compare a b); simpl; split;
    intros E; try lia; auto; destruct E; discriminate.
Qed.

Lemma compare_code_units_trans (a b c : string) :
  (0 <= compare_code_units b a)%Z -> (0 <= compare_code_units c b)%Z ->
  (0 <= compare_code_units c a)%Z.
Proof.
  rewrite !compare_code_units_le. intros [-> | Hab] [-> | Hbc]; auto.
  right. exact (String_as_OT.lt_trans a b c Hab Hbc).
Qed.

(** X16.  Provided the collation of the host is a total preorder (it never
    puts each of two strings before the other, and it is transitive), the
    sort by name returns the records it was given, each with a name that
    does not come after the name of any record behind it; and so the
    content of every commit request of either handler is in name order. *)
Theorem commits_are_in_name_order (H : Host) :
  (forall a b : string, (localeCompare a b < 0)%Z -> (0 <= localeCompare b a)%Z) ->
  (forall a b c : string,
     (0 <= localeCompare b a)%Z -> (0 <= localeCompare c b)%Z ->
     (0 <= localeCompare c a)%Z) ->
  (forall l l', sort_by_name l = Ok l' ->
                Permutation l l' /\ StronglySorted in_name_order l') /\
  (forall e w req owner repo path b,
     In (PUT owner repo path b) (snd (Batch.handler e w req)) ->
     StronglySorted in_name_order (content b)) /\
  (forall e w req owner repo path b,
     In (PUT owner repo path b) (snd (Single.handler e w req)) ->
     StronglySorted in_name_order (content b)).
Proof.
  intros Hanti Htrans. split; [|split].
  - intros l l' E. split; [now apply sort_by_name_perm|].
    exact (sort_by_name_strongly_sorted Hanti Htrans l l' E).
  - intros e w req owner repo path b Hin.
    destruct (batch_handler_paths e w req)
      as [(st & p & Hh & _) | (_ & _ & _ & _ & _ & Hh)];
      rewrite Hh in Hin; [destruct Hin|].
    apply batch_put_inv in Hin; [|reflexivity].
    destruct Hin as (st & sorted & msg & _ & Hs & _ & Hb).
    inversion Hb; subst. exact (sort_by_name_strongly_sorted Hanti Htrans _ _ Hs).
  - intros e w req owner repo path b Hin.
    destruct (single_handler_paths e w req)
      as [(st & p & Hh & _) | (_ & _ & _ & _ & slug & n & _ & Hh)];
      rewrite Hh in Hin; [destruct Hin|].
    destruct (single_rmw_outcomes (env_or (GH_OWNER e) "") (env_or (GH_REPO e) "")
                (env_or (GH_FILE e) "custom-recipes.json")
                (env_or (GH_BRANCH e) "main") w slug n)
      as [(text & _ & Hr) | [(_ & Hr) |
          (_ & l & found & sorted & nm & _ & Hs & _ & Hr)]];
      rewrite Hr in Hin.
    + destruct Hin as [E|[]]; discriminate.
    + destruct Hin as [E|[]]; discriminate.
    + destruct (in_2xx (put_status w)); simpl in Hin;
        destruct Hin as [E|[E|[]]]; try discriminate;
        inversion E; subst;
        exact (sort_by_name_strongly_sorted Hanti Htrans _ _ Hs).
Qed.

Lemma commits_are_in_name_order_witness :
  exists sorted,
    sort_by_name (H := sample_host)
      [Samples.stored_martini; Fixtures.negroni; Samples.raw_gimlet] = Ok sorted /\
    Permutation [Samples.stored_martini; Fixtures.negroni; Samples.raw_gimlet]
                sorted /\
    StronglySorted (in_name_order (H := sample_host)) sorted.
Proof.
  eexists. split; [reflexivity|].
  apply (proj1 (commits_are_in_name_order sample_host
                  compare_code_units_antisym compare_code_units_trans)).
  reflexivity.
Defined.

(** ** The two handlers find a stored record alike *)

Section SameIdentity.
Context {H : Host}.

Lemma slugify_truthy (v : value) :
  truthy v = true -> Single.slugify v = Batch.slug v.
Proof.
  intros Hv. unfold Single.slugify, Batch.slug, or_else. rewrite Hv.
  destruct (to_string v); simpl; [|reflexivity].
  now rewrite slugify_chain_slug_chain.
Qed.

Lemma slugify_or_else (v : value) :
  Single.slugify (or_else v (VStr "")) = Batch.slug v.
Proof.
  unfold Single.slugify, Batch.slug.
  destruct (to_string (or_else v (VStr ""))); simpl; [|reflexivity].
  now rewrite slugify_chain_slug_chain.
Qed.

Lemma same_id_derives_id (slug : string) (r : value) :
  Single.same_id slug r = derives_id slug r.
Proof.
  unfold Single.same_id, derives_id, Batch.findId.
  destruct (get_field "id" r) as [rid|]; [|reflexivity]. cbn [bind].
  destruct (truthy rid); [reflexivity|].
  now rewrite slugify_or_else, slug_or_else.
Qed.

Lemma findIndex_ext (p q : value -> exc bool) (l : list value) :
  (forall x, p x = q x) -> findIndex p l = findIndex q l.
Proof.
  intros Hpq. induction l as [|x r IH]; simpl; [reflexivity|].
  now rewrite Hpq, IH.
Qed.

End SameIdentity.

(** X17.  The two handlers find a stored record by the same derived id:
    the test given to [findIndex] by the single-recipe handler agrees with
    the one of the batch handler on every stored value, exceptions
    included, and so does the index found.  Their slug functions agree on
    every truthy value; on a missing name [slugify] alone is not empty
    ("undefined"), but the handler calls it on [r.name || ""]. *)
Theorem handlers_find_alike (H : Host) :
  (forall (slug : string) (r : value),
     Single.same_id slug r = derives_id slug r) /\
  (forall (slug : string) (l : list value),
     findIndex (Single.same_id slug) l = findIndex (derives_id slug) l) /\
  (forall v, truthy v = true -> Single.slugify v = Batch.slug v) /\
  Single.slugify VUndef = Ok "undefined" /\ Batch.slug VUndef = Ok "".
Proof.
  split; [intros; apply same_id_derives_id|].
  split; [|split; [intros; now apply slugify_truthy|]].
  - intros slug l. apply findIndex_ext. apply same_id_derives_id.
  - split; reflexivity.
Qed.

Lemma handlers_find_alike_witness :
  Single.slugify (H := sample_host) (VStr "Dry, Martini!") =
  Batch.slug (H := sample_host) (VStr "Dry, Martini!").
Proof.
  destruct (handlers_find_alike sample_host) as (_ & _ & Hs & _).
  apply Hs. reflexivity.
Defined.

(** ** The upsert of the single-recipe handler *)

Section SingleUpsert.
Context {H : Host}.

Lemma findId_single_normalized (recipe : value) (slug : string) (n : value) :
  truthy (prop "name" recipe) = true ->
  Single.normalize recipe = Ok (slug, n) ->
  Batch.findId n = Ok (VStr slug) /\
  forall x, Batch.findId (spread2 x n) = Ok (VStr slug).
Proof.
  intros Ht E. pose proof (single_normalize_record _ _ _ E) as Hr.
  apply single_normalize_inv in E. destruct E as (b & ia & Hs & _ & _ & Hn).
  rewrite (slugify_truthy _ Ht) in Hs.
  assert (Ei : (if truthy (VStr slug) then Ok (VStr slug)
                else (s <- Batch.slug (prop "name" recipe) ;; Ok (VStr s)))
               = Ok (VStr slug)).
  { destruct (truthy (VStr slug)); [reflexivity|]. now rewrite Hs. }
  assert (Hid : prop "id" n = VStr slug) by now subst n.
  assert (Hnm : prop "name" n = prop "name" recipe) by now subst n.
  split.
  - rewrite Hn at 1. rewrite findId_object, <- Hn, Hid, Hnm. exact Ei.
  - intros x. unfold spread2. rewrite findId_object. fold (spread2 x n).
    rewrite !(merge_candidate_wins x n) by
      (try exact Hr; unfold record_fields; simpl; tauto).
    rewrite Hid, Hnm. exact Ei.
Qed.

Lemma existsb_none (f : value -> bool) (l : list value) :
  Forall (fun y => f y = false) l -> existsb f l = false.
Proof.
  induction 1 as [|y l Hy _ IH]; simpl; [reflexivity|]. now rewrite Hy.
Qed.

Lemma single_upsert_spec (recipe : value) (slug : string) (n : value)
    (l l' : list value) (found : bool) :
  truthy (prop "name" recipe) = true ->
  Single.normalize recipe = Ok (slug, n) ->
  Single.upsert slug n l = Ok (l', found) ->
  found = existsb (has_id slug) l /\
  length l' = (if found then length l else S (length l)) /\
  (forall j x, nth_error l j = Some x -> has_id slug x = false ->
               nth_error l' j = Some x) /\
  (count_id slug l <= 1 ->
   exists y, filter (has_id slug) l' = [y] /\
             forall k, In k record_fields -> prop k y = prop k n).
Proof.
  intros Ht Hn E. unfold Single.upsert in E. bind_inv E.
  rewrite (findIndex_ext _ (derives_id slug) l (same_id_derives_id slug)) in Ha.
  destruct (findId_single_normalized _ _ _ Ht Hn) as [Hfn Hfm].
  pose proof (single_normalize_record _ _ _ Hn) as Hr.
  destruct a as [i|]; inversion E; subst l' found; clear E.
  - apply findIndex_some in Ha.
    destruct Ha as (pre & x & post & Hl & Hi & Hx & Hpre). subst i l.
    rewrite (proj2 (replace_at_middle pre post x VUndef)).
    rewrite (proj1 (replace_at_middle pre post x (spread2 x n))).
    assert (Ep : Forall (fun y => has_id slug y = false) pre).
    { eapply Forall_impl; [|exact Hpre].
      intros y Hy. exact (has_id_derives slug y false Hy). }
    pose proof (has_id_derives slug x true Hx) as Hxid.
    repeat split.
    + rewrite existsb_app. simpl. now rewrite Hxid, orb_true_r.
    + rewrite !length_app. reflexivity.
    + intros j y Hj Hy. destruct (Nat.eq_dec j (length pre)) as [->|Hne].
      * rewrite nth_error_at in Hj. inversion Hj; subst. congruence.
      * exact (nth_error_middle pre post x _ y j Hj Hne).
    + unfold count_id. rewrite !filter_app, (filter_none _ _ Ep).
      cbn [filter app]. rewrite Hxid, (has_id_found slug _ _ (Hfm x)).
      rewrite (proj2 (strict_eq_string (VStr slug) slug) eq_refl).
      intros Hone. simpl in Hone.
      destruct (filter (has_id slug) post); [|simpl in Hone; lia].
      exists (spread2 x n). split; [reflexivity|].
      intros k Hk. now apply merge_candidate_wins.
  - apply findIndex_none in Ha.
    assert (Ep : Forall (fun y => has_id slug y = false) l).
    { eapply Forall_impl; [|exact Ha].
      intros y Hy. exact (has_id_derives slug y false Hy). }
    repeat split.
    + now rewrite (existsb_none _ _ Ep).
    + rewrite length_app. simpl. lia.
    + intros j y Hj _. rewrite nth_error_app1; [exact Hj|].
      apply nth_error_Some. congruence.
    + intros _. rewrite filter_app, (filter_none _ _ Ep). cbn [filter app].
      rewrite (has_id_found slug _ _ Hfn).
      rewrite (proj2 (strict_eq_string (VStr slug) slug) eq_refl).
      now exists n.
Qed.

End SingleUpsert.

(** X18.  The upsert of the single-recipe handler, for a recipe with a
    truthy name: it updates exactly when a stored record has the derived
    id, and appends otherwise (the list keeps its length or grows by one);
    every stored record of another id stays where it is; and when at most
    one stored record had the id, exactly one record has it afterwards,
    with the ten fields of the submitted recipe. *)
Theorem single_upsert_updates_or_appends (H : Host)
    (recipe : value) (slug : string) (n : value)
    (l l' : list value) (found : bool) :
  truthy (prop "name" recipe) = true ->
  Single.normalize recipe = Ok (slug, n) ->
  Single.upsert slug n l = Ok (l', found) ->
  found = existsb (has_id slug) l /\
  length l' = (if found then length l else S (length l)) /\
  (forall j x, nth_error l j = Some x -> has_id slug x = false ->
               nth_error l' j = Some x) /\
  (count_id slug l <= 1 ->
   exists y, filter (has_id slug) l' = [y] /\
             forall k, In k record_fields -> prop k y = prop k n).
Proof. apply single_upsert_spec. Qed.

Lemma single_upsert_updates_or_appends_witness :
  exists n l',
    Single.normalize (H := sample_host) Fixtures.negroni = Ok ("negroni", n) /\
    Single.upsert "negroni" n [Samples.stored_martini; Fixtures.stored_negroni]
      = Ok (l', true) /\
    length l' = 2 /\
    nth_error l' 0 = Some Samples.stored_martini /\
    exists y, filter (has_id "negroni") l' = [y] /\
              prop "base" y = prop "base" n.
Proof.
  eexists; eexists. split; [reflexivity|]. split; [reflexivity|].
  destruct (single_upsert_updates_or_appends sample_host Fixtures.negroni
              "negroni" _ [Samples.stored_martini; Fixtures.stored_negroni]
              _ true eq_refl eq_refl eq_refl)
    as (_ & Hlen & Hkeep & Hone).
  split; [exact Hlen|]. split; [now apply Hkeep|].
  destruct (Hone (le_n 1)) as (y & Hy & Hk).
  exists y. split; [exact Hy|]. apply Hk. simpl. tauto.
Defined.

(** X19.  Every commit request of the single-recipe handler is for a
    recipe that was normalized: its message is "Update recipe: " or "Add
    recipe: " followed by the recipe's name, "Update" exactly when a
    stored record had the recipe's derived id; its content is the upserted
    collection, reordered; it carries the version token [t] iff the file
    was fetched with the token [t] (the store gives no empty token); and
    the answer is 200 with the slug as id when the store's status is from
    200 to 299, 500 "github-write-failed" otherwise. *)
Theorem single_commit_request (H : Host)
    (e : environment) (w : store) (req : request)
    (owner repo path : string) (b : put_body) :
  (forall sha parsed, on_get w = Found sha parsed -> sha <> "") ->
  In (PUT owner repo path b) (snd (Single.handler e w req)) ->
  exists slug n nm l' found,
    Single.normalize (prop "recipe" (request_body req)) = Ok (slug, n) /\
    to_string (prop "name" n) = Ok nm /\
    Single.upsert slug n (Single.existing (on_get w)) = Ok (l', found) /\
    Permutation l' (content b) /\
    message b =
      ((if existsb (has_id slug) (Single.existing (on_get w))
        then "Update recipe: " else "Add recipe: ") ++ nm)%string /\
    (forall t, commit_sha b = Some t <-> exists parsed, on_get w = Found t parsed) /\
    fst (Single.handler e w req) =
      (if in_2xx (put_status w)
       then Single.respond 200 (SavedOne slug)
       else Single.respond 500
              (Error "github-write-failed" (Some (put_text w)))).
Proof.
  intros Hne Hin.
  destruct (single_handler_paths e w req)
    as [(st & p & Hh & _) | (_ & _ & Hu & _ & slug & n & Hn & Hh)];
    rewrite Hh in *; [destruct Hin|].
  destruct (single_rmw_outcomes (env_or (GH_OWNER e) "") (env_or (GH_REPO e) "")
              (env_or (GH_FILE e) "custom-recipes.json")
              (env_or (GH_BRANCH e) "main") w slug n)
    as [(text & _ & Hr) | [(_ & Hr) |
        (_ & l & found & sorted & nm & Hup & Hs & Hnm & Hr)]];
    rewrite Hr in *.
  - destruct Hin as [E|[]]; discriminate.
  - destruct Hin as [E|[]]; discriminate.
  - assert (Ht : truthy (prop "name" (prop "recipe" (request_body req))) = true).
    { unfold Batch.usable in Hu. now apply andb_true_iff in Hu. }
    destruct (single_upsert_spec _ _ _ _ _ _ Ht Hn Hup) as (Hf & _).
    exists slug, n, nm, l, found.
    assert (Hb : b = {| message := ((if found then "Update recipe: "
                                     else "Add recipe: ") ++ nm)%string;
                        content := sorted;
                        branch := env_or (GH_BRANCH e) "main";
                        commit_sha :=
                          sha_property (Batch.fetched_sha (on_get w)) |}).
    { destruct (in_2xx (put_status w)); simpl in Hin;
        destruct Hin as [E|[E|[]]]; try discriminate; now inversion E. }
    subst b. cbn [message content commit_sha]. rewrite <- Hf.
    repeat split; auto.
    + now apply sort_by_name_perm.
    + now apply sha_property_some.
    + now apply sha_property_some.
    + now destruct (in_2xx (put_status w)).
Qed.

Lemma single_commit_request_witness :
  exists b,
    In (PUT "owner" "pages" "custom-recipes.json" b)
       (snd (Single.handler (H := sample_host) Samples.env
               (Samples.store_with [Samples.stored_martini; Fixtures.stored_negroni])
               Fixtures.post_negroni)) /\
    message b = "Update recipe: Negroni" /\
    commit_sha b = Some "3f1a9c".
Proof.
  eexists. split; [right; left; reflexivity|].
  match goal with
  | |- message ?b = _ /\ _ =>
      destruct (single_commit_request sample_host Samples.env
                  (Samples.store_with
                     [Samples.stored_martini; Fixtures.stored_negroni])
                  Fixtures.post_negroni "owner" "pages" "custom-recipes.json" b)
        as (slug & n & nm & l' & found & _ & _ & _ & _ & Hm & Hsha & _)
  end.
  - intros sha parsed [= <- _]. discriminate.
  - right; left; reflexivity.
  - split; [reflexivity|]. apply Hsha. now eexists.
Defined.

(** ** Submitting a recipe twice *)

Section Resubmit.
Context {H : Host}.

Lemma set_prop_same (k : string) (v : value) (o : props) :
  lookup k o = Some v -> set_prop k v o = o.
Proof.
  induction o as [|[k0 v0] o IH]; simpl; [discriminate|].
  rewrite (String.eqb_sym k k0).
  destruct (String.eqb_spec k0 k) as [->|Hne].
  - now intros [= ->].
  - intros E. now rewrite IH.
Qed.

Lemma set_prop_fresh (k : string) (v : value) (o : props) :
  ~ In k (map fst o) -> set_prop k v o = o ++ [(k, v)].
Proof.
  induction o as [|[k0 v0] o IH]; simpl; [reflexivity|]. intros Hn.
  destruct (String.eqb_spec k k0) as [->|_]; [tauto|].
  rewrite IH; [reflexivity | tauto].
Qed.

Lemma set_prop_keys_present (k : string) (v : value) (o : props) :
  In k (map fst o) -> map fst (set_prop k v o) = map fst o.
Proof.
  induction o as [|[k0 v0] o IH]; simpl; [tauto|]. intros Hin.
  destruct (String.eqb_spec k k0) as [->|Hne]; simpl; [reflexivity|].
  rewrite IH; [reflexivity|]. destruct Hin; [congruence | assumption].
Qed.

Lemma set_prop_keys (k : string) (v : value) (o : props) :
  NoDup (map fst o) -> NoDup (map fst (set_prop k v o)).
Proof.
  intros Hd. destruct (in_dec string_dec k (map fst o)) as [Hin|Hn].
  - now rewrite (set_prop_keys_present _ _ _ Hin).
  - rewrite (set_prop_fresh _ _ _ Hn), map_app. simpl.
    apply NoDup_app; [exact Hd | repeat constructor; simpl; tauto |].
    intros x Hx [<-|[]]. contradiction.
Qed.

Lemma fold_set_keys (l o : props) :
  NoDup (map fst o) ->
  NoDup (map fst (fold_left (fun o kv => set_prop (fst kv) (snd kv) o) l o)).
Proof.
  revert o. induction l as [|[k v] l IH]; simpl; intros o Hd; [exact Hd|].
  apply IH. now apply set_prop_keys.
Qed.

(** Setting again what is already there changes nothing. *)
Lemma fold_set_same (l o : props) :
  (forall k v, In (k, v) l -> lookup k o = Some v) ->
  fold_left (fun o kv => set_prop (fst kv) (snd kv) o) l o = o.
Proof.
  induction l as [|[k v] l IH]; simpl; intros Hl; [reflexivity|].
  rewrite (set_prop_same k v o) by (apply Hl; now left).
  apply IH. intros k' v' Hin. apply Hl. now right.
Qed.

(** Copying an object with distinct keys gives the same object. *)
Lemma fold_set_copy (l acc : props) :
  NoDup (map fst (acc ++ l)) ->
  fold_left (fun o kv => set_prop (fst kv) (snd kv) o) l acc = acc ++ l.
Proof.
  revert acc. induction l as [|[k v] l IH]; simpl; intros acc Hd.
  - now rewrite app_nil_r.
  - assert (Hn : ~ In k (map fst acc)).
    { rewrite map_app in Hd. simpl in Hd. apply NoDup_remove_2 in Hd.
      intros Hin. apply Hd. apply in_or_app. now left. }
    rewrite (set_prop_fresh _ _ _ Hn).
    rewrite IH; rewrite <- app_assoc; [reflexivity | exact Hd].
Qed.

Lemma lookup_in (k : string) (v : value) (l : props) :
  NoDup (map fst l) -> In (k, v) l -> lookup k l = Some v.
Proof.
  induction l as [|[k0 v0] l IH]; simpl; [tauto|]. intros Hd Hin.
  inversion Hd as [|? ? Hnin Hd']; subst.
  destruct Hin as [[= -> ->] | Hin].
  - now rewrite String.eqb_refl.
  - destruct (String.eqb_spec k k0) as [->|_]; [|now apply IH].
    exfalso. apply Hnin. apply (in_map fst) in Hin. exact Hin.
Qed.

(** Merging the same record twice is merging it once. *)
Lemma spread2_twice (x : value) (kvs : props) :
  NoDup (map fst kvs) ->
  spread2 (spread2 x (VObj kvs)) (VObj kvs) = spread2 x (VObj kvs).
Proof.
  intros Hd. unfold spread2. cbn [own_props]. f_equal.
  remember (fold_left (fun o kv => set_prop (fst kv) (snd kv) o)
                      (own_props x ++ kvs) []) as m eqn:Em.
  assert (Hm : NoDup (map fst m)) by (subst m; apply fold_set_keys; constructor).
  rewrite fold_left_app.
  rewrite (fold_set_copy m []) by (simpl; exact Hm). simpl.
  apply fold_set_same. intros k v Hin. subst m.
  rewrite lookup_fold_set, rev_app_distr, lookup_app, (lookup_rev k kvs Hd).
  now rewrite (lookup_in k v kvs Hd Hin).
Qed.

Lemma spread2_self (kvs : props) :
  NoDup (map fst kvs) -> spread2 (VObj kvs) (VObj kvs) = VObj kvs.
Proof.
  intros Hd. unfold spread2. f_equal. cbn [own_props]. rewrite fold_left_app.
  rewrite (fold_set_copy kvs []) by (simpl; exact Hd). simpl.
  apply fold_set_same. intros k v Hin. now apply lookup_in.
Qed.

Lemma findIndex_at (p : value -> exc bool) (pre post : list value) (x : value) :
  Forall (fun y => p y = Ok false) pre -> p x = Ok true ->
  findIndex p (pre ++ x :: post) = Ok (Some (length pre)).
Proof.
  intros Hpre Hx. induction Hpre as [|y pre Hy _ IH]; simpl.
  - now rewrite Hx.
  - now rewrite Hy, IH.
Qed.

(** Upserting a recipe right after itself leaves the collection as the
    first upsert made it. *)
Lemma upsert_again (raw n : value) (s : string) (st st1 : Batch.loop_state) :
  Batch.normalize raw = Ok n -> prop "id" n = VStr s ->
  Batch.upsert raw st = Ok st1 ->
  exists st2, Batch.upsert raw st1 = Ok st2 /\
              Batch.list_ st2 = Batch.list_ st1.
Proof.
  intros Hn Hid Hu. apply upsert_inv in Hu.
  destruct Hu as (n' & idx & Hn' & Hf & ->).
  rewrite Hn in Hn'. inversion Hn'; subst n'. clear Hn'.
  destruct (findId_normalized _ _ Hn) as [Hfn Hfm].
  destruct (batch_normalize_record _ _ Hn) as (kvs & -> & Hk).
  assert (Hd : NoDup (map fst kvs)) by (rewrite Hk; exact record_fields_nodup).
  assert (Hself : forall y, Batch.findId y = Ok (prop "id" (VObj kvs)) ->
                            matches (VObj kvs) y = Ok true).
  { intros y Hy. unfold matches. rewrite Hy. cbn [bind]. rewrite Hid.
    simpl. now rewrite String.eqb_refl. }
  unfold Batch.upsert. rewrite Hn. cbn [bind Batch.list_].
  fold (matches (VObj kvs)). destruct idx as [i|].
  - apply findIndex_some in Hf.
    destruct Hf as (pre & x & post & Hl & Hi & Hx & Hpre). subst i. rewrite Hl.
    rewrite (proj2 (replace_at_middle pre post x VUndef)).
    rewrite (proj1 (replace_at_middle pre post x (spread2 x (VObj kvs)))).
    rewrite (findIndex_at _ pre post _ Hpre (Hself _ (Hfm x))). cbn [bind].
    eexists. split; [reflexivity|]. cbn [Batch.list_].
    rewrite (proj2 (replace_at_middle pre post _ VUndef)).
    rewrite (proj1 (replace_at_middle pre post _ _)).
    now rewrite (spread2_twice x kvs Hd).
  - apply findIndex_none in Hf.
    rewrite (findIndex_at _ (Batch.list_ st) [] _ Hf (Hself _ Hfn)). cbn [bind].
    eexists. split; [reflexivity|]. cbn [Batch.list_].
    rewrite (proj2 (replace_at_middle (Batch.list_ st) [] _ VUndef)).
    rewrite (proj1 (replace_at_middle (Batch.list_ st) [] _ _)).
    now rewrite (spread2_self kvs Hd).
Qed.

Lemma single_upsert_again (recipe : value) (slug : string) (n : value)
    (l l1 : list value) (found : bool) :
  truthy (prop "name" recipe) = true ->
  Single.normalize recipe = Ok (slug, n) ->
  Single.upsert slug n l = Ok (l1, found) ->
  Single.upsert slug n l1 = Ok (l1, true).
Proof.
  intros Ht Hn E. unfold Single.upsert in *. bind_inv E.
  rewrite (findIndex_ext _ (derives_id slug) l (same_id_derives_id slug)) in Ha.
  destruct (findId_single_normalized _ _ _ Ht Hn) as [Hfn Hfm].
  destruct (single_normalize_record _ _ _ Hn) as (kvs & -> & Hk).
  assert (Hd : NoDup (map fst kvs)) by (rewrite Hk; exact record_fields_nodup).
  assert (Hself : forall y, Batch.findId y = Ok (VStr slug) ->
                            derives_id slug y = Ok true).
  { intros y Hy. unfold derives_id. rewrite Hy. simpl.
    now rewrite String.eqb_refl. }
  destruct a as [i|]; inversion E; subst l1 found; clear E.
  - apply findIndex_some in Ha.
    destruct Ha as (pre & x & post & Hl & Hi & Hx & Hpre). subst i l.
    rewrite (proj2 (replace_at_middle pre post x VUndef)).
    rewrite (proj1 (replace_at_middle pre post x (spread2 x (VObj kvs)))).
    rewrite (findIndex_ext _ (derives_id slug) _ (same_id_derives_id slug)).
    rewrite (findIndex_at _ pre post _ Hpre (Hself _ (Hfm x))). cbn [bind].
    rewrite (proj2 (replace_at_middle pre post _ VUndef)).
    rewrite (proj1 (replace_at_middle pre post _ _)).
    now rewrite (spread2_twice x kvs Hd).
  - apply findIndex_none in Ha.
    rewrite (findIndex_ext _ (derives_id slug) _ (same_id_derives_id slug)).
    rewrite (findIndex_at _ l [] _ Ha (Hself _ Hfn)). cbn [bind].
    rewrite (proj2 (replace_at_middle l [] _ VUndef)).
    rewrite (proj1 (replace_at_middle l [] _ _)).
    now rewrite (spread2_self kvs Hd).
Qed.

End Resubmit.

(** X20.  Upserting is idempotent.  In the batch handler, when a usable
    recipe normalized with a string id has been upserted, upserting the same
    recipe again into the resulting collection finds its record and leaves
    the collection exactly as it is.  The same holds in the single-recipe
    handler, where the second upsert is an update. *)
Theorem upsert_twice_is_once (H : Host) :
  (forall (raw n : value) (s : string) (st st1 : Batch.loop_state),
     Batch.usable raw = true ->
     Batch.normalize raw = Ok n -> prop "id" n = VStr s ->
     Batch.upsert_loop [raw] st = Ok st1 ->
     exists st2, Batch.upsert_loop [raw] st1 = Ok st2 /\
                 Batch.list_ st2 = Batch.list_ st1) /\
  (forall (recipe : value) (slug : string) (n : value)
          (l l1 : list value) (found : bool),
     truthy (prop "name" recipe) = true ->
     Single.normalize recipe = Ok (slug, n) ->
     Single.upsert slug n l = Ok (l1, found) ->
     Single.upsert slug n l1 = Ok (l1, true)).
Proof.
  split.
  - intros raw n s st st1 Hu Hn Hid E. simpl in *. rewrite Hu in *.
    bind_inv E. inversion E; subst a.
    destruct (upsert_again raw n s st st1 Hn Hid Ha) as (st2 & -> & Hl).
    exists st2. now split.
  - intros recipe slug n l l1 found. apply single_upsert_again.
Qed.

Lemma upsert_twice_is_once_witness :
  exists st1 st2,
    Batch.upsert_loop (H := sample_host) [Samples.raw_gimlet]
      (Samples.loop_on [Samples.stored_martini]) = Ok st1 /\
    Batch.upsert_loop [Samples.raw_gimlet] st1 = Ok st2 /\
    Batch.list_ st2 = Batch.list_ st1.
Proof.
  eexists.
  destruct (proj1 (upsert_twice_is_once sample_host) Samples.raw_gimlet _
              "gimlet" (Samples.loop_on [Samples.stored_martini]) _
              eq_refl eq_refl eq_refl eq_refl) as (st2 & Hu & Hl).
  exists st2. split; [reflexivity|]. split; [exact Hu | exact Hl].
Defined.

(** ** The ids of the answer and the committed collection *)

Section Reported.
Context {H : Host}.

Lemma existsb_filter (f : value -> bool) (l : list value) :
  existsb f l = negb (match filter f l with [] => true | _ => false end).
Proof.
  induction l as [|x r IH]; simpl; [reflexivity|].
  destruct (f x); simpl; [reflexivity | exact IH].
Qed.

(** One turn of the loop keeps a record for every id that has one, and
    makes one for the id of its input. *)
Lemma upsert_has_record (s : string) (raw n : value) (st st' : Batch.loop_state) :
  Batch.normalize raw = Ok n ->
  Batch.upsert raw st = Ok st' ->
  (existsb (has_id s) (Batch.list_ st) = true ->
   existsb (has_id s) (Batch.list_ st') = true) /\
  (prop "id" n = VStr s -> existsb (has_id s) (Batch.list_ st') = true).
Proof.
  intros Hn Hu.
  assert (Hsame : prop "id" n = VStr s ->
                  existsb (has_id s) (Batch.list_ st') = true).
  { intros Hid. apply upsert_inv in Hu.
    destruct Hu as (n' & idx & Hn' & Hf & ->).
    rewrite Hn in Hn'. inversion Hn'; subst n'.
    destruct (findId_normalized _ _ Hn) as [Hfn Hfm].
    cbn [Batch.list_]. destruct idx as [i|].
    - apply findIndex_some in Hf.
      destruct Hf as (pre & x & post & Hl & Hi & _ & _). subst i. rewrite Hl.
      rewrite (proj2 (replace_at_middle pre post x VUndef)).
      rewrite (proj1 (replace_at_middle pre post x (spread2 x n))).
      rewrite existsb_app. simpl.
      rewrite (has_id_found s _ _ (Hfm x)), Hid.
      rewrite (proj2 (strict_eq_string (VStr s) s) eq_refl).
      now rewrite orb_true_r.
    - rewrite existsb_app. simpl. rewrite (has_id_found s _ _ Hfn), Hid.
      rewrite (proj2 (strict_eq_string (VStr s) s) eq_refl).
      now rewrite orb_true_r. }
  split; [|exact Hsame]. intros Hex.
  destruct (strict_eq (prop "id" n) (VStr s)) eqn:Es.
  - apply Hsame. now apply strict_eq_string.
  - rewrite existsb_filter in *.
    now rewrite (proj1 (upsert_step s raw n st st' Hn Hu) Es).
Qed.

Lemma upsert_loop_has_records (s : string) (incoming : list value) :
  forall st st' : Batch.loop_state,
    Batch.upsert_loop incoming st = Ok st' ->
    (existsb (has_id s) (Batch.list_ st) = true ->
     existsb (has_id s) (Batch.list_ st') = true) /\
    forall new, Batch.upsertIds st' = Batch.upsertIds st ++ new ->
                In (VStr s) new ->
                existsb (has_id s) (Batch.list_ st') = true.
Proof.
  induction incoming as [|raw rest IH]; simpl; intros st st' E.
  - inversion E; subst. split; [auto|]. intros new Hnew Hin.
    rewrite <- (app_nil_r (Batch.upsertIds st')) in Hnew at 1.
    apply app_inv_head in Hnew. subst new. destruct Hin.
  - destruct (Batch.usable raw); [|now apply IH].
    bind_inv E. destruct (IH a st' E) as [Hkeep Hnew].
    destruct (upsert_inv _ _ _ Ha) as (n & idx & Hn & _ & Hst).
    destruct (upsert_has_record s raw n st a Hn Ha) as [Hk1 Hmk].
    split; [auto|]. intros new Hids Hin.
    assert (Hia : Batch.upsertIds a = Batch.upsertIds st ++ [prop "id" n])
      by now subst a.
    destruct (upsert_loop_tally rest a st' E) as [_ (new' & Hi' & _)].
    rewrite Hi', Hia, <- app_assoc in Hids. apply app_inv_head in Hids.
    subst new. destruct Hin as [Hid | Hin].
    + apply Hkeep. now apply Hmk.
    + now apply (Hnew new').
Qed.

End Reported.

(** X21.  Every string id listed in a success answer of the batch handler
    is the derived id of a record of the collection that the handler has
    committed. *)
Theorem reported_ids_are_committed (H : Host)
    (e : environment) (w : store) (req : request)
    (c : nat) (ids : list value) (s : string) :
  sent (fst (Batch.handler e w req)) = Saved c ids ->
  In (VStr s) ids ->
  exists owner repo path b x,
    In (PUT owner repo path b) (snd (Batch.handler e w req)) /\
    In x (content b) /\ has_id s x = true.
Proof.
  intros Hs Hin.
  destruct (batch_handler_paths e w req)
    as [(st & p & Hh & Hp) | (_ & _ & _ & _ & _ & Hh)]; rewrite Hh in *.
  { simpl in Hs. destruct Hp as [-> | [code ->]]; discriminate. }
  destruct (batch_rmw_outcomes (env_or (ALLOWED_ORIGIN e) "")
              (env_or (GH_OWNER e) "") (env_or (GH_REPO e) "")
              (env_or (GH_FILE e) "custom-recipes.json")
              (env_or (GH_BRANCH e) "main") w (Batch.incoming req))
    as [(text & _ & Hr) | [(_ & Hr) |
        (_ & st & sorted & msg & Hl & Hsort & _ & Hr)]];
    rewrite Hr in *; try discriminate.
  destruct (in_2xx (put_status w)); simpl in Hs; [|discriminate].
  inversion Hs; subst c ids.
  destruct (upsert_loop_has_records s _ _ _ Hl) as [_ Hnew].
  specialize (Hnew (Batch.upsertIds st) eq_refl Hin).
  apply existsb_exists in Hnew. destruct Hnew as (x & Hx & Hid).
  do 4 eexists. exists x. split; [right; left; reflexivity|].
  split; [|exact Hid]. cbn [content].
  apply (Permutation_in x (sort_by_name_perm _ _ Hsort) Hx).
Qed.

Lemma reported_ids_are_committed_witness :
  exists owner repo path b x,
    In (PUT owner repo path b)
       (snd (Batch.handler (H := sample_host) Samples.env Samples.empty_store
               Samples.mixed_batch)) /\
    In x (content b) /\ has_id "gimlet" x = true.
Proof.
  apply (reported_ids_are_committed sample_host Samples.env Samples.empty_store
           Samples.mixed_batch 2 [VStr "martini"; VStr "gimlet"] "gimlet").
  - reflexivity.
  - right; left; reflexivity.
Defined.

(** ** A stored file that is no collection *)

Section NotACollection.
Context {H : Host}.




End NotACollection.



(** ** Normalizing in one handler and in the other *)

Section Agreement.
Context {H : Host}.

Lemma truthy_or_empty_or_else (a : value) :
  truthy_or_empty a = true -> or_else a (VStr "") = a.
Proof.
  unfold truthy_or_empty, or_else. destruct (truthy a) eqn:Et; [reflexivity|].
  simpl. intros E. apply strict_eq_string in E. now subst.
Qed.

Lemma plain_ingredient_agree (p : value) :
  plain_ingredient p = true ->
  Batch.normalize_ingredient p = Single.ingredient_pair p.
Proof.
  destruct p as [| | | | |l|kvs]; simpl; try discriminate.
  - destruct l as [|a [|b [|c l]]]; try discriminate. intros E.
    apply andb_true_iff in E. destruct E as [Ea Eb]. unfold index. simpl.
    now rewrite (truthy_or_empty_or_else _ Ea), (truthy_or_empty_or_else _ Eb).
  - reflexivity.
Qed.

Lemma map_exc_agree {A B : Type} (f g : A -> exc B) (p : A -> bool) (l : list A) :
  (forall x, p x = true -> f x = g x) ->
  forallb p l = true -> map_exc f l = map_exc g l.
Proof.
  intros Hfg. induction l as [|x r IH]; simpl; [reflexivity|]. intros E.
  apply andb_true_iff in E. destruct E as [Ex Er].
  now rewrite (Hfg x Ex), (IH Er).
Qed.

Lemma normalize_agree (raw : value) :
  truthy (prop "id" raw) = false ->
  truthy (prop "name" raw) = true ->
  truthy (prop "ingredients" raw) = false \/
    array_of plain_ingredient (prop "ingredients" raw) = true ->
  truthy (prop "tags" raw) = false \/ is_array (prop "tags" raw) = true ->
  Batch.normalize raw =
    (r <- Single.normalize raw ;; Ok (snd r)) /\
  forall slug n, Single.normalize raw = Ok (slug, n) -> prop "id" n = VStr slug.
Proof.
  intros Hid Hname Hing Htags. split.
  - unfold Batch.normalize, Single.normalize, Single.normalized.
    assert (Hobj : forall k, get_field k raw = Ok (prop k raw)).
    { destruct raw; try discriminate; reflexivity. }
    rewrite !Hobj. cbn [bind]. rewrite Hid.
    rewrite (slugify_truthy _ Hname).
    assert (Hi : (if is_array (prop "ingredients" raw)
                  then Batch.map_value Batch.normalize_ingredient
                         (prop "ingredients" raw)
                  else Ok (VArr [])) =
                 Batch.map_value Single.ingredient_pair
                   (or_else (prop "ingredients" raw) (VArr []))).
    { unfold or_else. destruct Hing as [Hf | Ha].
      - rewrite Hf. destruct (prop "ingredients" raw); try discriminate; reflexivity.
      - destruct (prop "ingredients" raw) as [| | | | |l|]; try discriminate.
        simpl in *. now rewrite (map_exc_agree _ _ _ l plain_ingredient_agree Ha). }
    rewrite Hi.
    assert (Ht : Batch.as_array (prop "tags" raw) =
                 or_else (prop "tags" raw) (VArr [])).
    { unfold Batch.as_array, or_else. destruct Htags as [Hf | Ha].
      - rewrite Hf. destruct (prop "tags" raw); try discriminate; reflexivity.
      - rewrite Ha. destruct (prop "tags" raw); try discriminate; reflexivity. }
    rewrite Ht.
    destruct (Batch.slug (prop "name" raw)) as [s|]; cbn [bind]; [|
      destruct (Batch.map_value Single.ingredient_pair _); reflexivity].
    destruct (Batch.map_value Batch.lower_string _) as [b|]; cbn [bind].
    + destruct (Batch.map_value Single.ingredient_pair _); reflexivity.
    + destruct (Batch.map_value Single.ingredient_pair _); reflexivity.
  - intros slug n E. apply single_normalize_inv in E.
    now destruct E as (b & ia & _ & _ & _ & ->).
Qed.

End Agreement.

(** X23.  On a recipe in the plain form the two handlers build the same
    record: when the recipe has no truthy id, a truthy name, [ingredients]
    that are missing or an array of objects and of pairs, and [tags] that
    are missing or an array, the batch [normalize] returns exactly the
    record of the single-recipe handler, and raises when that one raises. *)
Theorem handlers_normalize_alike (H : Host) (raw : value) :
  truthy (prop "id" raw) = false ->
  truthy (prop "name" raw) = true ->
  truthy (prop "ingredients" raw) = false \/
    array_of plain_ingredient (prop "ingredients" raw) = true ->
  truthy (prop "tags" raw) = false \/ is_array (prop "tags" raw) = true ->
  Batch.normalize raw = (r <- Single.normalize raw ;; Ok (snd r)).
Proof.
  intros Hid Hname Hing Htags.
  exact (proj1 (normalize_agree raw Hid Hname Hing Htags)).
Qed.

Lemma handlers_normalize_alike_witness :
  Batch.normalize (H := sample_host) Fixtures.plain_daiquiri =
  (r <- Single.normalize (H := sample_host) Fixtures.plain_daiquiri ;;
   Ok (snd r)).
Proof.
  apply (handlers_normalize_alike sample_host Fixtures.plain_daiquiri);
    try reflexivity; right; reflexivity.
Defined.

(** ** Requests that succeed *)

Section Success.
Context {H : Host}.

Lemma named_object_inv (x : value) :
  named_object x = true ->
  exists kvs s, x = VObj kvs /\ prop "name" x = VStr s.
Proof.
  destruct x; try discriminate. unfold named_object.
  destruct (prop "name" (VObj kvs)) eqn:E; try discriminate. eauto.
Qed.

Lemma findId_named (x : value) :
  named_object x = true -> exists v, Batch.findId x = Ok v.
Proof.
  intros Hx. destruct (named_object_inv x Hx) as (kvs & s & -> & Hn).
  rewrite findId_object, Hn, slug_string.
  destruct (truthy (prop "id" (VObj kvs))); simpl; eauto.
Qed.

Lemma findIndex_named (n : value) (l : list value) :
  forallb named_object l = true -> exists idx, findIndex (matches n) l = Ok idx.
Proof.
  induction l as [|x r IH]; simpl; [eauto|]. intros E.
  apply andb_true_iff in E. destruct E as [Hx Hr].
  destruct (findId_named x Hx) as [v Hv]. unfold matches at 1. rewrite Hv.
  cbn [bind]. destruct (strict_eq v (prop "id" n)); [eauto|].
  destruct (IH Hr) as [idx ->]. simpl. eauto.
Qed.

Lemma forallb_replace_at (p : value -> bool) (i : nat) (v : value) (l : list value) :
  p v = true -> forallb p l = true -> forallb p (replace_at i v l) = true.
Proof.
  intros Hv. revert i. induction l as [|x r IH]; intro i; destruct i; simpl;
    try reflexivity; intros E; apply andb_true_iff in E; destruct E as [Hx Hr].
  - now rewrite Hv, Hr.
  - now rewrite Hx, IH.
Qed.

Lemma normalized_named (raw n : value) (s : string) :
  prop "name" raw = VStr s -> Batch.normalize raw = Ok n ->
  named_object n = true /\ forall x, named_object (spread2 x n) = true.
Proof.
  intros Hs Hn. pose proof (batch_normalize_record _ _ Hn) as Hr.
  assert (Hname : prop "name" n = VStr s).
  { apply normalize_inv in Hn. destruct Hn as (ia & i & b & _ & _ & _ & ->).
    exact Hs. }
  split.
  - destruct Hr as (kvs & -> & _). unfold named_object. now rewrite Hname.
  - intros x. unfold spread2. unfold named_object. fold (spread2 x n).
    rewrite (merge_candidate_wins x n "name" Hr) by (simpl; tauto).
    now rewrite Hname.
Qed.

Lemma upsert_named (raw : value) (st : Batch.loop_state) :
  forallb named_object (Batch.list_ st) = true ->
  Batch.usable raw = true -> well_formed_input raw = true ->
  exists st', Batch.upsert raw st = Ok st' /\
              forallb named_object (Batch.list_ st') = true.
Proof.
  intros Hl Hu Hw. unfold well_formed_input in Hw. rewrite Hu in Hw.
  simpl in Hw. apply andb_true_iff in Hw. destruct Hw as [Hs Hn].
  destruct (prop "name" raw) as [| | | |s| |] eqn:En; try discriminate.
  destruct (Batch.normalize raw) as [n|] eqn:Enorm; [|discriminate].
  destruct (normalized_named raw n s En Enorm) as [Hnn Hnm].
  unfold Batch.upsert. rewrite Enorm. cbn [bind]. fold (matches n).
  destruct (findIndex_named n _ Hl) as [idx ->]. cbn [bind].
  eexists. split; [reflexivity|]. cbn [Batch.list_]. destruct idx as [i|].
  - now apply forallb_replace_at.
  - rewrite forallb_app, Hl. simpl. now rewrite Hnn.
Qed.

Lemma upsert_loop_named (incoming : list value) :
  forall st, forallb named_object (Batch.list_ st) = true ->
             forallb well_formed_input incoming = true ->
             exists st', Batch.upsert_loop incoming st = Ok st' /\
                         forallb named_object (Batch.list_ st') = true.
Proof.
  induction incoming as [|raw rest IH]; simpl; intros st Hl Hw; [eauto|].
  apply andb_true_iff in Hw. destruct Hw as [Hraw Hrest].
  destruct (Batch.usable raw) eqn:Eu; [|now apply IH].
  destruct (upsert_named raw st Hl Eu Hraw) as (st1 & -> & Hl1).
  cbn [bind]. now apply IH.
Qed.

Lemma compare_names_named (x y : value) :
  named_object x = true -> named_object y = true ->
  exists c, compare_names x y = Ok c.
Proof.
  intros Hx Hy.
  destruct (named_object_inv x Hx) as (kx & sx & -> & Hnx).
  destruct (named_object_inv y Hy) as (ky & sy & -> & Hny).
  unfold compare_names. cbn [get_field bind]. rewrite Hnx, Hny.
  rewrite !or_else_string. simpl. eauto.
Qed.

Lemma sort_insert_named (x : value) (l : list value) :
  named_object x = true -> forallb named_object l = true ->
  exists l', sort_insert x l = Ok l' /\ forallb named_object l' = true.
Proof.
  intros Hx. induction l as [|y r IH]; simpl.
  - intros _. eexists. split; [reflexivity|]. simpl. now rewrite Hx.
  - intros E. apply andb_true_iff in E. destruct E as [Hy Hr].
    destruct (compare_names_named x y Hx Hy) as [c ->]. cbn [bind].
    destruct (c <? 0)%Z.
    + eexists. split; [reflexivity|]. simpl. now rewrite Hx, Hy, Hr.
    + destruct (IH Hr) as (r' & -> & Hr'). cbn [bind].
      eexists. split; [reflexivity|]. simpl. now rewrite Hy, Hr'.
Qed.

Lemma sort_by_name_named (l : list value) :
  forallb named_object l = true -> exists l', sort_by_name l = Ok l'.
Proof.
  unfold sort_by_name.
  assert (Hg : forall acc, forallb named_object acc = true ->
                           forallb named_object l = true ->
                           exists l', fold_left
                             (fun acc x => sorted <- acc ;; sort_insert x sorted)
                             l (Ok acc) = Ok l').
  { induction l as [|x r IH]; simpl; intros acc Hacc Hl; [eauto|].
    apply andb_true_iff in Hl. destruct Hl as [Hx Hr].
    destruct (sort_insert_named x acc Hx Hacc) as (acc' & -> & Hacc').
    now apply IH. }
  intros Hl. now apply (Hg []).
Qed.

Lemma commit_message_well_formed (incoming : list value) (k : nat) :
  forallb well_formed_input incoming = true ->
  exists msg, Batch.commit_message incoming k = Ok msg.
Proof.
  intros Hw. unfold Batch.commit_message.
  destruct (k =? 1)%nat; [|eauto].
  assert (Hp : primitive (or_else (Batch.first_name incoming) (VStr "1 item")) = true).
  { destruct incoming as [|x rest]; [reflexivity|].
    simpl in Hw. apply andb_true_iff in Hw. destruct Hw as [Hx _].
    unfold well_formed_input in Hx. apply orb_true_iff in Hx.
    destruct Hx as [Hx | Hx].
    - apply negb_true_iff in Hx. unfold Batch.usable in Hx.
      assert (Hf : truthy (Batch.first_name (x :: rest)) = false).
      { destruct x; simpl in *; try reflexivity; try exact Hx. }
      unfold or_else. now rewrite Hf.
    - apply andb_true_iff in Hx. destruct Hx as [Hs _].
      assert (Hf : is_string (Batch.first_name (x :: rest)) = true
                   \/ Batch.first_name (x :: rest) = VUndef).
      { destruct x; simpl in *; auto. }
      apply or_else_primitive; [|reflexivity].
      destruct Hf as [Hf | ->]; [|reflexivity].
      now destruct (Batch.first_name (x :: rest)). }
  destruct (to_string_primitive _ Hp) as [s ->]. simpl. eauto.
Qed.

End Success.

(** X24.  A well-formed request succeeds.  When an authorized POST passes
    the origin check with a non-empty input list, the GitHub settings are
    there, the read does not fail, every stored record is an object with a
    string as name, every input is either skipped by the loop or has a
    string as name and is accepted by [normalize], and the store answers the
    commit with a status from 200 to 299, then the batch handler commits
    and answers 200 with the number of usable inputs as count. *)
Theorem well_formed_batch_succeeds (H : Host)
    (e : environment) (w : store) (req : request) :
  method req = "POST" ->
  Batch.forbidden_origin e req = false ->
  authorized (supplied_password req) (ADMIN_PASSWORD e) = true ->
  Batch.incoming req <> [] ->
  github_config_missing e = false ->
  (forall text, on_get w <> ReadError text) ->
  forallb named_object (Batch.existing (on_get w)) = true ->
  forallb well_formed_input (Batch.incoming req) = true ->
  in_2xx (put_status w) = true ->
  exists ids,
    fst (Batch.handler e w req) =
      Batch.respond (env_or (ALLOWED_ORIGIN e) "") 200
        (Saved (length (filter Batch.usable (Batch.incoming req))) ids) /\
    existsb is_put (snd (Batch.handler e w req)) = true.
Proof.
  intros Hm Ho Ha Hi Hc Hw Hex Hwf Hput.
  rewrite (batch_handler_authorized e w req Hm Ho Ha), Hc.
  destruct (Batch.incoming req) as [|x rest] eqn:Ei; [contradiction|].
  rewrite <- Ei in *. clear Ei x rest Hi.
  destruct (upsert_loop_named (Batch.incoming req) (loop_start w) Hex Hwf)
    as (st & Hl & Hnamed).
  destruct (sort_by_name_named _ Hnamed) as [sorted Hs].
  destruct (commit_message_well_formed (Batch.incoming req)
              (Batch.upserted st) Hwf) as [msg Hmsg].
  destruct (batch_rmw_outcomes (env_or (ALLOWED_ORIGIN e) "")
              (env_or (GH_OWNER e) "") (env_or (GH_REPO e) "")
              (env_or (GH_FILE e) "custom-recipes.json")
              (env_or (GH_BRANCH e) "main") w (Batch.incoming req))
    as [(text & Hr & _) | [(_ & Hr) |
        (_ & st' & sorted' & msg' & Hl' & _ & _ & Hr)]].
  - now elim (Hw text).
  - exfalso. revert Hr. unfold Batch.read_merge_write.
    fold (loop_start w).
    destruct (on_get w) as [sha parsed| |text] eqn:Eg;
      [| |now elim (Hw text)];
      unfold loop_start in Hl; rewrite Eg in Hl; rewrite Hl; cbn [bind];
      rewrite Hs; cbn [bind]; rewrite Hmsg; cbn [bind];
      destruct (_ || _)%bool; discriminate.
  - rewrite Hr, Hput. rewrite Hl in Hl'. inversion Hl'; subst st'.
    exists (Batch.upsertIds st). split; [|reflexivity]. simpl. f_equal. f_equal.
    destruct (upsert_loop_tally _ _ _ Hl) as [Hcount _]. exact Hcount.
Qed.

Lemma well_formed_batch_succeeds_witness :
  exists ids,
    fst (Batch.handler (H := sample_host) Samples.env
           (Samples.store_with Fixtures.cellar)
           (Fixtures.post_batch [VNull; Fixtures.plain_daiquiri; Fixtures.negroni])) =
      {| status := 200; allow_origin := "*"; sent := Saved 2 ids |}.
Proof.
  destruct (well_formed_batch_succeeds sample_host Samples.env
              (Samples.store_with Fixtures.cellar)
              (Fixtures.post_batch
                 [VNull; Fixtures.plain_daiquiri; Fixtures.negroni]))
    as (ids & Hr & _); try reflexivity; try discriminate.
  exists ids. exact Hr.
Defined.

(** ** The commit message of the batch handler *)

Section Message.
Context {H : Host}.

Lemma first_name_unusable (x : value) (rest : list value) :
  Batch.usable x = false -> truthy (Batch.first_name (x :: rest)) = false.
Proof.
  unfold Batch.usable. destruct x; simpl; auto.
Qed.

Lemma batch_success_inv (e : environment) (w : store) (req : request)
    (c : nat) (ids : list value) (owner repo path : string) (b : put_body) :
  sent (fst (Batch.handler e w req)) = Saved c ids ->
  In (PUT owner repo path b) (snd (Batch.handler e w req)) ->
  Batch.commit_message (Batch.incoming req) c = Ok (message b).
Proof.
  intros Hs Hin.
  destruct (batch_handler_paths e w req)
    as [(st & p & Hh & _) | (_ & _ & _ & _ & _ & Hh)]; rewrite Hh in *;
    [destruct Hin|].
  destruct (batch_rmw_outcomes (env_or (ALLOWED_ORIGIN e) "")
              (env_or (GH_OWNER e) "") (env_or (GH_REPO e) "")
              (env_or (GH_FILE e) "custom-recipes.json")
              (env_or (GH_BRANCH e) "main") w (Batch.incoming req))
    as [(text & _ & Hr) | [(_ & Hr) |
        (_ & st & sorted & msg & _ & _ & Hm & Hr)]];
    rewrite Hr in *; try discriminate.
  destruct (in_2xx (put_status w)); simpl in Hs; [|discriminate].
  inversion Hs; subst c ids. simpl in Hin.
  destruct Hin as [E|[E|[]]]; [discriminate|]. inversion E; subst. exact Hm.
Qed.

End Message.

(** X25.  The commit message of a successful batch follows the count of
    the answer: "Upsert <count> recipes" when the count is not 1.  When it
    is 1 the message names the first element of the input list, whichever
    element was upserted: "Upsert recipe: <name>" when that element has a
    non-empty string as name, and "Upsert recipe: 1 item" when the loop
    skipped it. *)
Theorem commit_message_follows_count (H : Host)
    (e : environment) (w : store) (req : request)
    (c : nat) (ids : list value) (owner repo path : string) (b : put_body) :
  sent (fst (Batch.handler e w req)) = Saved c ids ->
  In (PUT owner repo path b) (snd (Batch.handler e w req)) ->
  (c <> 1 ->
   message b = ("Upsert " ++ nat_to_string c ++ " recipes")%string) /\
  (c = 1 -> forall x rest s,
     Batch.incoming req = x :: rest -> prop "name" x = VStr s -> s <> "" ->
     message b = ("Upsert recipe: " ++ s)%string) /\
  (c = 1 -> forall x rest,
     Batch.incoming req = x :: rest -> Batch.usable x = false ->
     message b = "Upsert recipe: 1 item").
Proof.
  intros Hs Hin. pose proof (batch_success_inv e w req c ids _ _ _ b Hs Hin) as Hm.
  unfold Batch.commit_message in Hm. repeat split.
  - intros Hc. apply Nat.eqb_neq in Hc. rewrite Hc in Hm. now inversion Hm.
  - intros -> x rest s Hi Hn Hne. rewrite Hi, (first_name_named x s rest Hn) in Hm.
    simpl in Hm. unfold or_else in Hm. simpl in Hm.
    destruct (String.eqb_spec s ""); [contradiction|]. simpl in Hm.
    now inversion Hm.
  - intros -> x rest Hi Hu. rewrite Hi in Hm. cbn [Nat.eqb] in Hm.
    unfold or_else in Hm. rewrite (first_name_unusable x rest Hu) in Hm.
    simpl in Hm. now inversion Hm.
Qed.

Lemma commit_message_follows_count_witness :
  exists b,
    In (PUT "owner" "pages" "custom-recipes.json" b)
       (snd (Batch.handler (H := sample_host) Samples.env Samples.empty_store
               (Fixtures.post_batch [VNull; Fixtures.negroni]))) /\
    message b = "Upsert recipe: 1 item".
Proof.
  eexists. split; [right; left; reflexivity|].
  match goal with
  | |- message ?b = _ =>
      apply (proj2 (proj2 (commit_message_follows_count sample_host Samples.env
                             Samples.empty_store
                             (Fixtures.post_batch [VNull; Fixtures.negroni])
                             1 [VStr "negroni"] "owner" "pages"
                             "custom-recipes.json" b eq_refl
                             (or_intror (or_introl eq_refl))))
               eq_refl VNull [Fixtures.negroni]); reflexivity
  end.
Defined.
